(** * Echoes: presentation-and-interaction engine of [src/game.js]

    A shallow embedding of the orchestration core of the game: the
    persistence boundary ([StorageManager]), the fade engine and audio
    controller ([AudioManager]), the mini-game lifecycle manager
    ([MiniGameManager]), the phrase ledger, the finale timeline and the
    parts of [App] that tie them together.

    JavaScript numbers are IEEE-754 binary64 values and are modelled by
    Rocq's primitive floats, so every arithmetic step below rounds as the
    program's does.  Calls to [performance.now()] become an explicit time
    argument, [Math.random()] an explicit draw, and the mutable objects
    become records threaded through the functions. *)

From Stdlib Require Import Floats ZArith Bool List Lia.
From Stdlib Require Uint63.
From stdpp Require Import gmap strings list pretty.

Set Warnings "-inexact-float,-register-all,-clear-no-such-hyp".

(* ===================================================================== *)
(** * Part I: the model                                                   *)
(* ===================================================================== *)

(** ** Numbers and the utility functions (game.js, lines 27-29) *)

Module JS.
Local Open Scope float_scope.

(** Truthiness of a number: [0], [-0] and [NaN] are falsy. *)
Definition truthy_num (x : float) : bool := negb (is_nan x || is_zero x).

(** Truthiness of a string: only the empty string is falsy. *)
Definition truthy_str (s : string) : bool := negb (String.eqb s EmptyString).

(** [Math.min] and [Math.max] on two arguments: [NaN] is contagious and
    [-0] is smaller than [+0]. *)
Definition Math_min (a b : float) : float :=
  if is_nan a || is_nan b then nan
  else if a <? b then a
  else if b <? a then b
  else if is_zero b && get_sign b then b else a.

Definition Math_max (a b : float) : float :=
  if is_nan a || is_nan b then nan
  else if a <? b then b
  else if b <? a then a
  else if is_zero b && negb (get_sign b) then b else a.

(** [const clamp01 = (v) => Math.max(0, Math.min(1, v));] *)
Definition clamp01 (v : float) : float := Math_max 0 (Math_min 1 v).

(** [const lerp = (a, b, t) => a + (b - a) * t;] *)
Definition lerp (a b t : float) : float := a + (b - a) * t.

(** [Math.pow(x, 2)], taken as the correctly rounded square. The language
    fixes its value at [0] and at [NaN], the only arguments at which the
    properties below depend on it. *)
Definition Math_pow2 (x : float) : float := x * x.

(** [const easeInOut = (t) => (t < 0.5 ? 2 * t * t : 1 - Math.pow(-2 * t + 2, 2) / 2);] *)
Definition easeInOut (t : float) : float :=
  if t <? 0.5 then (2 * t) * t else 1 - Math_pow2 ((-2) * t + 2) / 2.

(** An integer-valued number such as an array index. *)
Definition of_nat (n : nat) : float := of_uint63 (Uint63.of_Z (Z.of_nat n)).

(** The shape of a number that is neither [NaN] nor infinite. *)
Definition finite_shape (s : spec_float) : Prop :=
  match s with
  | S754_zero _ | S754_finite _ _ _ => True
  | _ => False
  end.

(** The shape of a number that is zero, negative or [-Infinity]. *)
Definition nonpos_shape (s : spec_float) : Prop :=
  match s with
  | S754_zero _ | S754_finite true _ _ | S754_infinity true => True
  | _ => False
  end.

End JS.

(** ** AudioManager (game.js, lines 115-330) *)

Module Audio.
Import JS.
Local Open Scope float_scope.

Inductive channel := Ambient | Final.

(** What the controller reads and writes of an [HTMLAudioElement]. *)
Record AudioEl := { volume : float; paused : bool }.

(** A fade descriptor, [{ from, to, start, dur, active }]. *)
Record Fade := { from : float; to : float; start : float; dur : float; active : bool }.

Record AudioManager := {
  ambient : AudioEl;
  final : AudioEl;
  enabled : bool;
  muted : bool;
  masterVolume : float;
  _base_ambient : float;
  _base_final : float;
  _targetAmbient : float;
  _targetFinal : float;
  _fades_ambient : Fade;
  _fades_final : Fade;
  (** [_fadeRaf]: the handle is only ever tested for being non-zero. *)
  _fadeRaf : bool
}.

Definition idleFade : Fade := {| from := 0; to := 0; start := 0; dur := 0; active := false |}.

(** The constructor; both elements start silent, their playback state is
    the host's. *)
Definition constructor (ambientPaused finalPaused : bool) : AudioManager :=
  {| ambient := {| volume := 0; paused := ambientPaused |};
     final := {| volume := 0; paused := finalPaused |};
     enabled := false; muted := false; masterVolume := 1;
     _base_ambient := 0; _base_final := 0;
     _targetAmbient := 0.14; _targetFinal := 0.18;
     _fades_ambient := idleFade; _fades_final := idleFade;
     _fadeRaf := false |}.

Definition el (which : channel) (am : AudioManager) : AudioEl :=
  match which with Ambient => ambient am | Final => final am end.

Definition _base (which : channel) (am : AudioManager) : float :=
  match which with Ambient => _base_ambient am | Final => _base_final am end.

Definition _fades (which : channel) (am : AudioManager) : Fade :=
  match which with Ambient => _fades_ambient am | Final => _fades_final am end.

Definition set_el (which : channel) (e : AudioEl) (am : AudioManager) : AudioManager :=
  match which with
  | Ambient =>
    {| ambient := e; final := final am; enabled := enabled am; muted := muted am;
       masterVolume := masterVolume am; _base_ambient := _base_ambient am;
       _base_final := _base_final am; _targetAmbient := _targetAmbient am;
       _targetFinal := _targetFinal am; _fades_ambient := _fades_ambient am;
       _fades_final := _fades_final am; _fadeRaf := _fadeRaf am |}
  | Final =>
    {| ambient := ambient am; final := e; enabled := enabled am; muted := muted am;
       masterVolume := masterVolume am; _base_ambient := _base_ambient am;
       _base_final := _base_final am; _targetAmbient := _targetAmbient am;
       _targetFinal := _targetFinal am; _fades_ambient := _fades_ambient am;
       _fades_final := _fades_final am; _fadeRaf := _fadeRaf am |}
  end.

Definition set_base (which : channel) (b : float) (am : AudioManager) : AudioManager :=
  {| ambient := ambient am; final := final am; enabled := enabled am; muted := muted am;
     masterVolume := masterVolume am;
     _base_ambient := match which with Ambient => b | Final => _base_ambient am end;
     _base_final := match which with Ambient => _base_final am | Final => b end;
     _targetAmbient := _targetAmbient am; _targetFinal := _targetFinal am;
     _fades_ambient := _fades_ambient am; _fades_final := _fades_final am; _fadeRaf := _fadeRaf am |}.

Definition set_fade (which : channel) (f : Fade) (am : AudioManager) : AudioManager :=
  {| ambient := ambient am; final := final am; enabled := enabled am; muted := muted am;
     masterVolume := masterVolume am; _base_ambient := _base_ambient am;
     _base_final := _base_final am; _targetAmbient := _targetAmbient am;
     _targetFinal := _targetFinal am;
     _fades_ambient := match which with Ambient => f | Final => _fades_ambient am end;
     _fades_final := match which with Ambient => _fades_final am | Final => f end;
     _fadeRaf := _fadeRaf am |}.

Definition set_fadeRaf (r : bool) (am : AudioManager) : AudioManager :=
  {| ambient := ambient am; final := final am; enabled := enabled am; muted := muted am;
     masterVolume := masterVolume am; _base_ambient := _base_ambient am;
     _base_final := _base_final am; _targetAmbient := _targetAmbient am;
     _targetFinal := _targetFinal am; _fades_ambient := _fades_ambient am;
     _fades_final := _fades_final am; _fadeRaf := r |}.

Definition deactivate (f : Fade) : Fade :=
  {| from := from f; to := to f; start := start f; dur := dur f; active := false |}.

Definition pause (e : AudioEl) : AudioEl := {| volume := volume e; paused := true |}.

(** [el.play()]: the host either starts playback or rejects the call. *)
Definition play (allowed : bool) (e : AudioEl) : AudioEl :=
  {| volume := volume e; paused := if allowed then false else paused e |}.

(** Assigning [el.volume]: the host rejects a value that is not a number
    with a [TypeError] and leaves the element as it was. *)
Definition set_volume (v : float) (e : AudioEl) : option AudioEl :=
  if is_nan v then None else Some {| volume := v; paused := paused e |}.

(** [setMuted(muted)], lines 148-164. *)
Definition setMuted (m : bool) (am : AudioManager) : AudioManager :=
  if m then
    {| ambient := {| volume := 0; paused := true |};
       final := {| volume := 0; paused := true |};
       enabled := enabled am; muted := true;
       masterVolume := masterVolume am; _base_ambient := _base_ambient am;
       _base_final := _base_final am; _targetAmbient := _targetAmbient am;
       _targetFinal := _targetFinal am;
       _fades_ambient := deactivate (_fades_ambient am);
       _fades_final := deactivate (_fades_final am);
       _fadeRaf := false |}
  else
    {| ambient := ambient am; final := final am; enabled := enabled am; muted := false;
       masterVolume := masterVolume am; _base_ambient := _base_ambient am;
       _base_final := _base_final am; _targetAmbient := _targetAmbient am;
       _targetFinal := _targetFinal am; _fades_ambient := _fades_ambient am;
       _fades_final := _fades_final am; _fadeRaf := _fadeRaf am |}.

(** [_getBase(which)], lines 174-180. *)
Definition _getBase (which : channel) (am : AudioManager) : float :=
  if 0.0001 <? masterVolume am then clamp01 (volume (el which am) / masterVolume am)
  else if truthy_num (_base which am) then _base which am else 0.

(** [_startFade(which, from, to, dur)], lines 264-267, called at time [now];
    it also makes sure the fade ticker is scheduled. *)
Definition _startFade (which : channel) (a b d now : float) (am : AudioManager) : AudioManager :=
  set_fadeRaf true
    (set_fade which {| from := a; to := b; start := now; dur := d; active := true |} am).

(** How a call ends: normally, or by an exception leaving the state as far
    as it was written. *)
Inductive outcome := Returned | Threw.

(** The closure [upd] of [update], lines 286-306. *)
Definition upd (which : channel) (tNow : float) (am : AudioManager) : AudioManager * outcome :=
  let f := _fades which am in
  if negb (active f) then (am, Returned)
  else
    let t := clamp01 ((tNow - start f) / dur f) in
    let b := lerp (from f) (to f) (easeInOut t) in
    let am1 := set_base which b am in
    let applied := clamp01 (b * masterVolume am1) in
    match set_volume applied (el which am1) with
    | None => (am1, Threw)
    | Some e =>
      let am2 := set_el which e am1 in
      if 1 <=? t then
        let am3 := set_fade which (deactivate f) am2 in
        if to f <=? 0.0001 then (set_el which (pause (el which am3)) am3, Returned)
        else (am3, Returned)
      else (am2, Returned)
    end.

(** [update()], lines 281-310, run at time [tNow]. *)
Definition update (tNow : float) (am : AudioManager) : AudioManager * outcome :=
  if negb (enabled am) then (am, Returned)
  else if muted am then (am, Returned)
  else
    match upd Ambient tNow am with
    | (am1, Threw) => (am1, Threw)
    | (am1, Returned) => upd Final tNow am1
    end.

(** [ensurePlayback()], lines 316-330; [allowA] and [allowF] say whether the
    host lets each element resume. *)
Definition ensurePlayback (allowA allowF : bool) (am : AudioManager) : AudioManager :=
  if negb (enabled am) then am
  else if muted am then am
  else if masterVolume am <=? 0.0001 then am
  else
    let need (which : channel) :=
      (0.0005 <? _base which am * masterVolume am)
      || (active (_fades which am) && (0.0005 <? to (_fades which am))) in
    let am1 :=
      if need Ambient && paused (ambient am)
      then set_el Ambient (play allowA (ambient am)) am else am in
    if need Final && paused (final am1)
    then set_el Final (play allowF (final am1)) am1 else am1.

(** [setMasterVolume(v)], lines 166-172. *)
Definition setMasterVolume (v : float) (am : AudioManager) : AudioManager * outcome :=
  let mv := clamp01 v in
  let am1 :=
    {| ambient := ambient am; final := final am; enabled := enabled am; muted := muted am;
       masterVolume := mv; _base_ambient := _base_ambient am;
       _base_final := _base_final am; _targetAmbient := _targetAmbient am;
       _targetFinal := _targetFinal am; _fades_ambient := _fades_ambient am;
       _fades_final := _fades_final am; _fadeRaf := _fadeRaf am |} in
  if negb (enabled am1) then (am1, Returned)
  else if muted am1 then (am1, Returned)
  else
    match set_volume (clamp01 (_base_ambient am1 * mv)) (ambient am1) with
    | None => (am1, Threw)
    | Some ea =>
      let am2 := set_el Ambient ea am1 in
      match set_volume (clamp01 (_base_final am2 * mv)) (final am2) with
      | None => (am2, Threw)
      | Some ef => (set_el Final ef am2, Returned)
      end
    end.

(** The two periodic calls the frame loop makes on the controller. *)
Inductive tick :=
| TUpdate (tNow : float)
| TEnsurePlayback (allowA allowF : bool).

Definition run_tick (k : tick) (am : AudioManager) : AudioManager :=
  match k with
  | TUpdate tNow => fst (update tNow am)
  | TEnsurePlayback allowA allowF => ensurePlayback allowA allowF am
  end.

Definition run_ticks (ks : list tick) (am : AudioManager) : AudioManager :=
  fold_left (fun s k => run_tick k s) ks am.

(** The descriptor [_startFade(which, a, b, d)] writes at time [st]. *)
Definition started (a b d st : float) : Fade :=
  {| from := a; to := b; start := st; dur := d; active := true |}.

(** Between the start of a fade and its completion the descriptor is the
    one [_startFade] wrote; after completion the base level rests at
    [lerp a b 1], scaled by the master volume on the element. *)
Definition fade_inv (which : channel) (a b d st mv : float) (s : AudioManager) : Prop :=
  enabled s = true /\ muted s = false /\ masterVolume s = mv /\
  (_fades which s = started a b d st \/
   (_fades which s = deactivate (started a b d st) /\ _base which s = lerp a b 1 /\
    volume (el which s) = clamp01 (lerp a b 1 * mv))).

(** Every [update()] of the list is run at or after [st]. *)
Definition not_before (st : float) (ks : list tick) : Prop :=
  Forall (fun k => match k with TUpdate t => (0 <=? t - st) = true | _ => True end) ks.

(** The controller after a successful unlock: enabled, not muted. *)
Definition unlocked : AudioManager :=
  {| ambient := {| volume := 0; paused := false |};
     final := {| volume := 0; paused := true |};
     enabled := true; muted := false; masterVolume := 1;
     _base_ambient := 0; _base_final := 0;
     _targetAmbient := 0.14; _targetFinal := 0.18;
     _fades_ambient := idleFade; _fades_final := idleFade;
     _fadeRaf := false |}.

(** The value an [async] method resolves to: [true], [false] or
    [undefined]. *)
Inductive answer := Yes | No | Undefined.

Definition _target (which : channel) (am : AudioManager) : float :=
  match which with Ambient => _targetAmbient am | Final => _targetFinal am end.

Definition set_enabled (e : bool) (am : AudioManager) : AudioManager :=
  {| ambient := ambient am; final := final am; enabled := e; muted := muted am;
     masterVolume := masterVolume am; _base_ambient := _base_ambient am;
     _base_final := _base_final am; _targetAmbient := _targetAmbient am;
     _targetFinal := _targetFinal am; _fades_ambient := _fades_ambient am;
     _fades_final := _fades_final am; _fadeRaf := _fadeRaf am |}.

(** [unlockAndStartAmbient()] and [unlockAndStartFinal()], lines 185-227,
    differ in the channel and in the duration [d] of the fade.  The method
    runs up to [await el.play()], where it is suspended, and is resumed
    when the promise of [play()] is settled; [allowed] says whether the
    host lets the element play.  [unlock_call] is the part before the
    suspension, with the answer if the method returns before it;
    [unlock_resume] is the part after it, run at time [now].  The attribute
    [el.muted] of the element is written here and read nowhere; the audio
    context of the chime, which [_ensureAudioContext()] creates, is left
    out. *)
Definition unlock_call (which : channel) (allowed : bool) (am : AudioManager)
  : AudioManager * option answer :=
  if enabled am then (am, Some Yes)
  else
    let am1 := set_enabled true am in
    if muted am1 then (am1, Some Undefined)
    else (set_el which (play allowed (el which am1)) am1, None).

Definition unlock_resume (which : channel) (d : float) (allowed : bool) (now : float)
  (am : AudioManager) : AudioManager * answer :=
  if allowed then (_startFade which 0 (_target which am) d now am, Yes)
  else (set_enabled false am, No).

(** The whole method when nothing else runs while it is suspended. *)
Definition unlockAndStart (which : channel) (d : float) (allowed : bool) (now : float)
  (am : AudioManager) : AudioManager * answer :=
  match unlock_call which allowed am with
  | (am1, Some r) => (am1, r)
  | (am1, None) => unlock_resume which d allowed now am1
  end.

Definition unlockAndStartAmbient := unlockAndStart Ambient 2000.
Definition unlockAndStartFinal := unlockAndStart Final 2400.

(** [switchToFinal()] and [switchToAmbient()], lines 230-262, differ in the
    channels and in the duration.  The part up to the call of [play()] on
    the incoming element: [None] if the method returns there, otherwise
    whether it goes on ([play()] was not needed or is allowed). *)
Definition switch_call (incoming : channel) (allowed : bool) (am : AudioManager)
  : AudioManager * option bool :=
  if negb (enabled am) || muted am then (am, None)
  else if paused (el incoming am)
       then (set_el incoming (play allowed (el incoming am)) am, Some allowed)
       else (am, Some true).

(** The two calls of [_startFade] that end the method, the outgoing
    channel first; each reads the clock. *)
Definition crossfade (outgoing incoming : channel) (d now1 now2 : float) (am : AudioManager)
  : AudioManager :=
  let am1 := _startFade outgoing (_getBase outgoing am) 0 d now1 am in
  _startFade incoming (_getBase incoming am1) (_target incoming am1) d now2 am1.

Definition switchTo (outgoing incoming : channel) (d : float) (allowed : bool)
  (now1 now2 : float) (am : AudioManager) : AudioManager :=
  match switch_call incoming allowed am with
  | (am1, Some true) => crossfade outgoing incoming d now1 now2 am1
  | (am1, _) => am1
  end.

Definition switchToFinal := switchTo Ambient Final 2600.
Definition switchToAmbient := switchTo Final Ambient 2200.

(** The callback [tick] of [_ensureFadeTicker()], lines 269-279, run at
    time [tNow]: it is scheduled again while a fade is active. *)
Definition _fadeTick (tNow : float) (am : AudioManager) : AudioManager * outcome :=
  match update tNow (set_fadeRaf false am) with
  | (am1, Threw) => (am1, Threw)
  | (am1, Returned) =>
    (if active (_fades_ambient am1) || active (_fades_final am1)
     then set_fadeRaf true am1 else am1, Returned)
  end.

(** Everything that can happen to the controller: the calls of its
    methods, the two parts of the suspended ones at any time, the fade
    ticker, and the host pausing an element by itself. *)
Inductive op :=
| OSetMuted (m : bool)
| OSetMasterVolume (v : float)
| OUpdate (tNow : float)
| OFadeTick (tNow : float)
| OEnsurePlayback (allowA allowF : bool)
| OUnlockCall (which : channel) (allowed : bool)
| OUnlockResume (which : channel) (d : float) (allowed : bool) (now : float)
| OSwitchCall (incoming : channel) (allowed : bool)
| OCrossfade (outgoing incoming : channel) (d now1 now2 : float)
| OPlay (which : channel) (allowed : bool)
| OHostPause (which : channel).

Definition run_op (o : op) (am : AudioManager) : AudioManager :=
  match o with
  | OSetMuted m => setMuted m am
  | OSetMasterVolume v => fst (setMasterVolume v am)
  | OUpdate tNow => fst (update tNow am)
  | OFadeTick tNow => fst (_fadeTick tNow am)
  | OEnsurePlayback allowA allowF => ensurePlayback allowA allowF am
  | OUnlockCall which allowed => fst (unlock_call which allowed am)
  | OUnlockResume which d allowed now => fst (unlock_resume which d allowed now am)
  | OSwitchCall incoming allowed => fst (switch_call incoming allowed am)
  | OCrossfade outgoing incoming d now1 now2 => crossfade outgoing incoming d now1 now2 am
  | OPlay which allowed => set_el which (play allowed (el which am)) am
  | OHostPause which => set_el which (pause (el which am)) am
  end.

Definition run_ops (os : list op) (am : AudioManager) : AudioManager :=
  fold_left (fun s o => run_op o s) os am.

(** A level an audio element accepts: a number from 0 to 1. *)
Definition in01 (v : float) : bool := (0 <=? v) && (v <=? 1).

(** Both element volumes are levels an element accepts, and the master
    volume is one as well unless it is [NaN]. *)
Definition levels_ok (am : AudioManager) : Prop :=
  in01 (volume (ambient am)) = true /\ in01 (volume (final am)) = true /\
  (is_nan (masterVolume am) = true \/ in01 (masterVolume am) = true).

(** The operations that neither change the mute state or the master
    volume nor start a fade. *)
Definition quiet (o : op) : Prop :=
  match o with
  | OUpdate _ | OFadeTick _ | OEnsurePlayback _ _ | OPlay _ _ | OHostPause _ => True
  | _ => False
  end.

(** A fade of [which] from [a] down to 0, started at [st]: either it is
    still in flight, or it is over and the channel rests silent and
    paused. *)
Definition fading_out (which : channel) (a d st : float) (s : AudioManager) : Prop :=
  enabled s = true /\ muted s = false /\
  (_fades which s = started a 0 d st \/
   (_fades which s = deactivate (started a 0 d st) /\ _base which s = 0 /\
    volume (el which s) = clamp01 (0 * masterVolume s) /\
    paused (el which s) = true)).

(** After a mute and an unmute: no fade in flight, both elements at
    volume 0, the base levels as given. *)
Definition hushed (bA bF : float) (s : AudioManager) : Prop :=
  muted s = false /\
  active (_fades_ambient s) = false /\ active (_fades_final s) = false /\
  volume (ambient s) = 0 /\ volume (final s) = 0 /\
  _base_ambient s = bA /\ _base_final s = bF.

End Audio.

(** ** MiniGameManager (game.js, lines 484-566) *)

Module MiniGames.
Import JS.
Local Open Scope float_scope.

(** Mini-game descriptors and the promises returned by [open] are told
    apart by a number. *)
Definition game := nat.
Definition promise := nat.

(** The fields [_active], [_resolve] and [_openedAt]. [_resolve] holds the
    resolver of one promise, or [null]. *)
Record MiniGameManager := {
  _active : option game;
  _resolve : option promise;
  _openedAt : float
}.

(** What the manager does to the outside, in order: [game.mount(...)],
    [game.unmount()], and a call [r(ok)] of a promise's resolver. *)
Inductive effect :=
| Mounted (g : game)
| Unmounted (g : game)
| Resolved (p : promise) (ok : bool).

(** The manager together with what its promises and descriptors hold:
    [bound] lists the descriptors whose [onComplete]/[onCancel] have been
    set by [open]; [trace] is the history of effects, oldest first. *)
Record world := {
  mgr : MiniGameManager;
  bound : list game;
  trace : list effect;
  nextPromise : promise
}.

(** The constructor: nothing open, nothing pending. *)
Definition init : world :=
  {| mgr := {| _active := None; _resolve := None; _openedAt := 0 |};
     bound := []; trace := []; nextPromise := O |}.

(** [isOpen()] *)
Definition isOpen (w : world) : bool :=
  match _active (mgr w) with Some _ => true | None => false end.

(** [close()], lines 552-560: unmount the active descriptor (a failing
    [unmount] is swallowed) and clear the active state. [_resolve] is not
    touched. *)
Definition close (w : world) : world :=
  {| mgr := {| _active := None; _resolve := _resolve (mgr w); _openedAt := 0 |};
     bound := bound w;
     trace := match _active (mgr w) with
              | Some g => trace w ++ [Unmounted g]
              | None => trace w
              end;
     nextPromise := nextPromise w |}.

(** [_finish(ok)], lines 541-550. *)
Definition _finish (ok : bool) (w : world) : world :=
  match _resolve (mgr w) with
  | Some r =>
    let w1 := close {| mgr := {| _active := _active (mgr w); _resolve := None;
                                 _openedAt := _openedAt (mgr w) |};
                       bound := bound w; trace := trace w;
                       nextPromise := nextPromise w |} in
    {| mgr := mgr w1; bound := bound w1; trace := trace w1 ++ [Resolved r ok];
       nextPromise := nextPromise w1 |}
  | None => close w
  end.

(** [open(game)], lines 512-539, called at time [t]; returns the new
    promise. *)
Definition open (g : game) (t : float) (w : world) : world * promise :=
  let w1 := close w in
  let p := nextPromise w1 in
  ({| mgr := {| _active := Some g; _resolve := Some p; _openedAt := t |};
      bound := g :: bound w1;
      trace := trace w1 ++ [Mounted g];
      nextPromise := S p |}, p).

(** The handler [cancel] of the close button and the backdrop, lines
    497-502, run for a click at time [t]. *)
Definition cancel (t : float) (w : world) : world :=
  if truthy_num (_openedAt (mgr w)) && (t - _openedAt (mgr w) <? 280) then w
  else _finish false w.

(** [game.onComplete?.()] and [game.onCancel?.()]: nothing happens for a
    descriptor that was never opened. *)
Definition onComplete (g : game) (w : world) : world :=
  if existsb (Nat.eqb g) (bound w) then _finish true w else w.

Definition onCancel (g : game) (w : world) : world :=
  if existsb (Nat.eqb g) (bound w) then _finish false w else w.

(** What can happen to the manager. *)
Inductive event :=
| Open (g : game) (t : float)
| Complete (g : game)
| Cancel (g : game)
| Dismiss (t : float).

Definition step (e : event) (w : world) : world :=
  match e with
  | Open g t => fst (open g t w)
  | Complete g => onComplete g w
  | Cancel g => onCancel g w
  | Dismiss t => cancel t w
  end.

Definition run (es : list event) (w : world) : world :=
  fold_left (fun s e => step e s) es w.

(** The signals that can reach one open mini-game: its completion, its
    cancellation, and a click on the close button or the backdrop. *)
Inductive signal :=
| SComplete
| SCancel
| SDismiss (t : float).

Definition event_of (g : game) (s : signal) : event :=
  match s with
  | SComplete => Complete g
  | SCancel => Cancel g
  | SDismiss t => Dismiss t
  end.

(** A signal gets through unless it is a click within 280 ms of an opening
    at time [t0]. *)
Definition effective (t0 : float) (s : signal) : bool :=
  match s with
  | SComplete | SCancel => true
  | SDismiss t => negb (truthy_num t0 && (t - t0 <? 280))
  end.

Definition is_completion (s : signal) : bool :=
  match s with SComplete => true | _ => false end.

(** The values with which the resolver of promise [p] was called, in
    order; the promise is settled by the first. *)
Fixpoint resolutions (p : promise) (tr : list effect) : list bool :=
  match tr with
  | [] => []
  | Resolved q ok :: tr' =>
    if Nat.eqb q p then ok :: resolutions p tr' else resolutions p tr'
  | _ :: tr' => resolutions p tr'
  end.

(** Promises are numbered in the order of their creation and a pending
    resolver has not been called. *)
Definition wf (w : world) : Prop :=
  (forall p, _resolve (mgr w) = Some p ->
             p < nextPromise w /\ resolutions p (trace w) = []) /\
  (forall p, nextPromise w <= p -> resolutions p (trace w) = []).

(** A promise whose resolver the manager no longer holds is never
    resolved, whatever happens next. *)
Definition orphan (p : promise) (w : world) : Prop :=
  _resolve (mgr w) <> Some p /\ p < nextPromise w /\ resolutions p (trace w) = [].

(** The descriptors that are mounted and not unmounted since, after the
    effects of a trace. *)
Definition mounted_after (tr : list effect) : list game :=
  fold_left (fun l e => match e with
                        | Mounted g => l ++ [g]
                        | Unmounted g => List.remove Nat.eq_dec g l
                        | Resolved _ _ => l
                        end) tr [].

(** Over all of a run: no resolver is called twice, and a resolver is
    called only while no descriptor is mounted. *)
Definition settled_once (w : world) : Prop :=
  forall p, length (resolutions p (trace w)) <= 1.

Definition settled_unmounted (w : world) : Prop :=
  forall tr1 tr2 p ok, trace w = tr1 ++ Resolved p ok :: tr2 -> mounted_after tr1 = [].

(** What is mounted is what [_active] holds. *)
Definition active_mounted (w : world) : Prop :=
  mounted_after (trace w) = match _active (mgr w) with Some g => [g] | None => [] end.

Definition bracketed (w : world) : Prop := active_mounted w /\ settled_unmounted w.

Definition once (w : world) : Prop := wf w /\ settled_once w.

End MiniGames.

(** ** The phrase ledger (game.js, lines 1939-1952 and 2136-2149) *)

Module Phrases.
Import JS.

(** [getInteractionPhrases()] *)
Definition getInteractionPhrases : list string :=
  [ "Hay momentos simples que contigo se vuelven mis favoritos.";
    "A veces pienso que nos encontramos justo cuando más lo necesitábamos.";
    "Me gusta la forma en que el tiempo se desordena cuando estamos juntos.";
    "A veces tu recuerdo es todo lo que necesito para sentirme bien.";
    "Me gusta cómo el tiempo se desordena cuando estamos juntos.";
    "Algunas cosas sólo tienen sentido contigo, incluso en silencio.";
    "Es curioso cómo un simple pensamiento tuyo puede acompañarme todo el día.";
    "No todo tiene que ser especial para ser importante.";
    "No importa qué estemos haciendo, contigo siempre se siente mejor.";
    "Si algo quiero repetir muchas veces, es esto que tenemos sin forzarlo." ].

(** [new Set(this.assignedPhrases.values())] *)
Definition used (m : gmap string string) : list string := (map_to_list m).*2.

(** [pool.filter((p) => !used.has(p))] *)
Definition available (m : gmap string string) : list string :=
  filter (fun p => p ∉ used m) getInteractionPhrases.

(** The phrase drawn when an assignment is made. [pickFrom] is never empty,
    so the index is in range. *)
Definition chosen (draw : nat) (m : gmap string string) : string :=
  let pickFrom := match available m with [] => getInteractionPhrases | _ :: _ => available m end in
  default EmptyString (pickFrom !! (draw mod length pickFrom)).

(** [_getOrAssignPhrase(objectId)]. [Math.floor(Math.random() * n)] ranges
    over the indices below [n]; the draw is an explicit argument, reduced
    modulo [n]. The result is the phrase returned and the map afterwards. *)
Definition _getOrAssignPhrase (objectId : string) (draw : nat) (m : gmap string string)
  : string * gmap string string :=
  let assign :=
    let pool := getInteractionPhrases in
    let pickFrom := match available m with [] => pool | _ :: _ => available m end in
    let chosen := default EmptyString (pickFrom !! (draw mod length pickFrom)) in
    (chosen, <[objectId := chosen]> m) in
  match m !! objectId with
  | Some existing => if truthy_str existing then (existing, m) else assign
  | None => assign
  end.

(** A sequence of calls, each with its draw. *)
Definition run_calls (calls : list (string * nat)) (m : gmap string string)
  : gmap string string :=
  fold_left (fun s c => snd (_getOrAssignPhrase (fst c) (snd c) s)) calls m.

(** No two distinct ids hold the same phrase. *)
Definition distinct_phrases (m : gmap string string) : Prop :=
  forall i j p, i <> j -> m !! i = Some p -> m !! j = Some p -> False.

(** The ids for which a sequence of calls asks. *)
Definition ids_of (calls : list (string * nat)) : gset string := list_to_set (calls.*1).

(** Every phrase held comes from the pool. *)
Definition in_pool (m : gmap string string) : Prop :=
  forall i p, m !! i = Some p -> p ∈ getInteractionPhrases.

End Phrases.

(** ** StorageManager (game.js, lines 57-109) *)

Module Storage.
Import JS.
Local Open Scope float_scope.

(** A value as [JSON.parse] returns it; the field names of an object are
    distinct. *)
Inductive jsval :=
| JNull
| JBool (b : bool)
| JNum (x : float)
| JStr (s : string)
| JArr (items : list jsval)
| JObj (fields : list (string * jsval)).

(** Reading a property that may be [undefined]. Of the six names [load]
    reads, none exists on an array, a string, a number or a boolean. *)
Definition get (v : jsval) (k : string) : option jsval :=
  match v with
  | JObj fields => snd <$> List.find (fun f => String.eqb (fst f) k) fields
  | _ => None
  end.

(** Truthiness of a value, [undefined] being [None]. *)
Definition truthy (v : option jsval) : bool :=
  match v with
  | None | Some JNull => false
  | Some (JBool b) => b
  | Some (JNum x) => truthy_num x
  | Some (JStr s) => truthy_str s
  | Some (JArr _) | Some (JObj _) => true
  end.

(** [String(v)] of a parsed value, [None] when it throws. A parsed object
    has no callable property of its own: with a key [toString] it has no
    way to a primitive ([valueOf] gives the object back) and the conversion
    raises a TypeError; any other object gives ["[object Object]"]. An
    array joins its elements with commas, [null] counting as the empty
    string. [numText] is the text of a number. *)
Section ToString.
Variable numText : float -> string.

Fixpoint ToString (v : jsval) : option string :=
  match v with
  | JNull => Some "null"
  | JBool b => Some (if b then "true" else "false")
  | JNum x => Some (numText x)
  | JStr s => Some s
  | JArr items =>
    (fix join (l : list jsval) : option string :=
       match l with
       | [] => Some EmptyString
       | x :: rest =>
         match (match x with JNull => Some EmptyString | _ => ToString x end) with
         | None => None
         | Some s =>
           match rest with
           | [] => Some s
           | _ :: _ =>
             match join rest with
             | None => None
             | Some r => Some (s +:+ "," +:+ r)
             end
           end
         end
       end) items
  | JObj fields =>
    if existsb (fun f => String.eqb (fst f) "toString") fields then None
    else Some "[object Object]"
  end.

End ToString.

(** The record [load] returns. *)
Record ProgressRecord := {
  discoveredIds : list jsval;
  muted : bool;
  volume : float;
  assignedPhrases : jsval;
  unlockedOrder : list jsval;
  seenFinal : bool
}.

Definition defaultRecord : ProgressRecord :=
  {| discoveredIds := []; muted := false; volume := 1; assignedPhrases := JObj [];
     unlockedOrder := []; seenFinal := false |}.

(** [Array.isArray(v) ? v : []] *)
Definition arrayOr (v : option jsval) : list jsval :=
  match v with Some (JArr items) => items | _ => [] end.

(** The object literal built from [parsed], lines 87-96. *)
Definition recordOf (parsed : jsval) : ProgressRecord :=
  {| discoveredIds := arrayOr (get parsed "discoveredIds");
     muted := truthy (get parsed "muted");
     volume := match get parsed "volume" with
               | Some (JNum x) => clamp01 x
               | _ => 1
               end;
     assignedPhrases :=
       if truthy (Some parsed) then
         match get parsed "assignedPhrases" with
         | Some (JArr items) => JArr items
         | Some (JObj fields) => JObj fields
         | _ => JObj []
         end
       else JObj [];
     unlockedOrder := arrayOr (get parsed "unlockedOrder");
     seenFinal := truthy (get parsed "seenFinal") |}.

(** [`${this.storageKey}__reset_once_2026_01`] *)
Definition resetOnceKey (storageKey : string) : string :=
  storageKey +:+ "__reset_once_2026_01".

(** The keys collected by the loop of lines 73-78. *)
Definition keysToRemove (marker : string) (ls : gmap string string) : list string :=
  filter (fun k => truthy_str k = true /\ k <> marker) (map_to_list ls).*1.

(** [for (const k of keysToRemove) localStorage.removeItem(k);] *)
Definition removeItems (ks : list string) (ls : gmap string string) : gmap string string :=
  fold_left (fun s k => delete k s) ks ls.

(** The once-per-release wipe, lines 64-82. [localStorage] is a finite map
    from keys to strings; [getItem] of a missing key is [null]. *)
Definition resetOnce (storageKey : string) (ls : gmap string string) : gmap string string :=
  let marker := resetOnceKey storageKey in
  match ls !! marker with
  | Some v =>
    if truthy_str v then ls
    else let ls1 := <[marker := "1"]> ls in removeItems (keysToRemove marker ls1) ls1
  | None => let ls1 := <[marker := "1"]> ls in removeItems (keysToRemove marker ls1) ls1
  end.

Section Load.
(** [JSON.parse], [None] when it throws. *)
Variable JSON_parse : string -> option jsval.

(** [load()], lines 62-100: the record returned and the storage afterwards. *)
Definition load (storageKey : string) (ls : gmap string string)
  : ProgressRecord * gmap string string :=
  let ls1 := resetOnce storageKey ls in
  match ls1 !! storageKey with
  | None => (defaultRecord, ls1)
  | Some raw =>
    if negb (truthy_str raw) then (defaultRecord, ls1)
    else
      match JSON_parse raw with
      | None => (defaultRecord, ls1)
      | Some JNull => (defaultRecord, ls1)
      | Some parsed => (recordOf parsed, ls1)
      end
  end.

End Load.

(** [save(state)], lines 102-108, [raw] being [JSON.stringify(state)]. *)
Definition save (storageKey raw : string) (ls : gmap string string) : gmap string string :=
  <[storageKey := raw]> ls.

End Storage.

(** ** The three mini-games (game.js, lines 568-905)

    Of each game the fields that decide when it completes; where the
    lights and butterflies are drawn is left out. *)

Module HoldMiniGame.
Import JS.
Local Open Scope float_scope.

(** [_orb] is modelled by whether it is set; [shown] is the progress last
    written to the style property [--p] of the orb. *)
Record HoldMiniGame := {
  _mounted : bool;
  _holding : bool;
  _holdStart : float;
  _requiredMs : float;
  _orb : bool;
  shown : float
}.

(** The constructor. *)
Definition init : HoldMiniGame :=
  {| _mounted := false; _holding := false; _holdStart := 0; _requiredMs := 2100;
     _orb := false; shown := 0 |}.

(** [mount(areaEl)] and [unmount()] *)
Definition mount (g : HoldMiniGame) : HoldMiniGame :=
  {| _mounted := true; _holding := false; _holdStart := 0; _requiredMs := _requiredMs g;
     _orb := true; shown := 0 |}.

Definition unmount (g : HoldMiniGame) : HoldMiniGame :=
  {| _mounted := false; _holding := _holding g; _holdStart := _holdStart g;
     _requiredMs := _requiredMs g; _orb := false; shown := shown g |}.

(** The listeners [down] (at time [now]) and [up] of the orb. *)
Definition down (now : float) (g : HoldMiniGame) : HoldMiniGame :=
  {| _mounted := _mounted g; _holding := true; _holdStart := now;
     _requiredMs := _requiredMs g; _orb := _orb g; shown := shown g |}.

Definition up (g : HoldMiniGame) : HoldMiniGame :=
  {| _mounted := _mounted g; _holding := false; _holdStart := _holdStart g;
     _requiredMs := _requiredMs g; _orb := _orb g; shown := shown g |}.

(** [update(t)]: the game afterwards and whether [onComplete] was called. *)
Definition update (t : float) (g : HoldMiniGame) : HoldMiniGame * bool :=
  if negb (_mounted g) || negb (_orb g) then (g, false)
  else
    let p := if _holding g then clamp01 ((t - _holdStart g) / _requiredMs g) else 0 in
    if _holding g && (1 <=? p) then (g, true)
    else ({| _mounted := _mounted g; _holding := _holding g; _holdStart := _holdStart g;
             _requiredMs := _requiredMs g; _orb := _orb g; shown := p |}, false).

(** The pointer events on the orb. *)
Inductive pointer := Down (now : float) | Up.

Definition handle (e : pointer) (g : HoldMiniGame) : HoldMiniGame :=
  match e with Down now => down now g | Up => up g end.

Definition run (es : list pointer) (g : HoldMiniGame) : HoldMiniGame :=
  fold_left (fun s e => handle e s) es g.

(** The time of the press that is still held after the events, if any. *)
Definition held_since (es : list pointer) : option float :=
  match last es with
  | Some (Down now) => Some now
  | _ => None
  end.

End HoldMiniGame.

Module SequenceMiniGame.
Import JS.
Local Open Scope float_scope.

(** [_order] holds the indices of the lights in the order of the pattern;
    [_flashUntil] maps an index to a time. *)
Record SequenceMiniGame := {
  _mounted : bool;
  _order : list nat;
  _progress : nat;
  _showing : bool;
  _phaseStart : float;
  _readyAt : float;
  _flashUntil : gmap nat float;
  _lastPressAt : float;
  hint : string
}.

Definition initialHint : string := "Toca las luces en el orden en que aparecen.".

(** The constructor, run at time [now]. *)
Definition init (now : float) : SequenceMiniGame :=
  {| _mounted := false; _order := []; _progress := 0; _showing := true;
     _phaseStart := now; _readyAt := 0; _flashUntil := ∅; _lastPressAt := 0;
     hint := initialHint |}.

(** [mount(areaEl)] at time [now]; [indices] is the shuffled choice of
    three of the four lights. *)
Definition mount (indices : list nat) (now : float) (g : SequenceMiniGame)
  : SequenceMiniGame :=
  {| _mounted := true; _order := indices; _progress := 0; _showing := true;
     _phaseStart := now + 1300; _readyAt := 0; _flashUntil := ∅; _lastPressAt := 0;
     hint := initialHint |}.

Definition unmount (g : SequenceMiniGame) : SequenceMiniGame :=
  {| _mounted := false; _order := _order g; _progress := _progress g;
     _showing := _showing g; _phaseStart := _phaseStart g; _readyAt := _readyAt g;
     _flashUntil := _flashUntil g; _lastPressAt := _lastPressAt g; hint := hint g |}.

(** The listener [onPress] of the light [idx], run at time [tNow]: [None]
    if the press is ignored, otherwise whether [onComplete] was called. *)
Definition onPress (idx : nat) (tNow : float) (g : SequenceMiniGame)
  : SequenceMiniGame * option bool :=
  if negb (_mounted g) then (g, None)
  else if _showing g then (g, None)
  else if tNow <? _readyAt g then (g, None)
  else if tNow - _lastPressAt g <? 240 then (g, None)
  else
    let flash := <[idx := tNow + 260]> (_flashUntil g) in
    if bool_decide (_order g !! _progress g = Some idx) then
      ({| _mounted := _mounted g; _order := _order g; _progress := S (_progress g);
          _showing := _showing g; _phaseStart := _phaseStart g; _readyAt := _readyAt g;
          _flashUntil := flash; _lastPressAt := tNow; hint := hint g |},
       Some (length (_order g) <=? S (_progress g))%nat)
    else
      ({| _mounted := _mounted g; _order := _order g; _progress := 0;
          _showing := _showing g; _phaseStart := _phaseStart g; _readyAt := _readyAt g;
          _flashUntil := flash; _lastPressAt := tNow; hint := hint g |},
       Some false).

(** [update(t)], as far as it changes the fields: the show of the pattern
    ends at the first update whose step [Math.floor(elapsed / 1600)] is
    not below the length of the pattern; for a whole number [n],
    [Math.floor(x) < n] holds exactly when [x < n]. *)
Definition update (t : float) (g : SequenceMiniGame) : SequenceMiniGame :=
  if negb (_mounted g) then g
  else if negb (_showing g) then g
  else if t <? _phaseStart g then g
  else if (t - _phaseStart g) / (980 + 620) <? of_nat (length (_order g)) then g
  else
    {| _mounted := _mounted g; _order := _order g; _progress := _progress g;
       _showing := false; _phaseStart := t; _readyAt := t + 1500;
       _flashUntil := ∅; _lastPressAt := _lastPressAt g;
       hint := "Ahora tú. Repite el patrón." |}.

(** What happens to a mounted game. *)
Inductive event := Press (idx : nat) (tNow : float) | Frame (t : float).

(** The game after the events, with the accepted presses in order, each
    with whether it completed the game. *)
Definition handle (e : event) (s : SequenceMiniGame * list (nat * bool))
  : SequenceMiniGame * list (nat * bool) :=
  match e with
  | Press idx tNow =>
    match onPress idx tNow (fst s) with
    | (g, None) => (g, snd s)
    | (g, Some done) => (g, snd s ++ [(idx, done)])
    end
  | Frame t => (update t (fst s), snd s)
  end.

Definition run (es : list event) (g : SequenceMiniGame)
  : SequenceMiniGame * list (nat * bool) :=
  fold_left (fun s e => handle e s) es (g, []).

(** The presses [idxs] at the times [ts], one after the other. *)
Fixpoint presses (idxs : list nat) (ts : list float) : list event :=
  match idxs, ts with
  | idx :: idxs', t :: ts' => Press idx t :: presses idxs' ts'
  | _, _ => []
  end.

(** Every time is at least 240 ms after the one before, the first after
    [prev]. *)
Fixpoint spaced (prev : float) (ts : list float) : Prop :=
  match ts with
  | [] => True
  | t :: ts' => (t - prev <? 240) = false /\ spaced t ts'
  end.

(** The progress made is the tail of the accepted presses, and a press
    that completed the game was the last of the pattern. *)
Definition matched (order : list nat) (s : SequenceMiniGame * list (nat * bool)) : Prop :=
  _order (fst s) = order /\
  take (_progress (fst s)) order `suffix_of` (snd s).*1 /\
  (forall k idx, snd s !! k = Some (idx, true) ->
                 order <> [] /\ order `suffix_of` take (S k) (snd s).*1).

End SequenceMiniGame.

Module CatchMiniGame.
Import JS.

(** Of a butterfly only [alive] is kept. *)
Record CatchMiniGame := {
  _mounted : bool;
  _butterflies : list bool;
  _caught : nat;
  _target : nat
}.

(** The constructor. *)
Definition init : CatchMiniGame :=
  {| _mounted := false; _butterflies := []; _caught := 0; _target := 3 |}.

(** [mount(areaEl)]: five butterflies, none caught. *)
Definition mount (g : CatchMiniGame) : CatchMiniGame :=
  {| _mounted := true; _butterflies := replicate 5 true; _caught := 0;
     _target := _target g |}.

Definition unmount (g : CatchMiniGame) : CatchMiniGame :=
  {| _mounted := false; _butterflies := _butterflies g; _caught := _caught g;
     _target := _target g |}.

(** The listener [onCatch] of the butterfly [i]: the game afterwards and
    whether [onComplete] was called. One tap can run it up to three times,
    as [pointerdown], [touchstart] and [click]. *)
Definition onCatch (i : nat) (g : CatchMiniGame) : CatchMiniGame * bool :=
  if negb (_mounted g) then (g, false)
  else
    match _butterflies g !! i with
    | Some true =>
      ({| _mounted := _mounted g; _butterflies := <[i := false]> (_butterflies g);
          _caught := S (_caught g); _target := _target g |},
       (_target g <=? S (_caught g))%nat)
    | _ => (g, false)
    end.

(** The game after the listeners ran for the butterflies [taps], with the
    answers in order. *)
Definition run (taps : list nat) (g : CatchMiniGame) : CatchMiniGame * list bool :=
  fold_left (fun s i => (fst (onCatch i (fst s)), snd s ++ [snd (onCatch i (fst s))]))
            taps (g, []).

(** The butterflies hit by the taps. *)
Definition hit (taps : list nat) : gset nat :=
  list_to_set (filter (fun i => (i < 5)%nat) taps).

(** The butterflies still alive are those not hit, and the count is the
    number of those hit. *)
Definition counted (hits : gset nat) (g : CatchMiniGame) : Prop :=
  _mounted g = true /\ _target g = 3 /\ length (_butterflies g) = 5 /\
  (forall i, i < 5 -> _butterflies g !! i = Some (bool_decide (i ∉ hits))) /\
  _caught g = size hits.

End CatchMiniGame.

(** ** A hold game in the manager (game.js, lines 512-566 and 568-647)

    The manager with a [HoldMiniGame] as its active descriptor, number 0:
    [MiniGameManager.update(t)] hands the frame to the game, whose
    [onComplete] is [_finish(true)], and [close()] unmounts the game. *)

Module HoldSession.
Import JS.
Local Open Scope float_scope.

Record session := {
  manager : MiniGames.world;
  game : HoldMiniGame.HoldMiniGame
}.

(** [close()] unmounts the active descriptor. *)
Definition closed_by (before after : MiniGames.world) (g : HoldMiniGame.HoldMiniGame)
  : HoldMiniGame.HoldMiniGame :=
  if MiniGames.isOpen before && negb (MiniGames.isOpen after)
  then HoldMiniGame.unmount g else g.

(** [miniGames.open(new HoldMiniGame())] at time [t] on a fresh manager. *)
Definition start (t : float) : session :=
  {| manager := fst (MiniGames.open 0%nat t MiniGames.init);
     game := HoldMiniGame.mount HoldMiniGame.init |}.

(** [MiniGameManager.update(t)], lines 562-565. *)
Definition update (t : float) (s : session) : session :=
  if negb (MiniGames.isOpen (manager s)) then s
  else
    let '(g, done) := HoldMiniGame.update t (game s) in
    if done then
      let w := MiniGames.onComplete 0%nat (manager s) in
      {| manager := w; game := closed_by (manager s) w g |}
    else {| manager := manager s; game := g |}.

(** What happens while the game is on the screen: the pointer events on
    the orb, the frames, and the clicks on the close button or the
    backdrop. *)
Inductive event :=
| Pointer (e : HoldMiniGame.pointer)
| Frame (t : float)
| Dismiss (t : float).

Definition handle (e : event) (s : session) : session :=
  match e with
  | Pointer p => {| manager := manager s; game := HoldMiniGame.handle p (game s) |}
  | Frame t => update t s
  | Dismiss t =>
    let w := MiniGames.cancel t (manager s) in
    {| manager := w; game := closed_by (manager s) w (game s) |}
  end.

Definition run (es : list event) (s : session) : session :=
  fold_left (fun s e => handle e s) es s.

(** The game is over: the manager is closed with nothing pending, the
    game is unmounted, and the promise was resolved as [answers] says. *)
Definition over (answers : list bool) (s : session) : Prop :=
  MiniGames.isOpen (manager s) = false /\
  MiniGames._resolve (MiniGames.mgr (manager s)) = None /\
  HoldMiniGame._mounted (game s) = false /\
  MiniGames.resolutions 0%nat (MiniGames.trace (manager s)) = answers.

End HoldSession.

(** ** DiarySystem (game.js, lines 383-478) *)

Module Diary.
Import JS.
Local Open Scope float_scope.

(** What [_render()] writes to the page: the page counter, the text, and
    whether the two paging buttons are disabled. *)
Record View := {
  meta : string;
  text : string;
  prevDisabled : bool;
  nextDisabled : bool
}.

(** The fields [_phrases], [_index] and [_open], and of the page: what was
    last rendered ([None] before the first [_render()]), whether the text
    carries the class [swapOut], and the start times of the [step] loops
    that [_swapToCurrent()] has scheduled and that have not ended. *)
Record DiarySystem := {
  _phrases : list string;
  _index : Z;
  _open : bool;
  page : option View;
  swapOut : bool;
  _swaps : list float
}.

(** The constructor. *)
Definition init : DiarySystem :=
  {| _phrases := []; _index := 0; _open := false; page := None; swapOut := false;
     _swaps := [] |}.

Definition emptyView : View :=
  {| meta := "Página 0 / 0";
     text := "Aún no has desbloqueado frases. Vuelve al mapa y toca un objeto.";
     prevDisabled := true; nextDisabled := true |}.

(** The page for index [i]; a text that is [undefined] shows as empty. *)
Definition viewAt (phrases : list string) (i : Z) : View :=
  let total := Z.of_nat (length phrases) in
  {| meta := "Página " +:+ pretty (i + 1)%Z +:+ " / " +:+ pretty total;
     text := if (i <? 0)%Z then EmptyString
             else default EmptyString (phrases !! Z.to_nat i);
     prevDisabled := (i <=? 0)%Z;
     nextDisabled := (total - 1 <=? i)%Z |}.

(** What [_render()] writes. *)
Definition view (d : DiarySystem) : View :=
  if (Z.of_nat (length (_phrases d)) <=? 0)%Z then emptyView
  else viewAt (_phrases d) (_index d).

(** [_render()] *)
Definition _render (d : DiarySystem) : DiarySystem :=
  {| _phrases := _phrases d; _index := _index d; _open := _open d;
     page := Some (view d); swapOut := swapOut d; _swaps := _swaps d |}.

(** [setPhrases(phrases)], called with an array. *)
Definition setPhrases (phrases : list string) (d : DiarySystem) : DiarySystem :=
  let len := Z.of_nat (length phrases) in
  _render
    {| _phrases := phrases;
       _index := if (len <=? _index d)%Z then Z.max 0 (len - 1) else _index d;
       _open := _open d; page := page d; swapOut := swapOut d; _swaps := _swaps d |}.

(** [open()], [close()] and [isOpen()] *)
Definition open (d : DiarySystem) : DiarySystem :=
  _render
    {| _phrases := _phrases d; _index := _index d; _open := true;
       page := page d; swapOut := swapOut d; _swaps := _swaps d |}.

Definition close (d : DiarySystem) : DiarySystem :=
  {| _phrases := _phrases d; _index := _index d; _open := false;
     page := page d; swapOut := swapOut d; _swaps := _swaps d |}.

Definition isOpen (d : DiarySystem) : bool := _open d.

(** [_swapToCurrent()] at time [now]: the text fades out and a [step] loop
    is scheduled. *)
Definition _swapToCurrent (now : float) (d : DiarySystem) : DiarySystem :=
  {| _phrases := _phrases d; _index := _index d; _open := _open d;
     page := page d; swapOut := true; _swaps := _swaps d ++ [now] |}.

(** [prev()] and [next()], called at time [now]. *)
Definition prev (now : float) (d : DiarySystem) : DiarySystem :=
  if (Z.of_nat (length (_phrases d)) <=? 0)%Z then d
  else
    _swapToCurrent now
      {| _phrases := _phrases d; _index := Z.max 0 (_index d - 1); _open := _open d;
         page := page d; swapOut := swapOut d; _swaps := _swaps d |}.

Definition next (now : float) (d : DiarySystem) : DiarySystem :=
  if (Z.of_nat (length (_phrases d)) <=? 0)%Z then d
  else
    _swapToCurrent now
      {| _phrases := _phrases d;
         _index := Z.min (Z.of_nat (length (_phrases d)) - 1) (_index d + 1);
         _open := _open d;
         page := page d; swapOut := swapOut d; _swaps := _swaps d |}.

(** One run of the callback [step] of the [j]-th pending loop, reading the
    clock at [now]: after 260 ms the text fades back in and the page is
    rendered; before, the callback is scheduled again. *)
Definition step (j : nat) (now : float) (d : DiarySystem) : DiarySystem :=
  match _swaps d !! j with
  | None => d
  | Some start =>
    if 260 <=? now - start then
      _render
        {| _phrases := _phrases d; _index := _index d; _open := _open d;
           page := page d; swapOut := false; _swaps := delete j (_swaps d) |}
    else d
  end.

(** What can happen to the diary. *)
Inductive event :=
| SetPhrases (phrases : list string)
| Open
| Close
| Prev (now : float)
| Next (now : float)
| Step (j : nat) (now : float).

Definition handle (e : event) (d : DiarySystem) : DiarySystem :=
  match e with
  | SetPhrases phrases => setPhrases phrases d
  | Open => open d
  | Close => close d
  | Prev now => prev now d
  | Next now => next now d
  | Step j now => step j now d
  end.

Definition run (es : list event) (d : DiarySystem) : DiarySystem :=
  fold_left (fun s e => handle e s) es d.

(** The index points into the phrases, or is 0 when there are none. *)
Definition index_ok (d : DiarySystem) : Prop :=
  (0 <= _index d)%Z /\
  (_index d < Z.of_nat (length (_phrases d)) \/ (_phrases d = [] /\ _index d = 0))%Z.

(** What is on the page was rendered from the present phrases. *)
Definition page_ok (d : DiarySystem) : Prop :=
  forall v, page d = Some v ->
    (_phrases d = [] /\ v = emptyView) \/
    (exists i p, _phrases d !! i = Some p /\ v = viewAt (_phrases d) (Z.of_nat i) /\
                 text v = p).

(** With no swap in flight the page shows the current phrase. *)
Definition in_sync (d : DiarySystem) : Prop :=
  _swaps d = [] -> swapOut d = false /\ (page d = None \/ page d = Some (view d)).

(** The three together, and the text is faded out only while a swap is in
    flight. *)
Definition good (d : DiarySystem) : Prop :=
  index_ok d /\ page_ok d /\ in_sync d /\ (swapOut d = true -> _swaps d <> []).

End Diary.

(** ** The finale timeline (game.js, lines 2002-2018 and 2065-2078) *)

Module Timeline.
Import JS.
Local Open Scope float_scope.

(** [_finalTimeline]; a node is modelled by whether it carries the class
    [on], that is, whether the paragraph is visible. *)
Record Timeline := {
  start : float;
  revealed : nat;
  baseDelay : float;
  stepDelay : float;
  nodes : list bool
}.

(** [getFinalMessageParagraphs()]; [_setupFinalText()] makes one paragraph
    element of each, none of them visible. *)
Definition getFinalMessageParagraphs : list string :=
  [ "Siempre hay algo que se siente diferente, incluso en los días más comunes.";
    "Hay noches que no quiero que se terminen solo porque estás ahí.";
    "No todo necesita explicación; algunas sensaciones se entienden sin palabras.";
    "Hay algo tuyo que me da fuerza cuando siento que no puedo más.";
    "Gracias por estar en lugares donde no caben las palabras, solo el silencio y la presencia.";
    "Al final, lo más importante es sentir que ciertos momentos valen la pena, y tú eres uno de ellos." ].

(** [_startFinalTimeline()], run at time [now] over [n] fresh paragraphs. *)
Definition _startFinalTimeline (reducedMotion : bool) (n : nat) (now : float) : Timeline :=
  {| start := now; revealed := O;
     baseDelay := if reducedMotion then 500 else 900;
     stepDelay := if reducedMotion then 900 else 2100;
     nodes := replicate n false |}.

(** [tl.baseDelay + nextIndex * tl.stepDelay] *)
Definition due (tl : Timeline) (index : nat) : float :=
  baseDelay tl + of_nat index * stepDelay tl.

(** [_updateFinalTimeline(t)] *)
Definition _updateFinalTimeline (t : float) (tl : Timeline) : Timeline :=
  let elapsed := t - start tl in
  let nextIndex := revealed tl in
  if (length (nodes tl) <=? nextIndex)%nat then tl
  else if due tl nextIndex <=? elapsed then
    {| start := start tl; revealed := S (revealed tl);
       baseDelay := baseDelay tl; stepDelay := stepDelay tl;
       nodes := <[nextIndex := true]> (nodes tl) |}
  else tl.

(** The timeline after the ticks at the given times. *)
Definition run (ts : list float) (tl : Timeline) : Timeline :=
  fold_left (fun s t => _updateFinalTimeline t s) ts tl.

(** The visible nodes are exactly the first [revealed] ones. *)
Definition prefix_visible (tl : Timeline) : Prop :=
  (revealed tl <= length (nodes tl))%nat /\
  forall i, (i < length (nodes tl))%nat ->
            nodes tl !! i = Some (bool_decide (i < revealed tl)%nat).

End Timeline.

(** ** App: game state, objects, restore and interaction
    (game.js, lines 1115-1203, 1256-1402, 1778-1952 and 2085-2134) *)

Module App.
Import JS.
Local Open Scope float_scope.

(** [@typedef {"intro" | "world" | "final"} SceneName] *)
Inductive SceneName := Intro | World | Final.

(** [GameState]; the set [discovered] keeps its elements in insertion order. *)
Record GameState := {
  totalMemories : nat;
  discovered : list string;
  scene : SceneName;
  audioMuted : bool;
  audioUnlocked : bool
}.

(** [this.discovered.add(id)] *)
Definition add (x : string) (s : list string) : list string :=
  if bool_decide (x ∈ s) then s else s ++ [x].

(** [isComplete()] *)
Definition isComplete (g : GameState) : bool :=
  (totalMemories g <=? length (discovered g))%nat.

(** [InteractiveObject]: its id, idle seed, [discovered] flag and
    [_clickAnim = { active, t0 }]. *)
Record InteractiveObject := {
  id : string;
  idleSeed : float;
  isDiscovered : bool;
  _clickAnim : bool * float
}.

(** [setDiscovered(value)] and [playInteractAnim()] at time [now]. *)
Definition setDiscovered (v : bool) (o : InteractiveObject) : InteractiveObject :=
  {| id := id o; idleSeed := idleSeed o; isDiscovered := v; _clickAnim := _clickAnim o |}.

Definition playInteractAnim (now : float) (o : InteractiveObject) : InteractiveObject :=
  {| id := id o; idleSeed := idleSeed o; isDiscovered := isDiscovered o;
     _clickAnim := (true, now) |}.

(** [MessageSystem]: the phase of the message box and what it shows. *)
Inductive phase := Idle | FadeIn | Hold | FadeOut.

Record MessageSystem := {
  _phase : phase;
  _t0 : float;
  _durHold : float;
  _current : string
}.

Definition noMessage : MessageSystem :=
  {| _phase := Idle; _t0 := 0; _durHold := 2400; _current := EmptyString |}.

(** [show(text, { holdMs })] at time [now]. *)
Definition show (text : string) (holdMs now : float) : MessageSystem :=
  {| _phase := FadeIn; _t0 := now; _durHold := holdMs; _current := text |}.

(** The message for an object tapped again, held for 1500 ms where a newly
    unlocked phrase is held for 2800 ms. *)
Definition alreadyTouched : string := "Ya lo tocaste antes. No hace falta repetirlo.".

(** The three kinds of mini-game and the choice of [_runMiniGameFor]. *)
Inductive kind := Catch | HoldGame | Sequence.

Definition kindFor (objectId : string) : kind :=
  if String.eqb objectId "butterfly" || String.eqb objectId "star" then Catch
  else if String.eqb objectId "letter" || String.eqb objectId "light" then HoldGame
  else Sequence.

(** [getMemories()]: ids and idle seeds. *)
Definition getMemories : list (string * float) :=
  [ ("flower", 0.7); ("star", 1.8); ("letter", 2.6); ("light", 3.1);
    ("butterfly", 4.2); ("moon", 5.3); ("ribbon", 6.2); ("spark", 7.1);
    ("seal", 8.0) ].

(** The fields of [App] that the restore and interaction logic reads and
    writes. [shown] is the screen [SceneManager.show] left visible;
    [completeHidden] says whether the completion prompt carries the class
    [hidden]; [waiting] lists the suspended calls of [_handleInteract],
    each with the promise it awaits and the index of its object; the
    read-outs written to the page are left out. *)
Record App := {
  state : GameState;
  assignedPhrases : gmap string string;
  unlockedOrder : list string;
  seenFinal : bool;
  shown : SceneName;
  darkness : bool;
  messages : MessageSystem;
  audio : Audio.AudioManager;
  diaryOpen : bool;
  miniGames : MiniGames.world;
  completeHidden : bool;
  objects : list InteractiveObject;
  _finalTimeline : option Timeline.Timeline;
  localStorage : gmap string string;
  waiting : list (MiniGames.promise * nat)
}.

(** [new App()] uses the key ["beautiful_emotional_game_v1"]. *)
Definition storageKey : string := "beautiful_emotional_game_v1".

(** What the constructor finds on the page: which object elements exist,
    whether each audio element is paused, and whether the completion
    prompt carries the class [hidden]. *)
Record Page := {
  hasEl : string -> bool;
  ambientPaused : bool;
  finalPaused : bool;
  completionHidden : bool
}.

(** [_initObjects()]: one object per memory whose element is on the page. *)
Definition _initObjects (hasEl : string -> bool) : list InteractiveObject :=
  (fun m => {| id := fst m; idleSeed := snd m; isDiscovered := false;
               _clickAnim := (false, 0) |})
    <$> filter (fun m => hasEl (fst m) = true) getMemories.

(** [Object.entries(v)] of a parsed object or array. *)
Definition entries (v : Storage.jsval) : list (string * Storage.jsval) :=
  match v with
  | Storage.JObj fields => fields
  | Storage.JArr items => imap (fun i x => (pretty i, x)) items
  | _ => []
  end.

(** The loop of lines 1892-1894 over the saved assignments. *)
Definition restorePhrases (es : list (string * Storage.jsval)) (m : gmap string string)
  : gmap string string :=
  fold_left (fun s e => match snd e with
                        | Storage.JStr phrase => <[fst e := phrase]> s
                        | _ => s
                        end) es m.

(** The loop of lines 1908-1910: every discovered id gets a phrase if it
    has none; [draw k] is the draw of the [k]-th call. *)
Fixpoint assignAll (draw : nat -> nat) (k : nat) (ids : list string) (m : gmap string string)
  : gmap string string :=
  match ids with
  | [] => m
  | i :: rest => assignAll draw (S k) rest (snd (Phrases._getOrAssignPhrase i (draw k) m))
  end.

Section Restore.
(** [JSON.parse] and the conversion [String(v)], each [None] when it
    throws: [String] raises a TypeError on an object without a usable
    [toString], such as the parsed [{"toString": 1}]. *)
Variable JSON_parse : string -> option Storage.jsval.
Variable String_of : Storage.jsval -> option string.

(** [saved.unlockedOrder.map((v) => String(v))], line 1898; [None] when a
    conversion throws. *)
Definition stringAll (vs : list Storage.jsval) : option (list string) :=
  mapM String_of vs.

(** The loop of lines 1903-1905 over the saved ids. When a conversion
    throws, the ids added before it stay in the set. *)
Fixpoint addAll (vs : list Storage.jsval) (s : list string) : list string * Audio.outcome :=
  match vs with
  | [] => (s, Audio.Returned)
  | v :: rest =>
    match String_of v with
    | None => (s, Audio.Threw)
    | Some x => addAll rest (add x s)
    end
  end.

(** [_restore()], lines 1880-1924. The call of [setMasterVolume] and the
    conversions [String(v)] are the steps that can throw; the fields
    written before the throw are kept. *)
Definition _restore (draw : nat -> nat) (a : App) : App * Audio.outcome :=
  let '(saved, ls1) := Storage.load JSON_parse storageKey (localStorage a) in
  let audio1 := Audio.setMuted (Storage.muted saved) (audio a) in
  let '(audio2, o) := Audio.setMasterVolume (Storage.volume saved) audio1 in
  let state1 :=
    {| totalMemories := totalMemories (state a); discovered := discovered (state a);
       scene := scene (state a); audioMuted := Storage.muted saved;
       audioUnlocked := audioUnlocked (state a) |} in
  match o with
  | Audio.Threw =>
    ({| state := state1; assignedPhrases := assignedPhrases a;
        unlockedOrder := unlockedOrder a; seenFinal := seenFinal a; shown := shown a;
        darkness := darkness a; messages := messages a; audio := audio2;
        diaryOpen := diaryOpen a; miniGames := miniGames a;
        completeHidden := completeHidden a; objects := objects a;
        _finalTimeline := _finalTimeline a; localStorage := ls1;
        waiting := waiting a |}, Audio.Threw)
  | Audio.Returned =>
    let phrases1 :=
      restorePhrases (entries (Storage.assignedPhrases saved)) (assignedPhrases a) in
    match stringAll (Storage.unlockedOrder saved) with
    | None =>
      ({| state := state1; assignedPhrases := phrases1;
          unlockedOrder := unlockedOrder a; seenFinal := seenFinal a; shown := shown a;
          darkness := darkness a; messages := messages a; audio := audio2;
          diaryOpen := diaryOpen a; miniGames := miniGames a;
          completeHidden := completeHidden a; objects := objects a;
          _finalTimeline := _finalTimeline a; localStorage := ls1;
          waiting := waiting a |}, Audio.Threw)
    | Some order1 =>
      let '(discovered1, o1) :=
        addAll (Storage.discoveredIds saved) (discovered (state a)) in
      let state2 :=
        {| totalMemories := totalMemories (state a); discovered := discovered1;
           scene := scene (state a); audioMuted := Storage.muted saved;
           audioUnlocked := audioUnlocked (state a) |} in
      match o1 with
      | Audio.Threw =>
        ({| state := state2; assignedPhrases := phrases1; unlockedOrder := order1;
            seenFinal := Storage.seenFinal saved; shown := shown a;
            darkness := darkness a; messages := messages a; audio := audio2;
            diaryOpen := diaryOpen a; miniGames := miniGames a;
            completeHidden := completeHidden a; objects := objects a;
            _finalTimeline := _finalTimeline a; localStorage := ls1;
            waiting := waiting a |}, Audio.Threw)
      | Audio.Returned =>
        let phrases2 := assignAll draw O discovered1 phrases1 in
        let objects1 :=
          (fun o => setDiscovered (bool_decide (id o ∈ discovered1)) o) <$> objects a in
        let order2 :=
          match order1, discovered1 with
          | [], _ :: _ => id <$> filter (fun o => id o ∈ discovered1) objects1
          | _, _ => order1
          end in
        ({| state := state2; assignedPhrases := phrases2; unlockedOrder := order2;
            seenFinal := Storage.seenFinal saved; shown := shown a;
            darkness := darkness a; messages := messages a; audio := audio2;
            diaryOpen := diaryOpen a; miniGames := miniGames a;
            completeHidden := completeHidden a; objects := objects1;
            _finalTimeline := _finalTimeline a; localStorage := ls1;
            waiting := waiting a |}, Audio.Returned)
      end
    end
  end.

(** The fields as the constructor sets them before [_restore()]:
    [new GameState(9)], empty ledgers, fresh managers. *)
Definition fresh (page : Page) (ls : gmap string string) : App :=
  {| state := {| totalMemories := 9; discovered := []; scene := Intro;
                 audioMuted := false; audioUnlocked := false |};
     assignedPhrases := ∅; unlockedOrder := []; seenFinal := false;
     shown := Intro; darkness := false; messages := noMessage;
     audio := Audio.constructor (ambientPaused page) (finalPaused page);
     diaryOpen := false; miniGames := MiniGames.init;
     completeHidden := completionHidden page;
     objects := _initObjects (hasEl page); _finalTimeline := None;
     localStorage := ls; waiting := [] |}.

(** [new App()], lines 1257-1402: [_initObjects()], [_restore()], then the
    scene is set to the intro. [None] if [_restore()] throws: the
    exception leaves the constructor and no [App] comes to be. *)
Definition constructor (page : Page) (draw : nat -> nat) (ls : gmap string string)
  : option App :=
  match _restore draw (fresh page ls) with
  | (_, Audio.Threw) => None
  | (a, Audio.Returned) =>
    Some {| state := {| totalMemories := totalMemories (state a);
                        discovered := discovered (state a); scene := Intro;
                        audioMuted := audioMuted (state a);
                        audioUnlocked := audioUnlocked (state a) |};
            assignedPhrases := assignedPhrases a; unlockedOrder := unlockedOrder a;
            seenFinal := seenFinal a; shown := Intro; darkness := false;
            messages := messages a; audio := audio a; diaryOpen := diaryOpen a;
            miniGames := miniGames a; completeHidden := completeHidden a;
            objects := objects a; _finalTimeline := _finalTimeline a;
            localStorage := localStorage a; waiting := waiting a |}
  end.

End Restore.

(** The object [_persist()] hands to [JSON.stringify]. *)
Record Saved := {
  savedDiscoveredIds : list string;
  savedMuted : bool;
  savedVolume : float;
  savedAssignedPhrases : gmap string string;
  savedUnlockedOrder : list string;
  savedSeenFinal : bool
}.

Section Persist.
Variable JSON_stringify : Saved -> string.

(** [_persist()], lines 1864-1878. *)
Definition _persist (a : App) : gmap string string :=
  Storage.save storageKey
    (JSON_stringify
       {| savedDiscoveredIds := discovered (state a);
          savedMuted := audioMuted (state a);
          savedVolume := Audio.masterVolume (audio a);
          savedAssignedPhrases := assignedPhrases a;
          savedUnlockedOrder := unlockedOrder a;
          savedSeenFinal := seenFinal a |})
    (localStorage a).

(** The rest of [_handleInteract(obj)], lines 1809-1831, run at time [now]
    when the awaited promise has resolved to [ok]; [draw] is the draw of
    the phrase assignment. The chime and the vibration leave no trace in
    these fields. *)
Definition afterMiniGame (i : nat) (ok : bool) (draw : nat) (now : float) (a : App) : App :=
  match objects a !! i with
  | None => a
  | Some obj =>
    if negb ok then a
    else
      let objects1 := <[i := setDiscovered true obj]> (objects a) in
      let state1 :=
        {| totalMemories := totalMemories (state a);
           discovered := add (id obj) (discovered (state a));
           scene := scene (state a); audioMuted := audioMuted (state a);
           audioUnlocked := audioUnlocked (state a) |} in
      let '(phrase, phrases1) :=
        Phrases._getOrAssignPhrase (id obj) draw (assignedPhrases a) in
      let order1 :=
        if bool_decide (id obj ∈ unlockedOrder a) then unlockedOrder a
        else unlockedOrder a ++ [id obj] in
      let a1 :=
        {| state := state1; assignedPhrases := phrases1; unlockedOrder := order1;
           seenFinal := seenFinal a; shown := shown a; darkness := darkness a;
           messages := messages a; audio := audio a; diaryOpen := diaryOpen a;
           miniGames := miniGames a; completeHidden := completeHidden a;
           objects := objects1; _finalTimeline := _finalTimeline a;
           localStorage := localStorage a; waiting := waiting a |} in
      {| state := state1; assignedPhrases := phrases1; unlockedOrder := order1;
         seenFinal := seenFinal a; shown := shown a; darkness := darkness a;
         messages := show phrase 2800 now; audio := audio a;
         diaryOpen := diaryOpen a; miniGames := miniGames a;
         completeHidden := if isComplete state1 then false else completeHidden a;
         objects := objects1; _finalTimeline := _finalTimeline a;
         localStorage := _persist a1; waiting := waiting a |}
  end.

End Persist.

(** [_handleInteract(obj)] up to its first suspension, for the object at
    index [i] tapped at time [now]. For an undiscovered object it opens a
    mini-game on a new descriptor and waits for the promise. *)
Definition _handleInteract (i : nat) (now : float) (a : App) : App :=
  match objects a !! i with
  | None => a
  | Some obj =>
    match scene (state a) with
    | World =>
      if isComplete (state a) then a
      else if diaryOpen a || MiniGames.isOpen (miniGames a) then a
      else if negb (completeHidden a) then a
      else
        let objects1 := <[i := playInteractAnim now obj]> (objects a) in
        if negb (isDiscovered obj) then
          let game := MiniGames.nextPromise (miniGames a) in
          let '(w, p) := MiniGames.open game now (miniGames a) in
          {| state := state a; assignedPhrases := assignedPhrases a;
             unlockedOrder := unlockedOrder a; seenFinal := seenFinal a;
             shown := shown a; darkness := darkness a; messages := messages a;
             audio := audio a; diaryOpen := diaryOpen a; miniGames := w;
             completeHidden := completeHidden a; objects := objects1;
             _finalTimeline := _finalTimeline a; localStorage := localStorage a;
             waiting := (p, i) :: waiting a |}
        else
          {| state := state a; assignedPhrases := assignedPhrases a;
             unlockedOrder := unlockedOrder a; seenFinal := seenFinal a;
             shown := shown a; darkness := darkness a;
             messages := show alreadyTouched 1500 now;
             audio := audio a; diaryOpen := diaryOpen a; miniGames := miniGames a;
             completeHidden := completeHidden a; objects := objects1;
             _finalTimeline := _finalTimeline a; localStorage := localStorage a;
             waiting := waiting a |}
    | _ => a
    end
  end.

(** [String()] as the examples use it, the text of every number being
    ["0"]. *)
Definition str : Storage.jsval -> option string := Storage.ToString (fun _ => "0").

(** A page with all nine objects, and the world scene of a game in which
    every object has been discovered, with no overlay open. *)
Definition fullPage : Page :=
  {| hasEl := fun _ => true; ambientPaused := true; finalPaused := true;
     completionHidden := true |}.

Definition completedWorld : App :=
  {| state := {| totalMemories := 9; discovered := fst <$> getMemories; scene := World;
                 audioMuted := false; audioUnlocked := true |};
     assignedPhrases := ∅; unlockedOrder := fst <$> getMemories; seenFinal := false;
     shown := World; darkness := false; messages := noMessage;
     audio := Audio.unlocked; diaryOpen := false; miniGames := MiniGames.init;
     completeHidden := true;
     objects := setDiscovered true <$> _initObjects (hasEl fullPage);
     _finalTimeline := None; localStorage := ∅; waiting := [] |}.

(** The world scene with only the star discovered. *)
Definition starFound : App :=
  {| state := {| totalMemories := 9; discovered := ["star"]; scene := World;
                 audioMuted := false; audioUnlocked := true |};
     assignedPhrases := {[ "star" := "No todo tiene que ser especial para ser importante." ]};
     unlockedOrder := ["star"]; seenFinal := false;
     shown := World; darkness := false; messages := noMessage;
     audio := Audio.unlocked; diaryOpen := false; miniGames := MiniGames.init;
     completeHidden := true;
     objects := (fun o => setDiscovered (String.eqb (id o) "star") o)
                  <$> _initObjects (hasEl fullPage);
     _finalTimeline := None; localStorage := ∅; waiting := [] |}.

(** The object [_persist()] builds from the fields of the game. *)
Definition snapshot (a : App) : Saved :=
  {| savedDiscoveredIds := discovered (state a);
     savedMuted := audioMuted (state a);
     savedVolume := Audio.masterVolume (audio a);
     savedAssignedPhrases := assignedPhrases a;
     savedUnlockedOrder := unlockedOrder a;
     savedSeenFinal := seenFinal a |}.



(** [_updateDiaryUi()], lines 1954-1961: the phrases handed to the diary,
    those of the unlocked ids in the order of unlocking. *)
Definition _updateDiaryUi (a : App) : list string :=
  omap (fun i => match assignedPhrases a !! i with
                 | Some p => if truthy_str p then Some p else None
                 | None => None
                 end) (unlockedOrder a).

(** What happens in the world scene: a tap on the object at index [i], and
    the continuation of a tap whose mini-game promise has resolved. *)
Inductive event :=
| Tap (i : nat) (now : float)
| Settled (i : nat) (ok : bool) (draw : nat) (now : float).

Section Events.
Variable JSON_stringify : Saved -> string.

Definition step (e : event) (a : App) : App :=
  match e with
  | Tap i now => _handleInteract i now a
  | Settled i ok draw now => afterMiniGame JSON_stringify i ok draw now a
  end.

Definition run (es : list event) (a : App) : App :=
  fold_left (fun s e => step e s) es a.

End Events.

(** The progress hangs together: the set of discovered ids and the ids of
    the objects have no repetition, an object carries the discovered flag
    exactly when its id is in the set, and every discovered id holds a
    non-empty phrase. *)
Definition consistent (a : App) : Prop :=
  NoDup (discovered (state a)) /\
  NoDup (id <$> objects a) /\
  (forall o, o ∈ objects a -> (isDiscovered o = true <-> id o ∈ discovered (state a))) /\
  (forall i, i ∈ discovered (state a) ->
             exists p, assignedPhrases a !! i = Some p /\ truthy_str p = true).

End App.

(** ** MessageSystem.update (game.js, lines 938-972) *)

Module Messages.
Import JS App.
Local Open Scope float_scope.

(** [_durIn] and [_durOut], which are never changed. *)
Definition _durIn : float := 520.
Definition _durOut : float := 900.

Definition set_phase (p : phase) (t0 : float) (m : MessageSystem) : MessageSystem :=
  {| _phase := p; _t0 := t0; _durHold := _durHold m; _current := _current m |}.

(** [update()]: the clock is read at [now1] and, when the phase changes,
    again at [now2].  The result is the message system afterwards and the
    opacity and the offset last handed to [_applyVisual], if any. *)
Definition update (now1 now2 : float) (m : MessageSystem)
  : MessageSystem * option (float * float) :=
  let t := now1 - _t0 m in
  match _phase m with
  | Idle => (m, None)
  | FadeIn =>
    let p := clamp01 (t / _durIn) in
    let e := easeInOut p in
    (if 1 <=? p then set_phase Hold now2 m else m, Some (e, lerp 10 0 e))
  | Hold =>
    (if _durHold m <=? t then set_phase FadeOut now2 m else m, Some (1, 0))
  | FadeOut =>
    let p := clamp01 (t / _durOut) in
    let e := easeInOut p in
    if 1 <=? p then (set_phase Idle (_t0 m) m, Some (0, 10))
    else (m, Some (lerp 1 0 e, lerp 0 10 e))
  end.

(** The message system after the frames, each with its two clock
    readings. *)
Definition frames (fs : list (float * float)) (m : MessageSystem) : MessageSystem :=
  fold_left (fun s f => fst (update (fst f) (snd f) s)) fs m.

(** None of the frames comes late enough to end the phase begun at [t0]. *)
Definition before_full (dur t0 : float) (fs : list (float * float)) : Prop :=
  Forall (fun f => (1 <=? (fst f - t0) / dur) = false) fs.

Definition before_held (hold t0 : float) (fs : list (float * float)) : Prop :=
  Forall (fun f => (hold <=? fst f - t0) = false) fs.

End Messages.

(** ** The mute button (game.js, lines 1406-1415 and 1447-1477) *)

Module Mute.
Import JS App.
Local Open Scope float_scope.

Definition set_audio (am : Audio.AudioManager) (a : App) : App :=
  {| state := state a; assignedPhrases := assignedPhrases a;
     unlockedOrder := unlockedOrder a; seenFinal := seenFinal a; shown := shown a;
     darkness := darkness a; messages := messages a; audio := am;
     diaryOpen := diaryOpen a; miniGames := miniGames a;
     completeHidden := completeHidden a; objects := objects a;
     _finalTimeline := _finalTimeline a; localStorage := localStorage a;
     waiting := waiting a |}.

Definition set_flags (isMuted unlocked : bool) (a : App) : App :=
  {| state := {| totalMemories := totalMemories (state a);
                 discovered := discovered (state a); scene := scene (state a);
                 audioMuted := isMuted; audioUnlocked := unlocked |};
     assignedPhrases := assignedPhrases a;
     unlockedOrder := unlockedOrder a; seenFinal := seenFinal a; shown := shown a;
     darkness := darkness a; messages := messages a; audio := audio a;
     diaryOpen := diaryOpen a; miniGames := miniGames a;
     completeHidden := completeHidden a; objects := objects a;
     _finalTimeline := _finalTimeline a; localStorage := localStorage a;
     waiting := waiting a |}.

Definition set_storage (ls : gmap string string) (a : App) : App :=
  {| state := state a; assignedPhrases := assignedPhrases a;
     unlockedOrder := unlockedOrder a; seenFinal := seenFinal a; shown := shown a;
     darkness := darkness a; messages := messages a; audio := audio a;
     diaryOpen := diaryOpen a; miniGames := miniGames a;
     completeHidden := completeHidden a; objects := objects a;
     _finalTimeline := _finalTimeline a; localStorage := ls;
     waiting := waiting a |}.

(** The closure [unlock] of [_wire()], run at time [now] with nothing else
    running while it is suspended: [audioUnlocked = !!ok]. *)
Definition unlock (allowed : bool) (now : float) (a : App) : App :=
  let r :=
    match scene (state a) with
    | Final => Audio.unlockAndStartFinal allowed now (audio a)
    | _ => Audio.unlockAndStartAmbient allowed now (audio a)
    end in
  set_flags (audioMuted (state a))
            (match snd r with Audio.Yes => true | _ => false end)
            (set_audio (fst r) a).

Section Toggle.
Variable JSON_stringify : Saved -> string.

(** The closure [toggleMute] of [_wire()], with nothing else running while
    it is suspended.  [allowed0] and [now0] belong to the unlock it may
    begin with; [allowed] says whether the host lets the element play when
    the sound comes back, at the times [now1] and [now2]. *)
Definition toggleMute (allowed0 : bool) (now0 : float) (allowed : bool) (now1 now2 : float)
  (a : App) : App :=
  let a1 := if audioUnlocked (state a) then a else unlock allowed0 now0 a in
  let isMuted := negb (audioMuted (state a1)) in
  let a2 := set_audio (Audio.setMuted isMuted (audio a1))
              (set_flags isMuted (audioUnlocked (state a1)) a1) in
  let a3 := set_storage (_persist JSON_stringify a2) a2 in
  if isMuted then a3
  else
    match scene (state a3) with
    | Final =>
      if negb (Audio.enabled (audio a3))
      then set_audio (fst (Audio.unlockAndStartFinal allowed now1 (audio a3))) a3
      else set_audio (Audio.switchToFinal allowed now1 now2 (audio a3)) a3
    | _ =>
      if negb (Audio.enabled (audio a3))
      then set_audio (fst (Audio.unlockAndStartAmbient allowed now1 (audio a3))) a3
      else set_audio (Audio.set_el Audio.Ambient
                        (Audio.play allowed (Audio.ambient (audio a3))) (audio a3)) a3
    end.

End Toggle.

End Mute.

(* ===================================================================== *)
(** * Part II: properties                                                 *)
(* ===================================================================== *)

(** ** Binary64 facts used by the fade engine *)

Module FloatFacts.
Import JS.
Local Open Scope float_scope.

Lemma SFeqb_refl_finite s m e : SFeqb (S754_finite s m e) (S754_finite s m e) = true.
Proof.
  unfold SFeqb, SFcompare.
  destruct s; rewrite Z.compare_refl, Pos.compare_cont_refl; reflexivity.
Qed.

Lemma is_nan_spec x : is_nan x = match Prim2SF x with S754_nan => true | _ => false end.
Proof.
  unfold is_nan. rewrite FloatAxioms.eqb_spec.
  destruct (Prim2SF x) as [s|s| |s m e]; try (destruct s; reflexivity); try reflexivity.
  rewrite SFeqb_refl_finite. reflexivity.
Qed.

Lemma is_finite_shape x : is_finite x = true -> finite_shape (Prim2SF x).
Proof.
  unfold is_finite, is_infinity. rewrite is_nan_spec, FloatAxioms.eqb_spec, abs_spec.
  change (Prim2SF infinity) with (S754_infinity false).
  destruct (Prim2SF x) as [s|s| |s m e]; simpl; intros H; try exact I; discriminate.
Qed.

Lemma pos_shape x :
  (0 <? x) = true ->
  match Prim2SF x with
  | S754_finite false _ _ | S754_infinity false => True
  | _ => False
  end.
Proof.
  rewrite ltb_spec. change (Prim2SF 0) with (S754_zero false).
  destruct (Prim2SF x) as [s|s| |s m e]; try destruct s; simpl; intros H;
    try exact I; discriminate.
Qed.

Lemma neg_shape x :
  (x <? 0) = true ->
  match Prim2SF x with
  | S754_finite true _ _ | S754_infinity true => True
  | _ => False
  end.
Proof.
  rewrite ltb_spec. change (Prim2SF 0) with (S754_zero false).
  destruct (Prim2SF x) as [s|s| |s m e]; try destruct s; simpl; intros H;
    try exact I; discriminate.
Qed.

Lemma nonneg_shape x :
  (0 <=? x) = true ->
  match Prim2SF x with
  | S754_zero _ | S754_finite false _ _ | S754_infinity false => True
  | _ => False
  end.
Proof.
  rewrite leb_spec. change (Prim2SF 0) with (S754_zero false).
  destruct (Prim2SF x) as [s|s| |s m e]; try destruct s; simpl; intros H;
    try exact I; discriminate.
Qed.

(** [x - x] is [+0] for every finite [x]. *)
Lemma sub_diag x : is_finite x = true -> x - x = 0.
Proof.
  intros H. apply is_finite_shape in H. apply Prim2SF_inj.
  rewrite sub_spec. change (Prim2SF 0) with (S754_zero false).
  destruct (Prim2SF x) as [s|s| |s m e]; try destruct H.
  - destruct s; reflexivity.
  - unfold SF64sub, SFsub. rewrite Z.sub_diag. reflexivity.
Qed.

(** [+0 / d] is [+0] for every positive [d], [+Infinity] included. *)
Lemma zero_div_pos d : (0 <? d) = true -> 0 / d = 0.
Proof.
  intros H. apply pos_shape in H. apply Prim2SF_inj.
  rewrite div_spec. change (Prim2SF 0) with (S754_zero false).
  destruct (Prim2SF d) as [s|s| |s m e]; try destruct s; try destruct H; reflexivity.
Qed.

(** A positive number divided by [0] is [+Infinity]. *)
Lemma pos_div_zero x : (0 <? x) = true -> x / 0 = infinity.
Proof.
  intros H. apply pos_shape in H. apply Prim2SF_inj.
  rewrite div_spec. change (Prim2SF 0) with (S754_zero false).
  change (Prim2SF infinity) with (S754_infinity false).
  destruct (Prim2SF x) as [s|s| |s m e]; try destruct s; try destruct H; reflexivity.
Qed.

(** Multiplying by [1] is exact. *)
Lemma mul_one x : x * 1 = x.
Proof.
  apply Prim2SF_inj. rewrite mul_spec.
  change (Prim2SF 1) with (S754_finite false 4503599627370496 (-52)).
  pose proof (Prim2SF_valid x) as V.
  destruct (Prim2SF x) as [s|s| |s m e]; simpl.
  - destruct s; reflexivity.
  - destruct s; reflexivity.
  - reflexivity.
  - unfold SF64mul, SFmul. rewrite xorb_false_r.
    rewrite Pos.mul_comm.
    simpl in V. unfold bounded, canonical_mantissa in V.
    apply andb_prop in V as [V1 V2]. apply Z.eqb_eq in V1.
    set (M := (4503599627370496 * m)%positive).
    assert (D : Zdigits2 (Z.pos M) = (Z.pos (digits2_pos m) + 52)%Z).
    { subst M. change (4503599627370496 * m)%positive with (Pos.iter xO m 52). cbv [Pos.iter]. cbn [Zdigits2 digits2_pos]. lia. }
    assert (S : SpecFloat.iter_pos shr_1 52%positive (Build_shr_record (Z.pos M) false false)
                = Build_shr_record (Z.pos m) false false) by reflexivity.
    unfold binary_round_aux, shr_fexp. rewrite D.
    replace (Z.pos (digits2_pos m) + 52 + (e + -52))%Z with (Z.pos (digits2_pos m) + e)%Z by lia.
    rewrite V1. replace (e - (e + -52))%Z with 52%Z by lia.
    unfold shr at 1. change (shr_record_of_loc (Z.pos M) loc_Exact) with (Build_shr_record (Z.pos M) false false). rewrite S.
    cbn [shr_m loc_of_shr_record round_nearest_even shr_record_of_loc Zdigits2].
    replace (e + -52 + 52)%Z with e by lia.
    rewrite V1, Z.sub_diag. cbn [shr shr_m]. rewrite V2. reflexivity.
Qed.

Lemma sub_zero_r x : x - 0 = x.
Proof.
  apply Prim2SF_inj. rewrite sub_spec. change (Prim2SF 0) with (S754_zero false).
  destruct (Prim2SF x) as [s|s| |s m e]; try destruct s; reflexivity.
Qed.

Lemma add_zero_l x : x <> neg_zero -> 0 + x = x.
Proof.
  intros N. apply Prim2SF_inj. rewrite add_spec. change (Prim2SF 0) with (S754_zero false).
  destruct (Prim2SF x) as [s|s| |s m e] eqn:E; try destruct s; try reflexivity.
  exfalso. apply N. apply Prim2SF_inj. rewrite E. reflexivity.
Qed.

Lemma add_opp_diag x : is_finite x = true -> x + (0 - x) = 0.
Proof.
  intros H. apply is_finite_shape in H. apply Prim2SF_inj.
  rewrite add_spec, sub_spec. change (Prim2SF 0) with (S754_zero false).
  destruct (Prim2SF x) as [s|s| |s m e]; try destruct H.
  - destruct s; reflexivity.
  - unfold SF64add, SF64sub, SFadd, SFsub.
    set (z := Z.pos (fst (shl_align m e (Z.min e e)))).
    replace (cond_Zopp s z + cond_Zopp (negb s) z)%Z with 0%Z
      by (destruct s; simpl; lia).
    reflexivity.
Qed.

(** Multiplying a finite number by [0] gives a zero. *)
Lemma mul_zero_shape y :
  is_finite y = true -> exists s, Prim2SF (y * 0) = S754_zero s.
Proof.
  intros H. apply is_finite_shape in H. rewrite mul_spec.
  change (Prim2SF 0) with (S754_zero false).
  destruct (Prim2SF y) as [s|s| |s m e]; try destruct H; eexists; reflexivity.
Qed.

(** Adding a zero to a finite number leaves it numerically unchanged. *)
Lemma add_zero_shape_eqb a z s :
  is_finite a = true -> Prim2SF z = S754_zero s -> (a + z =? a) = true.
Proof.
  intros H Z. apply is_finite_shape in H.
  rewrite FloatAxioms.eqb_spec, add_spec, Z.
  destruct (Prim2SF a) as [sa|sa| |sa m e]; try destruct H.
  - destruct sa, s; reflexivity.
  - unfold SF64add, SFadd. apply SFeqb_refl_finite.
Qed.

Lemma lerp_at_zero a b :
  is_finite a = true -> is_finite (b - a) = true -> (lerp a b 0 =? a) = true.
Proof.
  intros Ha Hd. unfold lerp.
  destruct (mul_zero_shape _ Hd) as [s Hs].
  exact (add_zero_shape_eqb a _ s Ha Hs).
Qed.

Lemma lerp_to_silence a : is_finite a = true -> lerp a 0 1 = 0.
Proof. intros H. unfold lerp. rewrite mul_one. apply add_opp_diag, H. Qed.

Lemma lerp_from_silence b : b <> neg_zero -> lerp 0 b 1 = b.
Proof. intros H. unfold lerp. rewrite mul_one, sub_zero_r. apply add_zero_l, H. Qed.

Lemma lerp_at_one a b : lerp a b 1 = a + (b - a).
Proof. unfold lerp. rewrite mul_one. reflexivity. Qed.

Lemma SFcompare_swap a b :
  SFcompare b a = option_map CompOpp (SFcompare a b).
Proof.
  destruct a as [sa|sa| |sa ma ea], b as [sb|sb| |sb mb eb]; simpl;
    try destruct sa; try destruct sb; simpl; try reflexivity;
    rewrite (Z.compare_antisym ea eb); destruct (ea ?= eb)%Z; simpl; try reflexivity;
    rewrite (Pos.compare_cont_antisym ma mb); simpl;
    try rewrite CompOpp_involutive; reflexivity.
Qed.

Lemma leb_ltb_false a b : (a <=? b) = true -> (b <? a) = false.
Proof.
  rewrite leb_spec, ltb_spec. unfold SFleb, SFltb.
  rewrite (SFcompare_swap (Prim2SF a) (Prim2SF b)).
  destruct (SFcompare (Prim2SF a) (Prim2SF b)) as [[]|]; simpl; intros H; try reflexivity; discriminate.
Qed.

Lemma leb_not_nan_r a b : (a <=? b) = true -> is_nan b = false.
Proof.
  rewrite leb_spec, is_nan_spec. unfold SFleb.
  destruct (Prim2SF a), (Prim2SF b); simpl; intros H; try reflexivity; discriminate.
Qed.

Lemma clamp01_ge_one x : (1 <=? x) = true -> clamp01 x = 1.
Proof.
  intros H. unfold clamp01.
  assert (Math_min 1 x = 1) as ->; [| reflexivity].
  unfold Math_min. rewrite (leb_not_nan_r _ _ H), (leb_ltb_false _ _ H).
  change (is_nan 1) with false. cbn [orb].
  destruct (1 <? x); [reflexivity |].
  assert (is_zero x = false) as ->; [| reflexivity].
  unfold is_zero. rewrite FloatAxioms.eqb_spec. rewrite leb_spec in H.
  change (Prim2SF 1) with (S754_finite false 4503599627370496 (-52)) in H.
  change (Prim2SF zero) with (S754_zero false).
  destruct (Prim2SF x) as [s|s| |s m e]; simpl in *; try destruct s; try reflexivity; discriminate.
Qed.

Lemma float_of_shape_zero x s : Prim2SF x = S754_zero s -> x = if s then neg_zero else 0.
Proof. intros H. apply Prim2SF_inj. rewrite H. destruct s; reflexivity. Qed.

Lemma float_of_shape_nan x : Prim2SF x = S754_nan -> x = nan.
Proof. intros H. apply Prim2SF_inj. rewrite H. reflexivity. Qed.

Lemma clamp01_nonpos x : nonpos_shape (Prim2SF x) -> clamp01 x = 0.
Proof.
  intros H. destruct (Prim2SF x) as [s|s| |s m e] eqn:E; try destruct H.
  - apply float_of_shape_zero in E. subst x. destruct s; reflexivity.
  - destruct s; [| destruct H].
    assert (Math_min 1 x = x) as Hm.
    { unfold Math_min. rewrite !is_nan_spec, !ltb_spec, !E.
      change (Prim2SF 1) with (S754_finite false 4503599627370496 (-52)).
      reflexivity. }
    unfold clamp01. rewrite Hm. unfold Math_max.
    rewrite !is_nan_spec, !ltb_spec, !E. reflexivity.
  - destruct s; [| destruct H].
    assert (Math_min 1 x = x) as Hm.
    { unfold Math_min. rewrite !is_nan_spec, !ltb_spec, !E.
      change (Prim2SF 1) with (S754_finite false 4503599627370496 (-52)).
      reflexivity. }
    unfold clamp01. rewrite Hm. unfold Math_max.
    rewrite !is_nan_spec, !ltb_spec, !E. reflexivity.
Qed.

Lemma round_aux_shape s m e l :
  match binary_round_aux prec emax s m e l with
  | S754_zero s' | S754_infinity s' | S754_finite s' _ _ => s' = s
  | S754_nan => True
  end.
Proof.
  unfold binary_round_aux.
  destruct (shr_fexp prec emax m e l) as [mrs' e'].
  destruct (shr_fexp prec emax _ e' loc_Exact) as [mrs'' e''].
  destruct (shr_m mrs''); [reflexivity | | exact I].
  destruct (e'' <=? emax - prec)%Z; reflexivity.
Qed.

(** A non-negative number divided by a negative one is zero, negative,
    [-Infinity], or (for [Infinity / -Infinity]) [NaN]. *)
Lemma div_nonneg_neg n d :
  (0 <=? n) = true -> (d <? 0) = true ->
  nonpos_shape (Prim2SF (n / d)) \/ n / d = nan.
Proof.
  intros Hn Hd. apply nonneg_shape in Hn. apply neg_shape in Hd.
  assert (nonpos_shape (Prim2SF (n / d)) \/ Prim2SF (n / d) = S754_nan) as [H|H];
    [| left; exact H | right; apply float_of_shape_nan, H].
  rewrite div_spec.
  destruct (Prim2SF n) as [sn|sn| |sn mn en]; try destruct sn; try destruct Hn;
    destruct (Prim2SF d) as [sd|sd| |sd md ed]; try destruct sd; try destruct Hd;
    try (left; exact I); try (right; reflexivity).
  unfold SF64div, SFdiv.
  destruct (SFdiv_core_binary prec emax (Z.pos mn) en (Z.pos md) ed) as [[mz ez] lz].
  pose proof (round_aux_shape (xorb false true) mz ez lz) as R.
  destruct (binary_round_aux prec emax (xorb false true) mz ez lz) as [s|s| |s m e];
    try (right; reflexivity); simpl in R; subst s; left; exact I.
Qed.

(** The utility functions on sample values. *)
Example clamp01_samples :
  clamp01 (-3) = 0 /\ clamp01 0.25 = 0.25 /\ clamp01 1 = 1 /\ clamp01 7 = 1 /\
  clamp01 infinity = 1 /\ clamp01 neg_infinity = 0 /\ clamp01 neg_zero = 0 /\
  is_nan (clamp01 nan) = true.
Proof. vm_compute. repeat split. Qed.

Example min_max_zeros :
  Math_min 0 neg_zero = neg_zero /\ Math_min neg_zero 0 = neg_zero /\
  Math_max 0 neg_zero = 0 /\ Math_max neg_zero 0 = 0.
Proof. vm_compute. repeat split. Qed.

Example easeInOut_samples :
  easeInOut 0 = 0 /\ easeInOut 0.25 = 0.125 /\ easeInOut 0.5 = 0.5 /\
  easeInOut 0.75 = 0.875 /\ easeInOut 1 = 1 /\ is_nan (easeInOut nan) = true.
Proof. vm_compute. repeat split. Qed.

Example lerp_samples :
  lerp 0 0.14 0 = 0 /\ lerp 0 0.14 1 = 0.14 /\ lerp 0 0.18 1 = 0.18 /\
  lerp 0.14 0 1 = 0 /\ lerp 1 0.1 1 = 0.09999999999999998 /\
  lerp 0.68 0.18 1 = 0.18000000000000005.
Proof. vm_compute. repeat split. Qed.

Lemma easeInOut_zero : easeInOut 0 = 0.
Proof. reflexivity. Qed.
Lemma easeInOut_one : easeInOut 1 = 1.
Proof. reflexivity. Qed.

Lemma not_leb_cases a b : (a <=? b) = false -> is_nan a = true \/ is_nan b = true \/ (b <? a) = true.
Proof.
  rewrite leb_spec, ltb_spec, !is_nan_spec. unfold SFleb, SFltb.
  rewrite (SFcompare_swap (Prim2SF a) (Prim2SF b)).
  destruct (Prim2SF a) as [sa|sa| |sa ma ea], (Prim2SF b) as [sb|sb| |sb mb eb];
    simpl; auto; try destruct sa; try destruct sb; simpl; auto; try discriminate;
    destruct (ea ?= eb)%Z; simpl; auto; try discriminate;
    destruct (Pos.compare_cont Eq ma mb); simpl; auto; discriminate.
Qed.

Lemma ltb_asym a b : (a <? b) = true -> (b <? a) = false.
Proof.
  rewrite !ltb_spec. unfold SFltb. rewrite (SFcompare_swap (Prim2SF a) (Prim2SF b)).
  destruct (SFcompare (Prim2SF a) (Prim2SF b)) as [[]|]; simpl; intros H; try reflexivity; discriminate.
Qed.

Lemma ltb_not_nan_l a b : (a <? b) = true -> is_nan a = false.
Proof.
  rewrite ltb_spec, is_nan_spec. unfold SFltb.
  destruct (Prim2SF a), (Prim2SF b); simpl; intros H; try reflexivity; discriminate.
Qed.

Lemma ltb_not_leb a b : (a <? b) = true -> (b <=? a) = false.
Proof.
  rewrite ltb_spec, leb_spec. unfold SFltb, SFleb.
  rewrite (SFcompare_swap (Prim2SF a) (Prim2SF b)).
  destruct (SFcompare (Prim2SF a) (Prim2SF b)) as [[]|]; simpl; intros H; try reflexivity; discriminate.
Qed.

(** Below [1], [clamp01] returns its argument or [0]. *)
Lemma clamp01_lt_one q : (q <? 1) = true -> clamp01 q = q \/ clamp01 q = 0.
Proof.
  intros H. unfold clamp01.
  assert (Math_min 1 q = q) as ->.
  { unfold Math_min. rewrite (ltb_not_nan_l _ _ H), (ltb_asym _ _ H), H. reflexivity. }
  unfold Math_max. rewrite (ltb_not_nan_l _ _ H). change (is_nan 0) with false. cbn [orb].
  destruct (0 <? q); [left; reflexivity |].
  destruct (q <? 0); [right; reflexivity |].
  destruct (is_zero q && negb (get_sign q)); [left | right]; reflexivity.
Qed.

(** The clamped progress reaches [1] only by being exactly [1]. *)
Lemma clamp01_reaches_one q : (1 <=? clamp01 q) = true -> clamp01 q = 1.
Proof.
  intros H. destruct (1 <=? q) eqn:E; [apply clamp01_ge_one, E |].
  exfalso. apply not_leb_cases in E as [E | [E | E]].
  - discriminate.
  - rewrite is_nan_spec in E. destruct (Prim2SF q) eqn:S; try discriminate.
    apply float_of_shape_nan in S. subst q. discriminate.
  - destruct (clamp01_lt_one q E) as [C | C]; rewrite C in H.
    + rewrite (ltb_not_leb _ _ E) in H. discriminate.
    + discriminate.
Qed.

Lemma mul_nan_r x : x * nan = nan.
Proof.
  apply Prim2SF_inj. rewrite mul_spec. change (Prim2SF nan) with S754_nan.
  destruct (Prim2SF x); reflexivity.
Qed.

Lemma mul_nan_l x : nan * x = nan.
Proof.
  apply Prim2SF_inj. rewrite mul_spec. change (Prim2SF nan) with S754_nan. reflexivity.
Qed.

Lemma add_nan_r x : x + nan = nan.
Proof.
  apply Prim2SF_inj. rewrite add_spec. change (Prim2SF nan) with S754_nan.
  destruct (Prim2SF x); reflexivity.
Qed.

End FloatFacts.

(** ** The fade engine and the audio controller *)

Module AudioFacts.
Import JS FloatFacts Audio.
Local Open Scope float_scope.

(** [upd] on one channel leaves the other channel's fade and base alone. *)
Lemma upd_other_fade which which' tNow am :
  which <> which' -> _fades which' (fst (upd which tNow am)) = _fades which' am.
Proof.
  intros N. unfold upd.
  destruct (active (_fades which am)); simpl; [| reflexivity].
  destruct (set_volume _ _); simpl; [| destruct which, which'; congruence || reflexivity].
  destruct (1 <=? _); [destruct (to _ <=? _) |]; destruct which, which'; congruence || reflexivity.
Qed.

Lemma upd_other_base which which' tNow am :
  which <> which' -> _base which' (fst (upd which tNow am)) = _base which' am.
Proof.
  intros N. unfold upd.
  destruct (active (_fades which am)); simpl; [| reflexivity].
  destruct (set_volume _ _); simpl; [| destruct which, which'; congruence || reflexivity].
  destruct (1 <=? _); [destruct (to _ <=? _) |]; destruct which, which'; congruence || reflexivity.
Qed.

Lemma upd_other_el which which' tNow am :
  which <> which' -> el which' (fst (upd which tNow am)) = el which' am.
Proof.
  intros N. unfold upd.
  destruct (active (_fades which am)); simpl; [| reflexivity].
  destruct (set_volume _ _); simpl; [| destruct which, which'; congruence || reflexivity].
  destruct (1 <=? _); [destruct (to _ <=? _) |]; destruct which, which'; congruence || reflexivity.
Qed.

Lemma upd_flags which tNow am :
  enabled (fst (upd which tNow am)) = enabled am /\
  muted (fst (upd which tNow am)) = muted am /\
  masterVolume (fst (upd which tNow am)) = masterVolume am.
Proof.
  unfold upd.
  destruct (active (_fades which am)); simpl; [| auto].
  destruct (set_volume _ _); simpl; [| destruct which; auto].
  destruct (1 <=? _); [destruct (to _ <=? _) |]; destruct which; auto.
Qed.

(** What [upd] does to its own channel when a fade is in flight. *)
Lemma upd_active which tNow am :
  active (_fades which am) = true ->
  let f := _fades which am in
  let t := clamp01 ((tNow - start f) / dur f) in
  let b := lerp (from f) (to f) (easeInOut t) in
  let r := upd which tNow am in
  _base which (fst r) = b /\
  (snd r = Threw -> _fades which (fst r) = f) /\
  (snd r = Returned ->
     _fades which (fst r) = (if 1 <=? t then deactivate f else f) /\
     volume (el which (fst r)) = clamp01 (b * masterVolume am) /\
     is_nan (clamp01 (b * masterVolume am)) = false).
Proof.
  intros Ha. cbv zeta. unfold upd. rewrite Ha. cbn [negb].
  set (t := clamp01 ((tNow - start (_fades which am)) / dur (_fades which am))).
  set (b := lerp (from (_fades which am)) (to (_fades which am)) (easeInOut t)).
  change (masterVolume (set_base which b am)) with (masterVolume am).
  unfold set_volume.
  destruct (is_nan (clamp01 (b * masterVolume am))) eqn:En.
  - cbn [fst snd]. split; [destruct which; reflexivity |].
    split; [intros _; destruct which; reflexivity | discriminate].
  - destruct (1 <=? t); [destruct (to (_fades which am) <=? 0.0001) |];
      cbn [fst snd]; (split; [destruct which; reflexivity |]);
      (split; [discriminate |]); intros _; (split; [| split; [| reflexivity]]);
      destruct which; reflexivity.
Qed.

Lemma upd_inactive which tNow am :
  active (_fades which am) = false -> upd which tNow am = (am, Returned).
Proof. intros H. unfold upd. rewrite H. reflexivity. Qed.

Lemma update_flags tNow am :
  enabled (fst (update tNow am)) = enabled am /\
  muted (fst (update tNow am)) = muted am /\
  masterVolume (fst (update tNow am)) = masterVolume am.
Proof.
  unfold update.
  destruct (enabled am) eqn:E; cbn [negb]; [| cbn [fst]; auto].
  destruct (muted am) eqn:M; [cbn [fst]; auto |].
  pose proof (upd_flags Ambient tNow am) as (A1 & A2 & A3).
  destruct (upd Ambient tNow am) as [am1 []]; cbn [fst] in *.
  - pose proof (upd_flags Final tNow am1) as (F1 & F2 & F3).
    rewrite F1, F2, F3, A1, A2, A3. auto.
  - rewrite A1, A2, A3. auto.
Qed.

(** The effect of one [update] on a channel with no fade in flight. *)
Lemma update_idle which tNow am :
  active (_fades which am) = false ->
  _fades which (fst (update tNow am)) = _fades which am /\
  _base which (fst (update tNow am)) = _base which am /\
  el which (fst (update tNow am)) = el which am.
Proof.
  intros H. unfold update.
  destruct (negb (enabled am)); [auto |]. destruct (muted am); [auto |].
  destruct which.
  - rewrite (upd_inactive Ambient tNow am H).
    repeat split; [apply upd_other_fade | apply upd_other_base | apply upd_other_el];
      discriminate.
  - pose proof (upd_other_fade Ambient Final tNow am) as Hf.
    pose proof (upd_other_base Ambient Final tNow am) as Hb.
    pose proof (upd_other_el Ambient Final tNow am) as He.
    destruct (upd Ambient tNow am) as [am1 []]; cbn [fst] in *.
    + rewrite upd_inactive;
        [cbn [fst]; repeat split; [apply Hf | apply Hb | apply He]; discriminate |].
      rewrite Hf; [exact H | discriminate].
    + repeat split; [apply Hf | apply Hb | apply He]; discriminate.
Qed.

(** The effect of one [update] on a channel whose fade is in flight: either
    the call threw before completing the channel and the descriptor is as
    it was, or the channel was sampled. *)
Lemma update_cases which tNow am :
  enabled am = true -> muted am = false ->
  active (_fades which am) = true ->
  let f := _fades which am in
  let t := clamp01 ((tNow - start f) / dur f) in
  let b := lerp (from f) (to f) (easeInOut t) in
  let r := update tNow am in
  (_fades which (fst r) = f /\ snd r = Threw) \/
  (_base which (fst r) = b /\
   _fades which (fst r) = (if 1 <=? t then deactivate f else f) /\
   volume (el which (fst r)) = clamp01 (b * masterVolume am) /\
   is_nan (clamp01 (b * masterVolume am)) = false).
Proof.
  intros E M A. cbv zeta. unfold update. rewrite E, M. cbn [negb].
  destruct which.
  - pose proof (upd_active Ambient tNow am A) as (Hb & Ht & Hr). cbv zeta in *.
    destruct (upd Ambient tNow am) as [am1 []] eqn:U; cbn [fst snd] in *.
    + right. destruct (Hr eq_refl) as (Hf & Hv & Hn).
      rewrite upd_other_base, upd_other_fade, upd_other_el by discriminate. auto.
    + left. auto.
  - pose proof (upd_other_fade Ambient Final tNow am) as Hf.
    pose proof (upd_flags Ambient tNow am) as (_ & _ & Hm).
    destruct (upd Ambient tNow am) as [am1 []] eqn:U; cbn [fst snd] in *.
    + specialize (Hf ltac:(discriminate)).
      assert (A1 : active (_fades Final am1) = true) by (rewrite Hf; exact A).
      pose proof (upd_active Final tNow am1 A1) as (Hb & Ht & Hr). cbv zeta in *.
      rewrite Hf in *.
      destruct (snd (upd Final tNow am1)) eqn:S.
      * right. destruct (Hr eq_refl) as (Hf' & Hv & Hn). rewrite Hm in Hn, Hv. auto.
      * left. auto.
    + left. split; [apply Hf; discriminate | reflexivity].
Qed.

Lemma update_returned which tNow am :
  enabled am = true -> muted am = false ->
  active (_fades which am) = true ->
  snd (update tNow am) = Returned ->
  let f := _fades which am in
  let t := clamp01 ((tNow - start f) / dur f) in
  let b := lerp (from f) (to f) (easeInOut t) in
  _base which (fst (update tNow am)) = b /\
  _fades which (fst (update tNow am)) = (if 1 <=? t then deactivate f else f) /\
  volume (el which (fst (update tNow am))) = clamp01 (b * masterVolume am) /\
  is_nan (clamp01 (b * masterVolume am)) = false.
Proof.
  intros E M A R.
  destruct (update_cases which tNow am E M A) as [[_ T] | H]; [congruence | exact H].
Qed.

Lemma ensurePlayback_frame which allowA allowF am :
  _fades which (ensurePlayback allowA allowF am) = _fades which am /\
  _base which (ensurePlayback allowA allowF am) = _base which am /\
  enabled (ensurePlayback allowA allowF am) = enabled am /\
  muted (ensurePlayback allowA allowF am) = muted am /\
  masterVolume (ensurePlayback allowA allowF am) = masterVolume am /\
  volume (el which (ensurePlayback allowA allowF am)) = volume (el which am).
Proof.
  unfold ensurePlayback.
  destruct (negb (enabled am)); [auto 6 |]. destruct (muted am) eqn:M; [auto 6 |].
  destruct (masterVolume am <=? 0.0001); [auto 6 |].
  destruct (_ && paused (ambient am)); destruct (_ && paused (final _));
    destruct which; cbn; auto 6.
Qed.

Section FadeRun.
Variables (which : channel) (a b d st : float).

Lemma startFade_inv am :
  enabled am = true -> muted am = false ->
  fade_inv which a b d st (masterVolume am) (_startFade which a b d st am).
Proof.
  intros E M. unfold fade_inv, _startFade. cbn.
  repeat split; try assumption. left. destruct which; reflexivity.
Qed.

Lemma run_tick_inv mv k s :
  fade_inv which a b d st mv s -> fade_inv which a b d st mv (run_tick k s).
Proof.
  intros (E & M & V & H). destruct k as [tNow | allowA allowF]; cbn [run_tick].
  - pose proof (update_flags tNow s) as (F1 & F2 & F3).
    unfold fade_inv. rewrite F1, F2, F3. repeat split; try assumption.
    destruct H as [H | (H & Hb & Hv)].
    + assert (A : active (_fades which s) = true) by (rewrite H; reflexivity).
      destruct (update_cases which tNow s E M A) as [[Hf _] | (Hb & Hf & Hv & _)];
        cbv zeta in *; rewrite H in *; [left; exact Hf |].
      cbn [started from to start dur] in *.
      destruct (1 <=? clamp01 ((tNow - st) / d)) eqn:C; [| left; exact Hf].
      right. split; [exact Hf |].
      rewrite Hb, Hv, V, (clamp01_reaches_one _ C). auto.
    + assert (A : active (_fades which s) = false) by (rewrite H; reflexivity).
      destruct (update_idle which tNow s A) as (Hf & Hb' & He).
      right. rewrite Hf, Hb', He. auto.
  - pose proof (ensurePlayback_frame which allowA allowF s) as (Hf & Hb & F1 & F2 & F3 & Hv).
    unfold fade_inv. rewrite Hf, Hb, F1, F2, F3, Hv. auto.
Qed.

Lemma run_ticks_inv mv ks s :
  fade_inv which a b d st mv s -> fade_inv which a b d st mv (run_ticks ks s).
Proof.
  revert s. induction ks as [| k ks IH]; intros s H; [exact H |].
  apply IH, run_tick_inv, H.
Qed.

(** Once the progress has reached [1], a normally returning [update] leaves
    the base at [lerp a b 1] and the descriptor inactive. *)
Lemma fade_completes am ks tNow :
  enabled am = true -> muted am = false ->
  (1 <=? (tNow - st) / d) = true ->
  let am2 := run_ticks ks (_startFade which a b d st am) in
  snd (update tNow am2) = Returned ->
  _base which (fst (update tNow am2)) = lerp a b 1 /\
  _fades which (fst (update tNow am2)) = deactivate (started a b d st) /\
  volume (el which (fst (update tNow am2))) = clamp01 (lerp a b 1 * masterVolume am).
Proof.
  intros E M P am2 R.
  destruct (run_ticks_inv _ ks _ (startFade_inv am E M)) as (E2 & M2 & V2 & H).
  fold am2 in E2, M2, V2, H. destruct H as [H | (H & Hb & Hv)].
  - assert (A : active (_fades which am2) = true) by (rewrite H; reflexivity).
    destruct (update_returned which tNow am2 E2 M2 A R) as (Hb & Hf & Hv & _).
    rewrite H in *.
    cbn [started from to start dur] in *.
    rewrite (clamp01_ge_one _ P) in *. rewrite V2 in Hv. auto.
  - assert (A : active (_fades which am2) = false) by (rewrite H; reflexivity).
    destruct (update_idle which tNow am2 A) as (Hf & Hb' & He).
    rewrite Hf, Hb', He. auto.
Qed.

End FadeRun.

(** A level computed from a [NaN] progress cannot be written to an element. *)
Lemma nan_progress_rejected a b mv : is_nan (clamp01 (lerp a b (easeInOut nan) * mv)) = true.
Proof.
  change (easeInOut nan) with nan. unfold lerp.
  rewrite mul_nan_r, add_nan_r, mul_nan_l. reflexivity.
Qed.

Section NegativeDuration.
Variables (which : channel) (a b d st : float).
Hypothesis d_neg : (d <? 0) = true.

Lemma neg_progress tNow :
  (0 <=? tNow - st) = true ->
  clamp01 ((tNow - st) / d) = 0 \/ clamp01 ((tNow - st) / d) = nan.
Proof.
  intros H. destruct (div_nonneg_neg _ _ H d_neg) as [S | S].
  - left. apply clamp01_nonpos, S.
  - right. rewrite S. reflexivity.
Qed.

Lemma neg_run_tick k s :
  match k with TUpdate t => (0 <=? t - st) = true | _ => True end ->
  enabled s = true /\ muted s = false /\ _fades which s = started a b d st ->
  enabled (run_tick k s) = true /\ muted (run_tick k s) = false /\
  _fades which (run_tick k s) = started a b d st.
Proof.
  intros Hk (E & M & H). destruct k as [tNow | allowA allowF]; cbn [run_tick].
  - pose proof (update_flags tNow s) as (F1 & F2 & _). rewrite F1, F2.
    repeat split; try assumption.
    assert (A : active (_fades which s) = true) by (rewrite H; reflexivity).
    destruct (update_cases which tNow s E M A) as [[Hf _] | (_ & Hf & _)];
      cbv zeta in *; rewrite H in *; [exact Hf |].
    cbn [started from to start dur] in *.
    destruct (neg_progress tNow Hk) as [P | P]; rewrite P in Hf; exact Hf.
  - pose proof (ensurePlayback_frame which allowA allowF s) as (Hf & _ & F1 & F2 & _).
    rewrite Hf, F1, F2. auto.
Qed.

Lemma neg_run_ticks ks s :
  not_before st ks ->
  enabled s = true /\ muted s = false /\ _fades which s = started a b d st ->
  enabled (run_ticks ks s) = true /\ muted (run_ticks ks s) = false /\
  _fades which (run_ticks ks s) = started a b d st.
Proof.
  intros F. revert s. induction F as [| k ks Hk F IH]; intros s H; [exact H |].
  apply IH, neg_run_tick; assumption.
Qed.

(** With a negative duration the progress never leaves [0]: the descriptor
    stays active for ever and the base level stays at [lerp a b 0]. *)
Lemma negative_duration_stalls am ks tNow :
  enabled am = true -> muted am = false ->
  not_before st ks -> (0 <=? tNow - st) = true ->
  let am2 := run_ticks ks (_startFade which a b d st am) in
  _fades which (fst (update tNow am2)) = started a b d st /\
  (snd (update tNow am2) = Returned -> _base which (fst (update tNow am2)) = lerp a b 0).
Proof.
  intros E M F T am2.
  assert (I0 : enabled (_startFade which a b d st am) = true /\
               muted (_startFade which a b d st am) = false /\
               _fades which (_startFade which a b d st am) = started a b d st).
  { cbn. repeat split; try assumption. destruct which; reflexivity. }
  destruct (neg_run_ticks ks _ F I0) as (E2 & M2 & H). fold am2 in E2, M2, H.
  split.
  - apply (neg_run_tick (TUpdate tNow) am2 T). auto.
  - intros R.
    assert (A : active (_fades which am2) = true) by (rewrite H; reflexivity).
    destruct (update_returned which tNow am2 E2 M2 A R) as (Hb & _ & _ & Hn).
    rewrite H in *.
    cbn [started from to start dur] in *.
    destruct (neg_progress tNow T) as [P | P]; rewrite P in *.
    + exact Hb.
    + rewrite nan_progress_rejected in Hn. discriminate.
Qed.

End NegativeDuration.

(** C4. [setMuted(true)], whatever fades are in flight, deactivates both
    fade descriptors and the fade ticker, sets both element volumes to 0
    and pauses both elements at once; and no later sequence of [update()]
    and [ensurePlayback()] ticks changes anything of the controller while
    it stays muted. *)
Theorem mute_is_immediate_and_holds (am : AudioManager) (ks : list tick) :
  let m := setMuted true am in
  muted m = true /\
  active (_fades_ambient m) = false /\ active (_fades_final m) = false /\
  _fadeRaf m = false /\
  volume (ambient m) = 0 /\ volume (final m) = 0 /\
  paused (ambient m) = true /\ paused (final m) = true /\
  run_ticks ks m = m.
Proof.
  cbv zeta. repeat split.
  assert (H : forall s, muted s = true -> run_ticks ks s = s).
  { induction ks as [| k ks IH]; intros s Hs; [reflexivity |].
    cbn [run_ticks fold_left].
    assert (run_tick k s = s) as ->; [| apply IH, Hs].
    destruct k; cbn [run_tick]; unfold update, ensurePlayback; rewrite Hs;
      destruct (enabled s); reflexivity. }
  apply H. reflexivity.
Qed.

(** The level a completed fade rests on, and when it is the target. *)
Lemma fade_at_end (which : channel) (a b d st : float) (am : AudioManager)
  (ks : list tick) (tNow : float) :
  enabled am = true -> muted am = false ->
  let am2 := run_ticks ks (_startFade which a b d st am) in
  (1 <=? (tNow - st) / d) = true ->
  snd (update tNow am2) = Returned ->
  _base which (fst (update tNow am2)) = a + (b - a) /\
  active (_fades which (fst (update tNow am2))) = false /\
  ((a = 0 /\ b <> neg_zero) \/ (b = 0 /\ is_finite a = true) ->
   _base which (fst (update tNow am2)) = b).
Proof.
  intros E M am2 P R.
  destruct (fade_completes which a b d st am ks tNow E M P R) as (Hb & Hf & _).
  fold am2 in Hb, Hf. rewrite Hb, Hf, lerp_at_one.
  split; [reflexivity |]. split; [reflexivity |].
  intros [[-> Hz] | [-> Ha]].
  - rewrite <- lerp_at_one. apply lerp_from_silence, Hz.
  - rewrite <- lerp_at_one. apply lerp_to_silence, Ha.
Qed.

(** C2 (as amended). A fade started by [_startFade(which, a, b, d)] at time
    [st] on an enabled, unmuted controller and not superseded: sampled by
    an [update()] at [st] itself (finite [st], [a], [b - a], [d > 0]) the
    base level is [a]; sampled after any earlier ticks by an [update()]
    for which the progress [(tNow - st) / d] has reached 1, the base level
    is [lerp(a, b, 1) = a + (b - a)] as rounded in binary64 and the
    descriptor is inactive; that level is [b] itself when the fade starts
    from silence or ends in silence. *)
Theorem fade_endpoints (which : channel) (a b d st : float) (am : AudioManager) :
  enabled am = true -> muted am = false ->
  let am1 := _startFade which a b d st am in
  (is_finite st = true -> (0 <? d) = true ->
   is_finite a = true -> is_finite (b - a) = true ->
   snd (update st am1) = Returned ->
   (_base which (fst (update st am1)) =? a) = true)
  /\
  (forall ks tNow,
     let am2 := run_ticks ks am1 in
     (1 <=? (tNow - st) / d) = true ->
     snd (update tNow am2) = Returned ->
     _base which (fst (update tNow am2)) = a + (b - a) /\
     active (_fades which (fst (update tNow am2))) = false /\
     ((a = 0 /\ b <> neg_zero) \/ (b = 0 /\ is_finite a = true) ->
      _base which (fst (update tNow am2)) = b)).
Proof.
  intros E M am1. split.
  - intros Fs Dp Fa Fd R.
    assert (A : active (_fades which am1) = true) by (destruct which; reflexivity).
    assert (E1 : enabled am1 = true) by exact E.
    assert (M1 : muted am1 = false) by exact M.
    destruct (update_returned which st am1 E1 M1 A R) as (Hb & _).
    assert (Hf : _fades which am1 = started a b d st) by (destruct which; reflexivity).
    rewrite Hf in Hb. cbn [started from to start dur] in Hb.
    rewrite (sub_diag st Fs), (zero_div_pos d Dp) in Hb.
    change (clamp01 0) with 0 in Hb. change (easeInOut 0) with 0 in Hb.
    rewrite Hb. apply lerp_at_zero; assumption.
  - intros ks tNow am2 P R. exact (fade_at_end which a b d st am ks tNow E M P R).
Qed.

Lemma fade_endpoints_witness :
  (_base Ambient (fst (update 0 (_startFade Ambient 0 0.14 2000 0 unlocked))) =? 0) = true /\
  _base Ambient (fst (update 2000 (_startFade Ambient 0 0.14 2000 0 unlocked))) = 0.14.
Proof.
  destruct (fade_endpoints Ambient 0 0.14 2000 0 unlocked eq_refl eq_refl) as [H1 H2].
  split.
  - apply H1; reflexivity.
  - destruct (H2 [] 2000 eq_refl eq_refl) as (_ & _ & H3).
    apply H3. left. split; [reflexivity |]. intros H.
    apply (f_equal (fun x => 1 / x <? 0)) in H. vm_compute in H. discriminate.
Defined.

(** C2 as stated fails: a fade from level 1 to level 0.1 ends, at and after
    [start + d], on the base level 0.09999999999999998. *)
Lemma fade_end_not_exact :
  let am1 := _startFade Ambient 1 0.1 1000 0 unlocked in
  snd (update 1000 am1) = Returned /\
  _base Ambient (fst (update 1000 am1)) = 0.09999999999999998 /\
  (_base Ambient (fst (update 1000 am1)) =? 0.1) = false /\
  (_base Ambient (fst (update 5000 am1)) =? 0.1) = false.
Proof. vm_compute. repeat split. Qed.

(** C5 (as amended). A fade started with duration 0 snaps on the first
    normally returning [update()] run strictly after its start: the base
    level is [lerp(a, b, 1) = a + (b - a)] (the target itself for a fade
    from or to silence) and the descriptor is inactive.  A fade started
    with a negative duration never progresses: at every later time its
    descriptor is still active and a normally returning [update()] leaves
    the base level at [lerp(a, b, 0)]. *)
Theorem nonpositive_duration (which : channel) (a b st : float) (am : AudioManager) :
  enabled am = true -> muted am = false ->
  (forall ks tNow,
     let am2 := run_ticks ks (_startFade which a b 0 st am) in
     (0 <? tNow - st) = true ->
     snd (update tNow am2) = Returned ->
     _base which (fst (update tNow am2)) = a + (b - a) /\
     active (_fades which (fst (update tNow am2))) = false /\
     ((a = 0 /\ b <> neg_zero) \/ (b = 0 /\ is_finite a = true) ->
      _base which (fst (update tNow am2)) = b))
  /\
  (forall d ks tNow,
     let am2 := run_ticks ks (_startFade which a b d st am) in
     (d <? 0) = true -> not_before st ks -> (0 <=? tNow - st) = true ->
     _fades which (fst (update tNow am2))
       = {| from := a; to := b; start := st; dur := d; active := true |} /\
     (snd (update tNow am2) = Returned ->
      _base which (fst (update tNow am2)) = lerp a b 0)).
Proof.
  intros E M. split.
  - intros ks tNow am2 T R.
    apply (fade_at_end which a b 0 st am ks tNow E M); [| exact R].
    rewrite (pos_div_zero _ T). reflexivity.
  - intros d ks tNow am2 D F T.
    exact (negative_duration_stalls which a b d st D am ks tNow E M F T).
Qed.

Lemma nonpositive_duration_witness :
  _base Ambient (fst (update 16 (_startFade Ambient 0 0.14 0 0 unlocked))) = 0.14 /\
  active (_fades Ambient (fst (update 16 (_startFade Ambient 0 0.14 (-1000) 0 unlocked)))) = true.
Proof.
  destruct (nonpositive_duration Ambient 0 0.14 0 unlocked eq_refl eq_refl) as [H1 H2].
  split.
  - destruct (H1 [] 16 eq_refl eq_refl) as (_ & _ & H3).
    apply H3. left. split; [reflexivity |]. intros H.
    apply (f_equal (fun x => 1 / x <? 0)) in H. vm_compute in H. discriminate.
  - destruct (H2 (-1000) [] 16 eq_refl (List.Forall_nil _) eq_refl) as [H3 _].
    exact (f_equal active H3).
Defined.

(** C5 as stated fails for a negative duration: the level stays at [from]
    and the descriptor stays active, here after one frame and after ten
    seconds. *)
Lemma negative_duration_never_snaps :
  let am1 := _startFade Ambient 0 0.14 (-1000) 0 unlocked in
  snd (update 16 am1) = Returned /\
  _base Ambient (fst (update 16 am1)) = 0 /\
  (_base Ambient (fst (update 16 am1)) =? 0.14) = false /\
  active (_fades Ambient (fst (update 16 am1))) = true /\
  (_base Ambient (fst (update 10000 am1)) =? 0.14) = false /\
  active (_fades Ambient (fst (update 10000 am1))) = true.
Proof. vm_compute. repeat split. Qed.

(** With duration 0, an [update()] in the very millisecond of the start
    computes the progress [0 / 0 = NaN]; the element rejects the level and
    the call throws, leaving the fade active. *)
Example zero_duration_same_instant :
  let am1 := _startFade Ambient 0 0.14 0 50 unlocked in
  snd (update 50 am1) = Threw /\
  active (_fades Ambient (fst (update 50 am1))) = true /\
  is_nan (_base Ambient (fst (update 50 am1))) = true.
Proof. vm_compute. repeat split. Qed.

(** The time [start + d], itself a rounded sum, can leave the progress one
    step below 1: the level is already [lerp a b 1], and the descriptor
    turns inactive on the next tick. *)
Example progress_just_below_one :
  let am1 := _startFade Final 0 0.18 2000 3245.9 unlocked in
  3245.9 + 2000 = 5245.9 /\
  (5245.9 - 3245.9) / 2000 = 0.9999999999999998 /\
  _base Final (fst (update 5245.9 am1)) = 0.18 /\
  active (_fades Final (fst (update 5245.9 am1))) = true /\
  active (_fades Final (fst (update 5262.6 (fst (update 5245.9 am1))))) = false.
Proof. vm_compute. repeat split. Qed.

End AudioFacts.

(** ** The mini-game lifecycle manager *)

Module MiniGameFacts.
Import JS MiniGames.

Lemma resolutions_app p tr1 tr2 :
  resolutions p (tr1 ++ tr2) = resolutions p tr1 ++ resolutions p tr2.
Proof.
  induction tr1 as [| [g | g | q ok] tr1 IH]; cbn; try exact IH; [reflexivity |].
  destruct (Nat.eqb q p); cbn; rewrite IH; reflexivity.
Qed.

Lemma close_trace p w : resolutions p (trace (close w)) = resolutions p (trace w).
Proof.
  unfold close; cbn. destruct (_active (mgr w)); [| reflexivity].
  rewrite resolutions_app; cbn. apply app_nil_r.
Qed.

(** [_finish] calls the pending resolver, if any, and no other. *)
Lemma finish_trace p ok w :
  resolutions p (trace (_finish ok w)) =
  resolutions p (trace w) ++
  (if decide (_resolve (mgr w) = Some p) then [ok] else []).
Proof.
  unfold _finish. destruct (_resolve (mgr w)) as [r |] eqn:R.
  - cbn [trace]. rewrite resolutions_app, close_trace. cbn.
    destruct (Nat.eqb_spec r p) as [-> | N].
    + rewrite decide_True by reflexivity. reflexivity.
    + rewrite decide_False by congruence. reflexivity.
  - rewrite close_trace, decide_False by discriminate. symmetry. apply app_nil_r.
Qed.

Lemma finish_mgr ok w :
  mgr (_finish ok w) = {| _active := None; _resolve := None; _openedAt := 0%float |} /\
  nextPromise (_finish ok w) = nextPromise w /\ bound (_finish ok w) = bound w.
Proof. unfold _finish. destruct (_resolve (mgr w)) eqn:R; cbn; rewrite ?R; auto. Qed.

Lemma open_trace p g t w :
  resolutions p (trace (fst (open g t w))) = resolutions p (trace w).
Proof.
  unfold open. cbn [fst trace]. rewrite resolutions_app, close_trace.
  cbn. apply app_nil_r.
Qed.

Lemma wf_init : wf init.
Proof. split; [discriminate | reflexivity]. Qed.

Lemma wf_finish ok w : wf w -> wf (_finish ok w).
Proof.
  intros [W1 W2]. destruct (finish_mgr ok w) as (Hm & Hn & _).
  split; [rewrite Hm; discriminate |].
  intros p Hp. rewrite Hn in Hp. rewrite finish_trace, (W2 p Hp).
  destruct (decide _) as [R | R]; [| reflexivity].
  apply W1 in R as [R _]. lia.
Qed.

Lemma wf_step e w : wf w -> wf (step e w).
Proof.
  intros W. destruct e as [g t | g | g | t]; cbn [step].
  - destruct W as [W1 W2]. split.
    + intros p Hp. assert (p = nextPromise w) as -> by (cbn in Hp; congruence).
      split; [cbn; lia |]. rewrite open_trace. apply W2. lia.
    + intros p Hp. rewrite open_trace. apply W2. cbn in Hp. lia.
  - unfold onComplete. destruct (existsb _ _); [apply wf_finish, W | exact W].
  - unfold onCancel. destruct (existsb _ _); [apply wf_finish, W | exact W].
  - unfold cancel. destruct (_ && _); [exact W | apply wf_finish, W].
Qed.

Lemma wf_run es w : wf w -> wf (run es w).
Proof.
  revert w. induction es as [| e es IH]; intros w W; [exact W |].
  apply IH, wf_step, W.
Qed.

Lemma orphan_finish p ok w : orphan p w -> orphan p (_finish ok w).
Proof.
  intros (R & N & T). destruct (finish_mgr ok w) as (Hm & Hn & _).
  split; [rewrite Hm; discriminate |]. split; [lia |].
  rewrite finish_trace, T, decide_False by exact R. reflexivity.
Qed.

Lemma orphan_step p e w : orphan p w -> orphan p (step e w).
Proof.
  intros O. destruct e as [g t | g | g | t]; cbn [step].
  - destruct O as (R & N & T). split; [| split].
    + cbn. intros [= E]. lia.
    + cbn. lia.
    + rewrite open_trace. exact T.
  - unfold onComplete. destruct (existsb _ _); [apply orphan_finish, O | exact O].
  - unfold onCancel. destruct (existsb _ _); [apply orphan_finish, O | exact O].
  - unfold cancel. destruct (_ && _); [exact O | apply orphan_finish, O].
Qed.

Lemma orphan_run p es w : orphan p w -> orphan p (run es w).
Proof.
  revert w. induction es as [| e es IH]; intros w O; [exact O |].
  apply IH, orphan_step, O.
Qed.

(** Once nothing is pending, signals resolve nothing. *)
Lemma settled_run p g sigs w :
  _resolve (mgr w) = None ->
  resolutions p (trace (run (map (event_of g) sigs) w)) = resolutions p (trace w).
Proof.
  revert w. induction sigs as [| s sigs IH]; intros w R; [reflexivity |].
  cbn [map run fold_left]. fold (run (map (event_of g) sigs) (step (event_of g s) w)).
  assert (H : _resolve (mgr (step (event_of g s) w)) = None /\
              resolutions p (trace (step (event_of g s) w)) = resolutions p (trace w)).
  { assert (F : forall ok, _resolve (mgr (_finish ok w)) = None /\
                  resolutions p (trace (_finish ok w)) = resolutions p (trace w)).
    { intros ok. destruct (finish_mgr ok w) as (Hm & _). rewrite Hm. split; [reflexivity |].
      rewrite finish_trace, R, decide_False by discriminate. apply app_nil_r. }
    destruct s as [| | t]; cbn [event_of step].
    - unfold onComplete. destruct (existsb _ _); [apply F | auto].
    - unfold onCancel. destruct (existsb _ _); [apply F | auto].
    - unfold cancel. destruct (_ && _); [auto | apply F]. }
  destruct H as [H1 H2]. rewrite (IH _ H1). exact H2.
Qed.

(** While the promise of an open is pending, the first signal that gets
    through settles it. *)
Lemma pending_run p g t0 sigs w :
  mgr w = {| _active := Some g; _resolve := Some p; _openedAt := t0 |} ->
  In g (bound w) ->
  resolutions p (trace w) = [] ->
  resolutions p (trace (run (map (event_of g) sigs) w)) =
  match find (effective t0) sigs with
  | Some s => [is_completion s]
  | None => []
  end.
Proof.
  revert w. induction sigs as [| s sigs IH]; intros w Hm Hb Ht; [exact Ht |].
  cbn [map run fold_left find]. fold (run (map (event_of g) sigs) (step (event_of g s) w)).
  assert (B : existsb (Nat.eqb g) (bound w) = true).
  { apply existsb_exists. exists g. split; [exact Hb | apply Nat.eqb_refl]. }
  assert (F : forall ok,
             resolutions p (trace (run (map (event_of g) sigs) (_finish ok w))) = [ok]).
  { intros ok. rewrite settled_run.
    - rewrite finish_trace, Ht, Hm. cbn. rewrite decide_True by reflexivity. reflexivity.
    - destruct (finish_mgr ok w) as (E & _). rewrite E. reflexivity. }
  destruct s as [| | t]; cbn [event_of step effective is_completion].
  - unfold onComplete. rewrite B. apply F.
  - unfold onCancel. rewrite B. apply F.
  - unfold cancel. rewrite Hm. cbn [_openedAt].
    destruct (truthy_num t0 && (t - t0 <? 280)%float); cbn [negb].
    + apply IH; assumption.
    + apply F.
Qed.

(** C1 (as amended). For every call of [open(game)], in any state the
    manager can reach, and every sequence of completion, cancel and
    close-click signals sent to that mini-game: the resolver of the
    promise returned by that call is called at most once; it is called
    exactly once as soon as one signal gets through (a completion, a
    cancellation, or a click not within 280 ms of the opening), with
    [true] if the first such signal is a completion and [false]
    otherwise; and it is not called at all when every signal is an early
    click. *)
Theorem single_resolution (hist : list event) (g : game) (t0 : float) (sigs : list signal) :
  let w0 := run hist init in
  let w1 := fst (open g t0 w0) in
  let p := snd (open g t0 w0) in
  let w2 := run (map (event_of g) sigs) w1 in
  resolutions p (trace w2) =
    match find (effective t0) sigs with
    | Some s => [is_completion s]
    | None => []
    end
  /\ length (resolutions p (trace w2)) <= 1
  /\ (existsb (effective t0) sigs = true -> length (resolutions p (trace w2)) = 1)
  /\ (In true (resolutions p (trace w2)) -> In SComplete sigs).
Proof.
  intros w0 w1 p w2.
  assert (W : wf w0) by (apply wf_run, wf_init).
  assert (H : resolutions p (trace w2) =
              match find (effective t0) sigs with
              | Some s => [is_completion s]
              | None => []
              end).
  { apply pending_run.
    - reflexivity.
    - left. reflexivity.
    - unfold w1. rewrite open_trace. apply W. cbn. lia. }
  split; [exact H |]. rewrite H. split; [| split].
  - destruct (find _ _); cbn; lia.
  - intros E. destruct (find (effective t0) sigs) eqn:Fd; [reflexivity |].
    apply existsb_exists in E as (s & Hs & Es).
    pose proof (find_none _ _ Fd s Hs) as N. congruence.
  - destruct (find (effective t0) sigs) as [s |] eqn:Fd; [| intros []].
    intros [E | []]. apply find_some in Fd as [Hs _].
    destruct s; try discriminate. exact Hs.
Qed.

Lemma single_resolution_witness :
  length (resolutions 0 (trace (run [Dismiss 100%float; Complete 7; Cancel 7; Dismiss 900%float]
                                    (fst (open 7 50%float init))))) = 1%nat.
Proof.
  destruct (single_resolution [] 7 50%float [SDismiss 100%float; SComplete; SCancel; SDismiss 900%float])
    as (_ & _ & H & _).
  apply H. reflexivity.
Defined.

(** C1 as stated fails: a click on the close button 100 ms after the
    opening is a close signal, yet the promise is not resolved. *)
Lemma early_dismiss_resolves_nothing :
  let w1 := fst (open 7 50%float init) in
  let p := snd (open 7 50%float init) in
  resolutions p (trace (run [Dismiss 150%float] w1)) = [] /\
  isOpen (run [Dismiss 150%float] w1) = true.
Proof. vm_compute. split; reflexivity. Qed.

(** C10. If [open(g2)] is called while the mini-game of an earlier
    [open(g1)] is still active and its promise [p1] pending, then [g1] is
    unmounted, [g2] becomes the active descriptor with a new promise, and
    whatever happens afterwards the resolver of [p1] is never called. *)
Theorem superseded_promise_never_resolves
  (hist : list event) (g1 g2 : game) (p1 : promise) (t : float) (evs : list event) :
  let w := run hist init in
  _active (mgr w) = Some g1 ->
  _resolve (mgr w) = Some p1 ->
  let w1 := fst (open g2 t w) in
  trace w1 = trace w ++ [Unmounted g1; Mounted g2] /\
  _active (mgr w1) = Some g2 /\
  _resolve (mgr w1) = Some (snd (open g2 t w)) /\
  snd (open g2 t w) <> p1 /\
  resolutions p1 (trace (run evs w1)) = [].
Proof.
  intros w A R w1.
  assert (W : wf w) by (apply wf_run, wf_init).
  destruct W as [W1 _]. destruct (W1 p1 R) as [Lt Nil].
  split; [| split; [| split; [| split]]].
  - cbn. rewrite A, <- app_assoc. reflexivity.
  - reflexivity.
  - reflexivity.
  - cbn. lia.
  - apply (orphan_run p1 evs w1). split; [| split].
    + cbn. intros [= E]. lia.
    + cbn. lia.
    + unfold w1. rewrite open_trace. exact Nil.
Qed.

Lemma superseded_promise_never_resolves_witness :
  resolutions 0 (trace (run [Complete 1; Complete 2; Cancel 1; Dismiss 5000%float]
                            (fst (open 2 300%float (run [Open 1 10%float] init))))) = [].
Proof.
  destruct (superseded_promise_never_resolves [Open 1 10%float] 1 2 0 300%float
              [Complete 1; Complete 2; Cancel 1; Dismiss 5000%float] eq_refl eq_refl)
    as (_ & _ & _ & _ & H).
  exact H.
Defined.

End MiniGameFacts.

(** ** The phrase ledger *)

Module PhraseFacts.
Import JS Phrases.

Lemma pool_truthy : Forall (fun p => truthy_str p = true) getInteractionPhrases.
Proof. repeat constructor. Qed.

Lemma pool_NoDup : NoDup getInteractionPhrases.
Proof. apply (bool_decide_unpack (NoDup getInteractionPhrases)). vm_compute. exact I. Qed.

Lemma used_spec (m : gmap string string) p : p ∈ used m <-> exists i, m !! i = Some p.
Proof.
  unfold used. rewrite list_elem_of_fmap. split.
  - intros ([i q] & -> & H). exists i. apply elem_of_map_to_list, H.
  - intros [i H]. exists (i, p). split; [reflexivity | apply elem_of_map_to_list, H].
Qed.

Lemma available_spec m p :
  p ∈ available m <-> p ∈ getInteractionPhrases /\ forall i, m !! i <> Some p.
Proof.
  unfold available. rewrite list_elem_of_filter, used_spec. split.
  - intros [H1 H2]. split; [exact H2 |]. intros i Hi. apply H1. eauto.
  - intros [H1 H2]. split; [| exact H1]. intros [i Hi]. exact (H2 i Hi).
Qed.

Lemma pick_elem (l : list string) (k : nat) :
  l <> [] -> default EmptyString (l !! (k mod length l)) ∈ l.
Proof.
  intros N. assert (L : (k mod length l < length l)%nat).
  { apply Nat.mod_upper_bound. destruct l; [congruence | discriminate]. }
  destruct (lookup_lt_is_Some_2 l _ L) as [x Hx]. rewrite Hx. cbn.
  apply list_elem_of_lookup. eauto.
Qed.

Lemma chosen_pool draw m : chosen draw m ∈ getInteractionPhrases.
Proof.
  unfold chosen. destruct (available m) as [| a l] eqn:E.
  - apply pick_elem. discriminate.
  - assert (H : default EmptyString ((a :: l) !! (draw mod length (a :: l))) ∈ a :: l)
      by (apply pick_elem; discriminate).
    rewrite <- E in H at 3. apply available_spec in H as [H _]. exact H.
Qed.

Lemma chosen_truthy draw m : truthy_str (chosen draw m) = true.
Proof.
  pose proof pool_truthy as T. rewrite Forall_forall in T. apply T, chosen_pool.
Qed.

Lemma chosen_unused draw m :
  available m <> [] -> forall i, m !! i <> Some (chosen draw m).
Proof.
  intros N. unfold chosen. destruct (available m) as [| a l] eqn:E; [congruence |].
  assert (H : default EmptyString ((a :: l) !! (draw mod length (a :: l))) ∈ a :: l)
    by (apply pick_elem; discriminate).
  rewrite <- E in H at 3. apply available_spec in H as [_ H]. exact H.
Qed.

(** The two outcomes of a call: the phrase already held is returned and
    nothing changes, or a drawn phrase is stored and returned. *)
Lemma getOrAssign_cases id draw m :
  (exists p, m !! id = Some p /\ truthy_str p = true /\
             _getOrAssignPhrase id draw m = (p, m)) \/
  ((m !! id = None \/ m !! id = Some EmptyString) /\
   _getOrAssignPhrase id draw m = (chosen draw m, <[id := chosen draw m]> m)).
Proof.
  unfold _getOrAssignPhrase. fold (chosen draw m).
  destruct (m !! id) as [p |] eqn:E; [| right; auto].
  destruct (truthy_str p) eqn:T; [left; eauto |].
  right. split; [| reflexivity]. right. f_equal.
  unfold truthy_str in T. apply negb_false_iff, String.eqb_eq in T. exact T.
Qed.

Lemma call_keeps id p j draw m :
  m !! id = Some p -> truthy_str p = true ->
  snd (_getOrAssignPhrase j draw m) !! id = Some p.
Proof.
  intros H T. destruct (getOrAssign_cases j draw m) as [(q & _ & _ & ->) | [C ->]];
    cbn [snd]; [exact H |].
  destruct (decide (j = id)) as [-> | N].
  - destruct C as [C | C]; rewrite H in C; [discriminate |].
    injection C as ->. discriminate.
  - rewrite lookup_insert_ne by exact N. exact H.
Qed.

Lemma run_calls_keeps id p calls m :
  m !! id = Some p -> truthy_str p = true -> run_calls calls m !! id = Some p.
Proof.
  revert m. induction calls as [| [j k] calls IH]; intros m H T; [exact H |].
  apply IH; [apply call_keeps |]; assumption.
Qed.

Lemma call_distinct id draw m :
  distinct_phrases m -> available m <> [] ->
  distinct_phrases (snd (_getOrAssignPhrase id draw m)).
Proof.
  intros D A. destruct (getOrAssign_cases id draw m) as [(q & _ & _ & ->) | [_ ->]];
    cbn [snd]; [exact D |].
  intros i j p N Hi Hj.
  destruct (decide (i = id)) as [-> | Ni]; destruct (decide (j = id)) as [-> | Nj];
    try congruence.
  - rewrite lookup_insert_eq in Hi. rewrite lookup_insert_ne in Hj by congruence.
    injection Hi as <-. exact (chosen_unused draw m A j Hj).
  - rewrite lookup_insert_eq in Hj. rewrite lookup_insert_ne in Hi by congruence.
    injection Hj as <-. exact (chosen_unused draw m A i Hi).
  - rewrite lookup_insert_ne in Hi, Hj by congruence. exact (D i j p N Hi Hj).
Qed.

Lemma pool_length : length getInteractionPhrases = 10.
Proof. reflexivity. Qed.

Lemma pool_nonempty p : p ∈ getInteractionPhrases -> p <> EmptyString.
Proof.
  intros Hp ->. pose proof pool_truthy as T. rewrite Forall_forall in T.
  specialize (T _ Hp). discriminate.
Qed.

(** A phrase of the pool that no id holds is what the filter of line 1945
    keeps. *)
Lemma unused_available (m : gmap string string) :
  (exists q, q ∈ getInteractionPhrases /\ forall i, m !! i <> Some q) <->
  available m <> [].
Proof.
  split.
  - intros (q & Hq & U) A.
    assert (H : q ∈ available m) by (apply available_spec; auto).
    rewrite A in H. inversion H.
  - intros A. destruct (available m) as [| q l] eqn:E; [congruence |].
    exists q. apply available_spec. rewrite E. left.
Qed.

Lemma call_dom id draw m : dom (snd (_getOrAssignPhrase id draw m)) = {[ id ]} ∪ dom m.
Proof.
  destruct (getOrAssign_cases id draw m) as [(q & Hq & _ & ->) | [_ ->]]; cbn [snd].
  - apply elem_of_dom_2 in Hq. set_solver.
  - apply dom_insert_L.
Qed.

(** With at most ten ids in all, an id that is about to get a phrase
    leaves at most nine others holding one: a phrase of the pool is
    unused. *)
Lemma unused_while_room j (m : gmap string string) :
  m !! j = None \/ m !! j = Some EmptyString ->
  size ({[ j ]} ∪ dom m) <= 10 ->
  exists q, q ∈ getInteractionPhrases /\ forall i, m !! i <> Some q.
Proof.
  intros C S. apply unused_available. intros A.
  assert (H : getInteractionPhrases ⊆+ used (delete j m)).
  { apply NoDup_submseteq; [apply pool_NoDup |]. intros p Hp.
    destruct (decide (p ∈ used m)) as [U | U].
    - apply used_spec in U as [i Hi]. apply used_spec. exists i.
      rewrite lookup_delete_ne; [exact Hi |]. intros <-.
      destruct C as [C | C]; rewrite C in Hi; [discriminate |].
      injection Hi as <-. exact (pool_nonempty _ Hp eq_refl).
    - assert (Hin : p ∈ available m) by (unfold available; apply list_elem_of_filter; auto).
      rewrite A in Hin. inversion Hin. }
  apply submseteq_length in H. unfold used in H.
  rewrite length_fmap, length_map_to_list, pool_length in H.
  assert (E : {[ j ]} ∪ dom m = {[ j ]} ∪ dom (delete j m)).
  { rewrite dom_delete_L. apply set_eq. intros x. destruct (decide (x = j)); set_solver. }
  rewrite E, size_union, size_singleton, size_dom in S by (rewrite dom_delete_L; set_solver).
  lia.
Qed.

Lemma run_calls_distinct_room calls m :
  distinct_phrases m -> size (dom m ∪ ids_of calls) <= 10 ->
  distinct_phrases (run_calls calls m).
Proof.
  revert m. induction calls as [| [j k] calls IH]; intros m D S; [exact D |].
  change (run_calls ((j, k) :: calls) m)
    with (run_calls calls (snd (_getOrAssignPhrase j k m))).
  assert (Sj : size ({[ j ]} ∪ dom m) <= 10).
  { etransitivity; [| exact S]. apply subseteq_size. unfold ids_of. cbn. set_solver. }
  apply IH.
  - destruct (getOrAssign_cases j k m) as [(q & _ & _ & E) | [C E]].
    + rewrite E. exact D.
    + apply call_distinct; [exact D |]. apply unused_available, (unused_while_room j); assumption.
  - rewrite call_dom. etransitivity; [| exact S]. apply Nat.eq_le_incl. f_equal.
    unfold ids_of. cbn. set_solver.
Qed.

(** Values without repetition: no two ids hold the same phrase. *)
Lemma used_NoDup_distinct (m : gmap string string) : NoDup (used m) -> distinct_phrases m.
Proof.
  intros N i j p Nij Hi Hj.
  apply elem_of_map_to_list, list_elem_of_lookup in Hi as [a Ha].
  apply elem_of_map_to_list, list_elem_of_lookup in Hj as [b Hb].
  assert (E : a = b).
  { apply (NoDup_lookup (used m) a b p N); unfold used;
      rewrite list_lookup_fmap; [rewrite Ha | rewrite Hb]; reflexivity. }
  subst b. rewrite Ha in Hb. congruence.
Qed.

(** C3 (as amended). Calling [_getOrAssignPhrase] twice for an id returns
    the same phrase both times; the phrase is not empty, and neither the
    second call nor any later sequence of calls (for whatever ids)
    overwrites it. More generally an entry that holds a non-empty phrase,
    however it came to be set, is returned as it is and never overwritten,
    and a call leaves the entries of all other ids alone. While a phrase
    of the pool is held by no id, the phrase newly given to an id differs
    from the one another id holds, and distinct ids keep distinct phrases;
    so they do along any sequence of calls that involves at most ten ids
    in all. (An entry restored as the empty string is no assignment: see
    [empty_entry_is_overwritten].) *)
Theorem phrase_assignment_idempotent
  (m : gmap string string) (id : string) (k1 k2 : nat) (later : list (string * nat)) :
  let r1 := _getOrAssignPhrase id k1 m in
  let r2 := _getOrAssignPhrase id k2 (snd r1) in
  fst r2 = fst r1 /\ snd r2 = snd r1 /\
  snd r1 !! id = Some (fst r1) /\
  fst r1 <> EmptyString /\
  run_calls later (snd r1) !! id = Some (fst r1) /\
  (forall p, m !! id = Some p -> p <> EmptyString ->
     r1 = (p, m) /\ run_calls later m !! id = Some p) /\
  (forall j, j <> id -> snd r1 !! j = m !! j) /\
  (forall j k, j <> id ->
     snd r1 !! j = None \/ snd r1 !! j = Some EmptyString ->
     (exists q, q ∈ getInteractionPhrases /\ forall i, snd r1 !! i <> Some q) ->
     fst (_getOrAssignPhrase j k (snd r1)) <> fst r1) /\
  (distinct_phrases m ->
   (exists q, q ∈ getInteractionPhrases /\ forall i, m !! i <> Some q) ->
   distinct_phrases (snd r1)) /\
  (forall calls, distinct_phrases m -> size (dom m ∪ ids_of calls) <= 10 ->
                 distinct_phrases (run_calls calls m)).
Proof.
  intros r1 r2.
  assert (H : snd r1 !! id = Some (fst r1) /\ truthy_str (fst r1) = true /\
              forall j, j <> id -> snd r1 !! j = m !! j).
  { unfold r1. destruct (getOrAssign_cases id k1 m) as [(q & Hq & T & ->) | [_ ->]];
      cbn [fst snd].
    - auto.
    - split; [apply lookup_insert_eq |]. split; [apply chosen_truthy |].
      intros j N. apply lookup_insert_ne. congruence. }
  destruct H as (H1 & T & H2).
  assert (E : r2 = (fst r1, snd r1)).
  { unfold r2. destruct (getOrAssign_cases id k2 (snd r1)) as [(q & Hq & _ & ->) | [C _]].
    - congruence.
    - destruct C as [C | C]; rewrite H1 in C; [discriminate |].
      injection C as C. rewrite C in T. discriminate. }
  rewrite E. cbn [fst snd].
  split; [reflexivity |]. split; [reflexivity |]. split; [exact H1 |].
  split; [intros C; rewrite C in T; discriminate |].
  split; [apply run_calls_keeps; assumption |].
  split; [| split; [exact H2 |]].
  - intros p Hp Np.
    assert (Tp : truthy_str p = true).
    { unfold truthy_str. apply negb_true_iff, String.eqb_neq, Np. }
    split; [| apply run_calls_keeps; assumption].
    unfold r1, _getOrAssignPhrase. rewrite Hp, Tp. reflexivity.
  - split; [| split].
    + intros j k N U A. apply unused_available in A.
      destruct (getOrAssign_cases j k (snd r1)) as [(q & Hq & Tq & _) | [_ ->]]; cbn [fst].
      * destruct U as [U | U]; rewrite Hq in U; [discriminate |].
        injection U as ->. discriminate.
      * intros C. apply (chosen_unused k (snd r1) A id). rewrite C. exact H1.
    + intros D A. apply call_distinct; [exact D | apply unused_available, A].
    + intros calls. apply run_calls_distinct_room.
Qed.

(** A ledger in which two ids hold a phrase already: the seal is given the
    first phrase still unused, the flower (drawing the same number) the
    next one, and the four ids hold four phrases. *)
Lemma phrase_assignment_idempotent_witness :
  let m : gmap string string :=
    {[ "star" := "Hay momentos simples que contigo se vuelven mis favoritos.";
       "moon" := "A veces pienso que nos encontramos justo cuando más lo necesitábamos." ]} in
  fst (_getOrAssignPhrase "flower" 0 (snd (_getOrAssignPhrase "seal" 0 m)))
    <> fst (_getOrAssignPhrase "seal" 0 m) /\
  distinct_phrases (snd (_getOrAssignPhrase "seal" 0 m)) /\
  distinct_phrases (run_calls [("flower", 0); ("seal", 0); ("star", 4); ("flower", 9)] m).
Proof.
  intros m.
  assert (D : distinct_phrases m).
  { apply used_NoDup_distinct, (bool_decide_unpack _). vm_compute. exact I. }
  destruct (phrase_assignment_idempotent m "seal" 0 0 [])
    as (_ & _ & _ & _ & _ & _ & _ & H1 & H2 & H3).
  split; [| split].
  - apply H1.
    + discriminate.
    + left. vm_compute. reflexivity.
    + apply unused_available. vm_compute. discriminate.
  - apply H2; [exact D |]. apply unused_available. vm_compute. discriminate.
  - apply H3; [exact D |]. vm_compute. lia.
Defined.

(** C3 as stated fails: an assignment restored as the empty string (any
    string passes the test of line 1893) is falsy for [if (existing)],
    line 1941, and the next call for its id overwrites it. *)
Lemma empty_entry_is_overwritten :
  let m : gmap string string := {[ "star" := EmptyString ]} in
  m !! "star" = Some EmptyString /\
  snd (_getOrAssignPhrase "star" 0 m) !! "star"
    = Some "Hay momentos simples que contigo se vuelven mis favoritos." /\
  snd (_getOrAssignPhrase "star" 0 m) !! "star" <> m !! "star".
Proof. vm_compute. repeat split. discriminate. Qed.

End PhraseFacts.

(** ** The persistence boundary *)

Module StorageFacts.
Import JS Storage.

Lemma removeItems_lookup ks (ls : gmap string string) k :
  removeItems ks ls !! k = if decide (k ∈ ks) then None else ls !! k.
Proof.
  revert ls. induction ks as [| a ks IH]; intros ls; cbn.
  - rewrite decide_False by (apply not_elem_of_nil). reflexivity.
  - fold (removeItems ks (delete a ls)). rewrite IH.
    destruct (decide (k ∈ ks)) as [I | I].
    + rewrite decide_True by (right; exact I). reflexivity.
    + destruct (decide (k = a)) as [-> | N].
      * rewrite decide_True by left. apply lookup_delete_eq.
      * rewrite decide_False by (rewrite elem_of_cons; tauto).
        apply lookup_delete_ne. congruence.
Qed.

Lemma keysToRemove_spec marker (ls : gmap string string) k :
  k ∈ keysToRemove marker ls <-> is_Some (ls !! k) /\ truthy_str k = true /\ k <> marker.
Proof.
  unfold keysToRemove. rewrite list_elem_of_filter, list_elem_of_fmap. split.
  - intros [[T N] ([k' v] & -> & H)]. apply elem_of_map_to_list in H. cbn in *. eauto.
  - intros ([v H] & T & N). split; [auto |]. exists (k, v).
    split; [reflexivity | apply elem_of_map_to_list, H].
Qed.

Lemma truthy_str_spec k : truthy_str k = true <-> k <> EmptyString.
Proof.
  unfold truthy_str. rewrite negb_true_iff. split.
  - intros H ->. discriminate.
  - intros H. apply String.eqb_neq, H.
Qed.

(** The storage after the wipe: the marker holds ["1"], the entry under
    the empty key (which the loop skips) is as before, all else is gone. *)
Lemma wipe_lookup marker (ls : gmap string string) k :
  removeItems (keysToRemove marker (<[marker := "1"]> ls)) (<[marker := "1"]> ls) !! k =
  if decide (k = marker) then Some "1"
  else if decide (k = EmptyString) then ls !! EmptyString else None.
Proof.
  rewrite removeItems_lookup.
  destruct (decide (k = marker)) as [-> | N].
  - rewrite decide_False; [apply lookup_insert_eq |].
    rewrite keysToRemove_spec. tauto.
  - rewrite lookup_insert_ne by congruence.
    destruct (decide (k = EmptyString)) as [-> | E].
    + rewrite decide_False; [reflexivity |].
      rewrite keysToRemove_spec. intros (_ & T & _). discriminate.
    + destruct (ls !! k) as [v |] eqn:L.
      * rewrite decide_True; [reflexivity |].
        rewrite keysToRemove_spec, lookup_insert_ne, L by congruence.
        rewrite truthy_str_spec. eauto.
      * destruct (decide _); reflexivity.
Qed.

Lemma string_app_length (s1 s2 : string) :
  String.length (s1 +:+ s2) = (String.length s1 + String.length s2)%nat.
Proof. induction s1 as [| c s1 IH]; simpl; [reflexivity | f_equal; exact IH]. Qed.

Lemma marker_differs storageKey : resetOnceKey storageKey <> storageKey.
Proof.
  unfold resetOnceKey. intros H. apply (f_equal String.length) in H.
  rewrite string_app_length in H. cbn in H. lia.
Qed.

Lemma marker_nonempty storageKey : resetOnceKey storageKey <> EmptyString.
Proof.
  unfold resetOnceKey. intros H. apply (f_equal String.length) in H.
  rewrite string_app_length in H. cbn in H. lia.
Qed.

Lemma resetOnce_marked storageKey ls v :
  ls !! resetOnceKey storageKey = Some v -> truthy_str v = true ->
  resetOnce storageKey ls = ls.
Proof. intros H T. unfold resetOnce. rewrite H, T. reflexivity. Qed.

Lemma resetOnce_unmarked storageKey (ls : gmap string string) k :
  ls !! resetOnceKey storageKey = None \/ ls !! resetOnceKey storageKey = Some EmptyString ->
  resetOnce storageKey ls !! k =
  if decide (k = resetOnceKey storageKey) then Some "1"
  else if decide (k = EmptyString) then ls !! EmptyString else None.
Proof.
  intros [H | H]; unfold resetOnce; rewrite H; cbn [truthy_str String.eqb negb];
    apply wipe_lookup.
Qed.

Lemma resetOnce_idempotent storageKey ls :
  resetOnce storageKey (resetOnce storageKey ls) = resetOnce storageKey ls.
Proof.
  assert (H : exists v, resetOnce storageKey ls !! resetOnceKey storageKey = Some v /\
                        truthy_str v = true).
  { destruct (ls !! resetOnceKey storageKey) as [v |] eqn:L.
    - destruct (truthy_str v) eqn:T.
      + rewrite (resetOnce_marked _ _ _ L T). eauto.
      + exists "1". split; [| reflexivity]. rewrite resetOnce_unmarked.
        * rewrite decide_True by reflexivity. reflexivity.
        * right. rewrite L. f_equal. apply negb_false_iff, String.eqb_eq in T. exact T.
    - exists "1". split; [| reflexivity]. rewrite resetOnce_unmarked by auto.
      rewrite decide_True by reflexivity. reflexivity. }
  destruct H as (v & L & T). exact (resetOnce_marked _ _ _ L T).
Qed.

Section LoadFacts.
Variable JSON_parse : string -> option jsval.

Lemma load_storage storageKey ls :
  snd (load JSON_parse storageKey ls) = resetOnce storageKey ls.
Proof.
  unfold load. destruct (resetOnce storageKey ls !! storageKey) as [raw |]; [| reflexivity].
  destruct (negb (truthy_str raw)); [reflexivity |].
  destruct (JSON_parse raw) as [[] |]; reflexivity.
Qed.

(** What the reset does key by key. When the marker of the release is
    absent, [load()] stores the marker and removes every key that is
    neither the marker nor the empty string, the entry under the empty
    key staying as it was; for a non-empty storage key it returns the
    default record.  When the marker is present with a non-empty value, as
    [load()] itself writes it, [load()] leaves the storage as it is; so
    every load after the first, also after saves, removes nothing. *)
Theorem reset_once (storageKey : string) (ls : gmap string string) :
  let marker := resetOnceKey storageKey in
  (ls !! marker = None ->
   let r := load JSON_parse storageKey ls in
   snd r !! marker = Some "1" /\
   (forall k, k <> marker -> k <> EmptyString -> snd r !! k = None) /\
   snd r !! EmptyString = ls !! EmptyString /\
   (storageKey <> EmptyString -> fst r = defaultRecord)) /\
  (forall v, ls !! marker = Some v -> v <> EmptyString ->
   snd (load JSON_parse storageKey ls) = ls) /\
  (forall raws,
     let ls1 := snd (load JSON_parse storageKey ls) in
     let ls2 := fold_left (fun s raw => save storageKey raw s) raws ls1 in
     snd (load JSON_parse storageKey ls2) = ls2).
Proof.
  intros marker. split; [| split].
  - intros A r.
    assert (L : forall k, snd r !! k =
                  if decide (k = marker) then Some "1"
                  else if decide (k = EmptyString) then ls !! EmptyString else None).
    { intros k. unfold r. rewrite load_storage. apply resetOnce_unmarked. auto. }
    split; [| split; [| split]].
    + rewrite L, decide_True by reflexivity. reflexivity.
    + intros k N E. rewrite L, !decide_False by assumption. reflexivity.
    + rewrite L, decide_False, decide_True by (reflexivity || (symmetry; apply marker_nonempty)).
      reflexivity.
    + intros E. unfold r, load.
      assert (resetOnce storageKey ls !! storageKey = None) as ->; [| reflexivity].
      rewrite resetOnce_unmarked by auto.
      rewrite !decide_False by (assumption || (symmetry; apply marker_differs)).
      reflexivity.
  - intros v H N. rewrite load_storage. apply (resetOnce_marked _ _ v H).
    apply truthy_str_spec, N.
  - intros raws ls1 ls2. rewrite load_storage.
    assert (H : exists v, ls2 !! marker = Some v /\ truthy_str v = true).
    { unfold ls2. clear ls2.
      assert (H1 : exists v, ls1 !! marker = Some v /\ truthy_str v = true).
      { unfold ls1. rewrite load_storage.
        destruct (ls !! marker) as [v |] eqn:L.
        - destruct (truthy_str v) eqn:T.
          + rewrite (resetOnce_marked _ _ _ L T). eauto.
          + exists "1". split; [| reflexivity]. rewrite resetOnce_unmarked.
            * rewrite decide_True by reflexivity. reflexivity.
            * right. fold marker. rewrite L. f_equal.
              apply negb_false_iff, String.eqb_eq in T. exact T.
        - exists "1". split; [| reflexivity]. rewrite resetOnce_unmarked by auto.
          rewrite decide_True by reflexivity. reflexivity. }
      generalize dependent ls1. induction raws as [| raw raws IH]; intros ls1 H1; [exact H1 |].
      cbn [fold_left]. apply IH. unfold save.
      rewrite lookup_insert_ne by (intros E; symmetry in E; revert E; apply marker_differs).
      exact H1. }
    destruct H as (v & L & T). exact (resetOnce_marked _ _ _ L T).
Qed.

End LoadFacts.

Lemma reset_once_witness :
  snd (load (fun _ => None) "beautiful_emotional_game_v1"
            {[ "beautiful_emotional_game_v1" := "{}"; "other" := "x" ]}) !! "other" = None.
Proof.
  destruct (reset_once (fun _ => None) "beautiful_emotional_game_v1"
              {[ "beautiful_emotional_game_v1" := "{}"; "other" := "x" ]}) as [H _].
  destruct (H eq_refl) as (_ & H2 & _).
  apply H2; discriminate.
Defined.

(** C9. The wipe of the first load misses the empty-string key. The
    comment of line 68 announces that everything but the marker is wiped,
    and [if (!k) continue], line 75, guards against the [null] that
    [localStorage.key(i)] gives out of range; the empty string, a key a
    page can store under, is falsy as well. With the marker absent and
    the keys [""] and ["other"] stored, [load()] removes ["other"] and
    keeps the entry under [""]. *)
Lemma empty_key_survives_reset :
  let ls : gmap string string := {[ EmptyString := "x"; "other" := "y" ]} in
  ls !! resetOnceKey "beautiful_emotional_game_v1" = None /\
  snd (load (fun _ => None) "beautiful_emotional_game_v1" ls) !! EmptyString = Some "x" /\
  snd (load (fun _ => None) "beautiful_emotional_game_v1" ls) !! "other" = None.
Proof. vm_compute. repeat split. Qed.

End StorageFacts.

(** ** The finale timeline *)

Module TimelineFacts.
Import JS Timeline.

(** What one tick does: nothing, or it reveals the next node. *)
Lemma tick_cases t tl :
  _updateFinalTimeline t tl = tl \/
  ((revealed tl < length (nodes tl))%nat /\
   (due tl (revealed tl) <=? t - start tl)%float = true /\
   _updateFinalTimeline t tl =
     {| start := start tl; revealed := S (revealed tl);
        baseDelay := baseDelay tl; stepDelay := stepDelay tl;
        nodes := <[revealed tl := true]> (nodes tl) |}).
Proof.
  unfold _updateFinalTimeline.
  destruct (Nat.leb_spec (length (nodes tl)) (revealed tl)); [left; reflexivity |].
  destruct (due tl (revealed tl) <=? t - start tl)%float; [right; auto | left; reflexivity].
Qed.

Lemma update_keeps t tl i :
  nodes tl !! i = Some true -> nodes (_updateFinalTimeline t tl) !! i = Some true.
Proof.
  intros H. destruct (tick_cases t tl) as [-> | (L & _ & ->)]; [exact H |].
  cbn [nodes]. destruct (decide (revealed tl = i)) as [<- | N].
  - apply list_lookup_insert_eq, L.
  - rewrite list_lookup_insert_ne by exact N. exact H.
Qed.

Lemma update_monotone t tl :
  (revealed tl <= revealed (_updateFinalTimeline t tl) <= S (revealed tl))%nat /\
  length (nodes (_updateFinalTimeline t tl)) = length (nodes tl).
Proof.
  destruct (tick_cases t tl) as [-> | (L & _ & ->)]; cbn [revealed nodes].
  - split; [lia | reflexivity].
  - split; [lia | apply length_insert].
Qed.

Lemma run_keeps ts tl i :
  nodes tl !! i = Some true -> nodes (run ts tl) !! i = Some true.
Proof.
  revert tl. induction ts as [| t ts IH]; intros tl H; [exact H |].
  apply IH, update_keeps, H.
Qed.

Lemma run_monotone ts tl :
  (revealed tl <= revealed (run ts tl) <= revealed tl + length ts)%nat.
Proof.
  revert tl. induction ts as [| t ts IH]; intros tl; cbn [run fold_left length]; [lia |].
  fold (run ts (_updateFinalTimeline t tl)).
  pose proof (IH (_updateFinalTimeline t tl)). pose proof (update_monotone t tl). lia.
Qed.

Lemma start_prefix_visible reduced n now : prefix_visible (_startFinalTimeline reduced n now).
Proof.
  split; cbn; [lia |]. intros i L. rewrite length_replicate in L.
  rewrite bool_decide_eq_false_2 by lia. apply lookup_replicate_2, L.
Qed.

Lemma update_prefix_visible t tl : prefix_visible tl -> prefix_visible (_updateFinalTimeline t tl).
Proof.
  intros [B P]. destruct (tick_cases t tl) as [-> | (L & _ & ->)]; [split; assumption |].
  split; cbn [revealed nodes]; rewrite length_insert; [lia |].
  intros i Hi. destruct (decide (revealed tl = i)) as [<- | N].
  - rewrite list_lookup_insert_eq by exact L. rewrite bool_decide_eq_true_2 by lia. reflexivity.
  - rewrite list_lookup_insert_ne, (P i Hi) by exact N. f_equal.
    apply bool_decide_ext. lia.
Qed.

Lemma run_prefix_visible ts tl : prefix_visible tl -> prefix_visible (run ts tl).
Proof.
  revert tl. induction ts as [| t ts IH]; intros tl H; [exact H |].
  apply IH, update_prefix_visible, H.
Qed.

(** C7 (as amended). On each tick the finale timeline reveals at most one
    segment: the next one in order, and only if its due time
    [baseDelay + index * stepDelay] after the start has elapsed; otherwise
    the tick changes nothing.  Reveals are monotonic: over any sequence of
    ticks the count of revealed segments never decreases, grows by at most
    one per tick, a visible segment stays visible, and from a fresh
    timeline the visible segments are exactly the first [revealed] ones. *)
Theorem reveal_one_per_tick (tl : Timeline) (t : float) (ts : list float) :
  (_updateFinalTimeline t tl = tl \/
   ((revealed tl < length (nodes tl))%nat /\
    (due tl (revealed tl) <=? t - start tl)%float = true /\
    revealed (_updateFinalTimeline t tl) = S (revealed tl) /\
    nodes (_updateFinalTimeline t tl) = <[revealed tl := true]> (nodes tl))) /\
  ((revealed tl < length (nodes tl))%nat ->
   (due tl (revealed tl) <=? t - start tl)%float = true ->
   nodes (_updateFinalTimeline t tl) !! revealed tl = Some true) /\
  (revealed tl <= revealed (run ts tl) <= revealed tl + length ts)%nat /\
  (forall i, nodes tl !! i = Some true -> nodes (run ts tl) !! i = Some true) /\
  (forall reduced n now, prefix_visible (run ts (_startFinalTimeline reduced n now))).
Proof.
  split; [| split; [| split; [| split]]].
  - destruct (tick_cases t tl) as [H | (L & D & ->)]; [left; exact H |].
    right. cbn. auto.
  - intros L D. unfold _updateFinalTimeline.
    rewrite (proj2 (Nat.leb_gt _ _) L), D. cbn. apply list_lookup_insert_eq, L.
  - apply run_monotone.
  - intros i. apply run_keeps.
  - intros reduced n now. apply run_prefix_visible, start_prefix_visible.
Qed.

Lemma reveal_one_per_tick_witness :
  nodes (_updateFinalTimeline 1000 (_startFinalTimeline false 6 0)) !! 0%nat = Some true.
Proof.
  destruct (reveal_one_per_tick (_startFinalTimeline false 6 0) 1000 []) as (_ & H & _).
  apply H; [cbn; lia | reflexivity].
Defined.

(** C7 as stated fails: when the first tick comes ten seconds after the
    start, five segments are due (900, 3000, 5100, 7200 and 9300 ms), yet
    the tick reveals the first only. *)
Lemma late_tick_reveals_one :
  let tl := _startFinalTimeline false (length getFinalMessageParagraphs) 0 in
  (due tl 1 <=? 10000 - start tl)%float = true /\
  (due tl 4 <=? 10000 - start tl)%float = true /\
  nodes (_updateFinalTimeline 10000 tl) = [true; false; false; false; false; false] /\
  nodes (_updateFinalTimeline 10000 tl) !! 1%nat = Some false.
Proof. vm_compute. repeat split. Qed.

End TimelineFacts.

(** ** Restore and interaction *)

Module AppFacts.
Import JS App.

(** C6 (as amended). A tap on an already-discovered object, in the world
    scene with no diary and no mini-game open, opens no mini-game and
    leaves [assignedPhrases] unchanged; while the game is not yet complete
    and the completion prompt is hidden it shows the acknowledgment
    "Ya lo tocaste antes..." held for 1500 ms; once every object is
    discovered, or while the completion prompt is showing, the tap is
    ignored altogether. *)
Theorem retap_discovered (a : App) (i : nat) (obj : InteractiveObject) (now : float) :
  objects a !! i = Some obj ->
  isDiscovered obj = true ->
  scene (state a) = World ->
  diaryOpen a = false ->
  MiniGames.isOpen (miniGames a) = false ->
  let a' := _handleInteract i now a in
  miniGames a' = miniGames a /\
  waiting a' = waiting a /\
  assignedPhrases a' = assignedPhrases a /\
  (isComplete (state a) = false -> completeHidden a = true ->
   messages a' = show alreadyTouched 1500 now) /\
  (isComplete (state a) = true \/ completeHidden a = false -> a' = a).
Proof.
  intros Ho Hd Hs Hy Hm a'. unfold a', _handleInteract.
  rewrite Ho, Hs, Hy, Hm, Hd. cbn [orb negb].
  destruct (isComplete (state a)); [repeat split; auto; discriminate |].
  destruct (completeHidden a); cbn [negb].
  - repeat split. intros [H | H]; discriminate.
  - repeat split; auto; discriminate.
Qed.

Lemma retap_discovered_witness :
  messages (_handleInteract 1 5000 starFound) = show alreadyTouched 1500 5000.
Proof.
  destruct (retap_discovered starFound 1
              {| id := "star"; idleSeed := 1.8; isDiscovered := true;
                 _clickAnim := (false, 0%float) |} 5000
              eq_refl eq_refl eq_refl eq_refl eq_refl) as (_ & _ & _ & H & _).
  apply H; reflexivity.
Defined.

(** C6 as stated fails: once all nine objects are discovered, a tap on a
    discovered object in the world scene shows no acknowledgment; the
    message box stays as it was. *)
Lemma retap_after_completion_is_silent :
  scene (state completedWorld) = World /\
  diaryOpen completedWorld = false /\
  MiniGames.isOpen (miniGames completedWorld) = false /\
  (isDiscovered <$> objects completedWorld !! 1%nat) = Some true /\
  _handleInteract 1 5000 completedWorld = completedWorld /\
  messages (_handleInteract 1 5000 completedWorld) <> show alreadyTouched 1500 5000.
Proof.
  assert (H : _handleInteract 1 5000 completedWorld = completedWorld) by reflexivity.
  repeat split; try reflexivity. rewrite H. discriminate.
Qed.

Section RestoreFacts.
Variable JSON_parse : string -> option Storage.jsval.
Variable String_of : Storage.jsval -> option string.


(** The loop over the saved ids throws exactly when a conversion does. *)
Lemma addAll_outcome vs s :
  snd (addAll String_of vs s) = Audio.Threw <-> Exists (fun v => String_of v = None) vs.
Proof.
  revert s. induction vs as [| v vs IH]; intros s; cbn [addAll].
  - split; [discriminate | intros H; inversion H].
  - destruct (String_of v) eqn:E.
    + rewrite IH, Exists_cons. split; [auto | intros [H | H]; [congruence | exact H]].
    + split; [intros _; left; exact E | reflexivity].
Qed.

(** In the constructor [_restore()] throws exactly when [String()] throws
    on an entry of the saved unlock order or of the saved ids: the audio
    controller is not enabled yet, so [setMasterVolume] touches no
    element. *)
Lemma restore_fresh_outcome page draw ls :
  snd (_restore JSON_parse String_of draw (fresh page ls)) = Audio.Threw <->
  Exists (fun v => String_of v = None)
    (Storage.unlockedOrder (fst (Storage.load JSON_parse storageKey ls)) ++
     Storage.discoveredIds (fst (Storage.load JSON_parse storageKey ls))).
Proof.
  unfold _restore. change (localStorage (fresh page ls)) with ls.
  destruct (Storage.load JSON_parse storageKey ls) as [saved ls1]. cbn [fst].
  assert (E : Audio.enabled (Audio.setMuted (Storage.muted saved) (audio (fresh page ls)))
              = false)
    by (destruct (Storage.muted saved); reflexivity).
  unfold Audio.setMasterVolume. cbn [Audio.enabled]. rewrite E. cbn [negb].
  rewrite Exists_app.
  destruct (stringAll String_of (Storage.unlockedOrder saved)) as [order1 |] eqn:M.
  - pose proof (addAll_outcome (Storage.discoveredIds saved)
                  (discovered (state (fresh page ls)))) as A.
    destruct (addAll String_of (Storage.discoveredIds saved)
                (discovered (state (fresh page ls)))) as [d o].
    cbn [snd] in A. destruct o; cbn [snd].
    + split; [discriminate |]. intros [H | H].
      * apply mapM_None in H. unfold stringAll in M. congruence.
      * apply A in H. discriminate.
    + split; [intros _; right; apply A; reflexivity | reflexivity].
  - split; [| reflexivity]. intros _. left. apply mapM_None. exact M.
Qed.

Lemma restore_fresh_returns page draw ls :
  Forall (fun v => is_Some (String_of v))
    (Storage.unlockedOrder (fst (Storage.load JSON_parse storageKey ls)) ++
     Storage.discoveredIds (fst (Storage.load JSON_parse storageKey ls))) ->
  snd (_restore JSON_parse String_of draw (fresh page ls)) = Audio.Returned.
Proof.
  intros F. destruct (snd (_restore JSON_parse String_of draw (fresh page ls))) eqn:O;
    [reflexivity |].
  apply restore_fresh_outcome, Exists_exists in O as (v & Hv & N).
  rewrite Forall_forall in F. destruct (F v Hv) as [x Hx]. congruence.
Qed.

(** When it does not throw, the constructor keeps what [_restore()] left,
    the scene apart. *)
Lemma constructor_returns page draw ls :
  snd (_restore JSON_parse String_of draw (fresh page ls)) = Audio.Returned ->
  exists a, constructor JSON_parse String_of page draw ls = Some a /\
    scene (state a) = Intro /\ shown a = Intro /\
    discovered (state a) =
      discovered (state (fst (_restore JSON_parse String_of draw (fresh page ls)))) /\
    seenFinal a = seenFinal (fst (_restore JSON_parse String_of draw (fresh page ls))) /\
    objects a = objects (fst (_restore JSON_parse String_of draw (fresh page ls))) /\
    assignedPhrases a =
      assignedPhrases (fst (_restore JSON_parse String_of draw (fresh page ls))).
Proof.
  unfold constructor.
  destruct (_restore JSON_parse String_of draw (fresh page ls)) as [a o].
  cbn [snd fst]. intros ->. eexists. split; [reflexivity |]. cbn. auto 10.
Qed.




End RestoreFacts.

(** A reload after the finale: all nine objects saved as discovered and
    [seenFinal] set. The progress is restored, the game is complete, and
    the scene is the intro. *)
Example reload_after_finale :
  let saved :=
    Storage.JObj [ ("discoveredIds", Storage.JArr (Storage.JStr <$> (fst <$> getMemories)));
                   ("seenFinal", Storage.JBool true) ] in
  let ls : gmap string string :=
    {[ Storage.resetOnceKey storageKey := "1"; storageKey := "saved" ]} in
  (fun a => (scene (state a), shown a, isComplete (state a), seenFinal a, unlockedOrder a))
    <$> constructor (fun _ => Some saved) str fullPage (fun k => k) ls
  = Some (Intro, Intro, true, true, fst <$> getMemories).
Proof. vm_compute. reflexivity. Qed.


(** Saved ids that [String()] cannot convert: [{"toString": 1}] has a
    [toString] that is no function. [_restore()] throws at line 1904, the
    constructor is abandoned before it reaches line 1392, and the state it
    built is still at the intro. *)
Example unconvertible_id_aborts_startup :
  let saved :=
    Storage.JObj [ ("discoveredIds",
                    Storage.JArr [Storage.JStr "star";
                                  Storage.JObj [("toString", Storage.JNum 1)]]);
                   ("seenFinal", Storage.JBool true) ] in
  let ls : gmap string string :=
    {[ Storage.resetOnceKey storageKey := "1"; storageKey := "saved" ]} in
  let r := _restore (fun _ => Some saved) str (fun k => k) (fresh fullPage ls) in
  constructor (fun _ => Some saved) str fullPage (fun k => k) ls = None /\
  snd r = Audio.Threw /\
  scene (state (fst r)) = Intro /\ shown (fst r) = Intro /\
  discovered (state (fst r)) = ["star"].
Proof. vm_compute. repeat split. Qed.

(** An assignment restored as the empty string does not last: the loop of
    lines 1908-1910 gives the star a phrase of the pool in its place. *)
Example restored_empty_phrase_is_replaced :
  let saved :=
    Storage.JObj [ ("discoveredIds", Storage.JArr [Storage.JStr "star"]);
                   ("assignedPhrases", Storage.JObj [("star", Storage.JStr EmptyString)]) ] in
  let ls : gmap string string :=
    {[ Storage.resetOnceKey storageKey := "1"; storageKey := "saved" ]} in
  (fun a => assignedPhrases a !! "star")
    <$> constructor (fun _ => Some saved) str fullPage (fun k => k) ls
  = Some (Some "Hay momentos simples que contigo se vuelven mis favoritos.").
Proof. vm_compute. reflexivity. Qed.

(** A tap on the undiscovered flower opens a mini-game and suspends; when
    its promise resolves to [true] the flower is discovered, gets a phrase
    other than the star's, and the state is saved; when it resolves to
    [false] nothing changes. *)
Example unlock_flow :
  let a1 := _handleInteract 0 1000 starFound in
  let a2 := afterMiniGame (fun _ => "saved") 0 true 7 9000 a1 in
  MiniGames.isOpen (miniGames a1) = true /\
  waiting a1 = [(0%nat, 0%nat)] /\
  assignedPhrases a1 = assignedPhrases starFound /\
  discovered (state a2) = ["star"; "flower"] /\
  unlockedOrder a2 = ["star"; "flower"] /\
  assignedPhrases a2 !! "flower"
    = Some "No importa qué estemos haciendo, contigo siempre se siente mejor." /\
  assignedPhrases a2 !! "star" = assignedPhrases starFound !! "star" /\
  messages a2
    = show "No importa qué estemos haciendo, contigo siempre se siente mejor." 2800 9000 /\
  localStorage a2 !! storageKey = Some "saved" /\
  afterMiniGame (fun _ => "saved") 0 false 7 9000 a1 = a1.
Proof. vm_compute. repeat split. Qed.

End AppFacts.

(* ===================================================================== *)
(** * Part III: further properties                                        *)
(* ===================================================================== *)

(** ** MiniGameManager: what holds in every reachable state *)

Module MiniGameMore.
Import JS MiniGames MiniGameFacts.

Lemma mounted_after_app tr1 tr2 :
  mounted_after (tr1 ++ tr2) =
  fold_left (fun l e => match e with
                        | Mounted g => l ++ [g]
                        | Unmounted g => List.remove Nat.eq_dec g l
                        | Resolved _ _ => l
                        end) tr2 (mounted_after tr1).
Proof. unfold mounted_after. apply fold_left_app. Qed.


Lemma close_mounted w :
  active_mounted w -> mounted_after (trace (close w)) = [] /\ _active (mgr (close w)) = None.
Proof.
  unfold active_mounted, close. cbn [trace mgr _active]. intros H.
  split; [| reflexivity].
  destruct (_active (mgr w)) as [g |]; [| exact H].
  rewrite mounted_after_app, H. cbn. destruct (Nat.eq_dec g g); [reflexivity | congruence].
Qed.

Lemma finish_close_trace ok w :
  exists w0, _active (mgr w0) = _active (mgr w) /\ trace w0 = trace w /\
             trace (_finish ok w) = trace (close w0) ++
               match _resolve (mgr w) with Some r => [Resolved r ok] | None => [] end.
Proof.
  unfold _finish. destruct (_resolve (mgr w)) as [r |] eqn:R.
  - eexists. split; [| split]; [| | reflexivity]; reflexivity.
  - exists w. rewrite app_nil_r. auto.
Qed.

(** Extending a trace keeps [settled_unmounted] when every resolver call
    of the extension comes with nothing mounted. *)
Lemma unmounted_app tr suffix :
  (forall tr1 tr2 p ok, tr = tr1 ++ Resolved p ok :: tr2 -> mounted_after tr1 = []) ->
  (forall s1 s2 p ok, suffix = s1 ++ Resolved p ok :: s2 -> mounted_after (tr ++ s1) = []) ->
  forall tr1 tr2 p ok, tr ++ suffix = tr1 ++ Resolved p ok :: tr2 -> mounted_after tr1 = [].
Proof.
  intros H1 H2 tr1 tr2 p ok E.
  apply app_eq_app in E as [l [[E1 E2] | [E1 E2]]].
  - destruct l as [| e l].
    + rewrite app_nil_r in E1. subst tr1. cbn in E2.
      specialize (H2 [] tr2 p ok). rewrite app_nil_r in H2. apply H2. symmetry. exact E2.
    + cbn in E2. injection E2 as <- E2. apply (H1 tr1 l p ok). exact E1.
  - subst tr1. apply (H2 l tr2 p ok). exact E2.
Qed.

Lemma close_suffix w :
  exists s, trace (close w) = trace w ++ s /\ forall s1 s2 p ok, s <> s1 ++ Resolved p ok :: s2.
Proof.
  unfold close. cbn [trace]. destruct (_active (mgr w)) as [g |].
  - exists [Unmounted g]. split; [reflexivity |].
    intros [| e [| e' s1]] s2 p ok; cbn; congruence.
  - exists []. split; [symmetry; apply app_nil_r |]. intros [| e s1] s2 p ok; cbn; congruence.
Qed.

Lemma unmounted_close w : settled_unmounted w -> settled_unmounted (close w).
Proof.
  intros H. destruct (close_suffix w) as (s & E & N).
  unfold settled_unmounted. rewrite E. apply unmounted_app; [exact H |].
  intros s1 s2 p ok Es. destruct (N _ _ _ _ Es).
Qed.

Lemma unmounted_finish ok w :
  active_mounted w -> settled_unmounted w -> settled_unmounted (_finish ok w).
Proof.
  intros A H. destruct (finish_close_trace ok w) as (w0 & Ea & Et & E).
  assert (A0 : active_mounted w0) by (unfold active_mounted; rewrite Et, Ea; exact A).
  assert (H0 : settled_unmounted w0) by (unfold settled_unmounted; rewrite Et; exact H).
  unfold settled_unmounted. rewrite E. apply unmounted_app; [apply unmounted_close, H0 |].
  intros s1 s2 p q Es. destruct (_resolve (mgr w)) as [r |].
  - destruct s1 as [| e [| e' s1]]; cbn in Es; try congruence.
    rewrite app_nil_r. apply close_mounted, A0.
  - destruct s1; discriminate.
Qed.

Lemma active_mounted_finish ok w : active_mounted w -> active_mounted (_finish ok w).
Proof.
  intros H. destruct (finish_close_trace ok w) as (w0 & A & T & E).
  assert (H0 : active_mounted w0) by (unfold active_mounted; rewrite T, A; exact H).
  destruct (close_mounted w0 H0) as [C _].
  destruct (finish_mgr ok w) as (Hm & _).
  unfold active_mounted. rewrite E, Hm, mounted_after_app, C. cbn.
  destruct (_resolve (mgr w)); reflexivity.
Qed.


Lemma bracketed_finish ok w : bracketed w -> bracketed (_finish ok w).
Proof.
  intros [A H]. split; [apply active_mounted_finish, A | apply unmounted_finish; assumption].
Qed.

Lemma bracketed_step e w : bracketed w -> bracketed (step e w).
Proof.
  intros B. destruct e as [g t | g | g | t]; cbn [step].
  - destruct B as [A H]. destruct (close_mounted w A) as [C _]. split.
    + unfold active_mounted, open. cbn [fst trace mgr _active].
      rewrite mounted_after_app, C. reflexivity.
    + unfold settled_unmounted, open. cbn [fst trace].
      apply unmounted_app; [apply unmounted_close, H |].
      intros [| e [| e' s1]] s2 p ok; cbn; congruence.
  - unfold onComplete. destruct (existsb _ _); [apply bracketed_finish, B | exact B].
  - unfold onCancel. destruct (existsb _ _); [apply bracketed_finish, B | exact B].
  - unfold cancel. destruct (_ && _); [exact B | apply bracketed_finish, B].
Qed.

Lemma bracketed_init : bracketed init.
Proof.
  split; [reflexivity |]. intros [| e tr1] tr2 p ok E; discriminate.
Qed.

Lemma bracketed_run es w : bracketed w -> bracketed (run es w).
Proof.
  revert w. induction es as [| e es IH]; intros w H; [exact H |].
  apply IH, bracketed_step, H.
Qed.

(** X1. At every moment at most one mini-game is mounted, and [isOpen()]
    tells whether one is: in every state the manager can reach, the
    descriptors mounted and not unmounted since are the one in [_active],
    or none. *)
Theorem one_mini_game_at_a_time (hist : list event) :
  let w := run hist init in
  mounted_after (trace w) =
    match _active (mgr w) with Some g => [g] | None => [] end /\
  length (mounted_after (trace w)) <= 1 /\
  (isOpen w = true <-> mounted_after (trace w) <> []).
Proof.
  intros w. assert (H : active_mounted w) by (apply bracketed_run, bracketed_init).
  unfold active_mounted in H. rewrite H. unfold isOpen.
  destruct (_active (mgr w)); cbn; repeat split; auto; try discriminate; try congruence.
Qed.

(** X2. The manager closes before it settles: whenever the resolver of a
    promise is called, in any run, every descriptor mounted before has
    been unmounted. *)
Theorem unmount_precedes_resolution
  (hist : list event) (tr1 tr2 : list effect) (p : promise) (ok : bool) :
  trace (run hist init) = tr1 ++ Resolved p ok :: tr2 ->
  mounted_after tr1 = [].
Proof.
  intros H.
  assert (B : bracketed (run hist init)) by apply bracketed_run, bracketed_init.
  destruct B as [_ S]. exact (S tr1 tr2 p ok H).
Qed.

Lemma unmount_precedes_resolution_witness :
  mounted_after [Mounted 7; Unmounted 7] = [].
Proof.
  apply (unmount_precedes_resolution [Open 7 0%float; Complete 7]
           [Mounted 7; Unmounted 7] [] 0 true).
  reflexivity.
Defined.


Lemma once_finish ok w : once w -> once (_finish ok w).
Proof.
  intros [W H]. split; [apply wf_finish, W |].
  intros p. rewrite finish_trace. destruct (decide _) as [R | R].
  - destruct W as [W1 _]. apply W1 in R as [_ R]. rewrite R. cbn. lia.
  - rewrite app_nil_r. apply H.
Qed.

Lemma once_step e w : once w -> once (step e w).
Proof.
  intros O. destruct e as [g t | g | g | t]; cbn [step].
  - split; [apply (wf_step (Open g t)), O |]. intros p. rewrite open_trace. apply O.
  - unfold onComplete. destruct (existsb _ _); [apply once_finish, O | exact O].
  - unfold onCancel. destruct (existsb _ _); [apply once_finish, O | exact O].
  - unfold cancel. destruct (_ && _); [exact O | apply once_finish, O].
Qed.

Lemma once_run es w : once w -> once (run es w).
Proof.
  revert w. induction es as [| e es IH]; intros w H; [exact H |].
  apply IH, once_step, H.
Qed.

(** X3. In any run of the manager no resolver is called twice, and none is
    called for a promise that [open] has not yet returned. *)
Theorem no_promise_resolved_twice (hist : list event) (p : promise) :
  length (resolutions p (trace (run hist init))) <= 1 /\
  (nextPromise (run hist init) <= p -> resolutions p (trace (run hist init)) = []).
Proof.
  assert (O : once (run hist init)).
  { apply once_run. split; [apply wf_init |]. intros q. cbn. lia. }
  split; [apply O |]. destruct O as [[_ W2] _]. apply W2.
Qed.

(** X4. The manager does not look at which descriptor signals: when a
    descriptor opened earlier calls its [onComplete] after another game was
    opened, the newer promise resolves to [true] and the newer game is
    closed. *)
Theorem stale_completion_settles_newer (hist : list event) (g1 g2 : game) (t : float) :
  In g1 (bound (run hist init)) ->
  let w1 := fst (open g2 t (run hist init)) in
  let p2 := snd (open g2 t (run hist init)) in
  resolutions p2 (trace (onComplete g1 w1)) = [true] /\
  isOpen (onComplete g1 w1) = false.
Proof.
  intros Hb w1 p2.
  assert (W : wf (run hist init)) by (apply wf_run, wf_init).
  assert (B : existsb (Nat.eqb g1) (bound w1) = true).
  { apply existsb_exists. exists g1. split; [right; exact Hb | apply Nat.eqb_refl]. }
  unfold onComplete. rewrite B. split.
  - rewrite finish_trace. unfold w1 at 1. rewrite open_trace.
    destruct W as [_ W2]. unfold p2. cbn [snd open close nextPromise]. rewrite W2 by lia.
    cbn. rewrite decide_True by reflexivity. reflexivity.
  - unfold isOpen. destruct (finish_mgr true w1) as (Hm & _). rewrite Hm. reflexivity.
Qed.

Lemma stale_completion_settles_newer_witness :
  In 1 (bound (run [Open 1 0%float] init)) /\
  resolutions (snd (open 2 5000%float (run [Open 1 0%float] init)))
    (trace (onComplete 1 (fst (open 2 5000%float (run [Open 1 0%float] init))))) = [true].
Proof.
  split; [left; reflexivity |].
  apply (stale_completion_settles_newer [Open 1 0%float] 1 2 5000%float).
  left; reflexivity.
Defined.

End MiniGameMore.

(** ** _getOrAssignPhrase: the pool of ten phrases *)

Module PhraseMore.
Import JS Phrases PhraseFacts.

(** Fewer entries than phrases: one is still unused. *)
Lemma available_remains (m : gmap string string) : size m < 10 -> available m <> [].
Proof.
  intros S A.
  assert (H : getInteractionPhrases ⊆+ used m).
  { apply NoDup_submseteq; [apply pool_NoDup |]. intros p Hp.
    destruct (decide (p ∈ used m)) as [U | U]; [exact U |].
    assert (Hin : p ∈ available m) by (unfold available; apply list_elem_of_filter; auto).
    rewrite A in Hin. inversion Hin. }
  apply submseteq_length in H. unfold used in H.
  rewrite length_fmap, length_map_to_list, pool_length in H. lia.
Qed.

(** Distinct phrases of the pool: no more entries than phrases. *)
Lemma distinct_size (m : gmap string string) :
  distinct_phrases m -> in_pool m -> size m <= 10.
Proof.
  intros D P.
  assert (N : NoDup (used m)).
  { unfold used. apply NoDup_fmap_2_strong; [| apply NoDup_map_to_list].
    intros [i p] [j q] Hi Hj E. cbn in E. subst q.
    apply elem_of_map_to_list in Hi, Hj.
    destruct (decide (i = j)) as [-> | Nij]; [reflexivity |].
    destruct (D i j p Nij Hi Hj). }
  assert (H : used m ⊆+ getInteractionPhrases).
  { apply NoDup_submseteq; [exact N |]. intros p Hp.
    apply used_spec in Hp as [i Hi]. exact (P i p Hi). }
  apply submseteq_length in H. unfold used in H.
  rewrite length_fmap, length_map_to_list, pool_length in H. exact H.
Qed.

Lemma call_in_pool id draw m : in_pool m -> in_pool (snd (_getOrAssignPhrase id draw m)).
Proof.
  intros P. destruct (getOrAssign_cases id draw m) as [(q & _ & _ & ->) | [_ ->]];
    cbn [snd]; [exact P |].
  intros i p Hi. destruct (decide (i = id)) as [-> | N].
  - rewrite lookup_insert_eq in Hi. injection Hi as <-. apply chosen_pool.
  - rewrite lookup_insert_ne in Hi by congruence. exact (P i p Hi).
Qed.

Lemma run_calls_dom calls m : dom (run_calls calls m) = dom m ∪ ids_of calls.
Proof.
  revert m. induction calls as [| [j k] calls IH]; intros m.
  - unfold ids_of. cbn. set_solver.
  - change (run_calls ((j, k) :: calls) m)
      with (run_calls calls (snd (_getOrAssignPhrase j k m))).
    rewrite IH, call_dom. unfold ids_of. cbn. set_solver.
Qed.

Lemma run_calls_in_pool calls m : in_pool m -> in_pool (run_calls calls m).
Proof.
  revert m. induction calls as [| [j k] calls IH]; intros m P; [exact P |].
  apply IH, call_in_pool, P.
Qed.

Lemma pool_truthy_elem p : p ∈ getInteractionPhrases -> truthy_str p = true.
Proof. pose proof pool_truthy as T. rewrite Forall_forall in T. apply T. Qed.

Lemma run_calls_room calls m :
  in_pool m -> distinct_phrases m -> size (dom m ∪ ids_of calls) <= 10 ->
  distinct_phrases (run_calls calls m).
Proof.
  revert m. induction calls as [| [j k] calls IH]; intros m P D S; [exact D |].
  change (run_calls ((j, k) :: calls) m)
    with (run_calls calls (snd (_getOrAssignPhrase j k m))).
  apply IH.
  - apply call_in_pool, P.
  - destruct (getOrAssign_cases j k m) as [(q & _ & _ & E) | [C E]].
    + rewrite E. exact D.
    + apply call_distinct; [exact D |]. apply available_remains.
      assert (Hj : j ∉ dom m).
      { destruct C as [C | C]; [apply not_elem_of_dom, C |].
        apply P, pool_truthy_elem in C. discriminate. }
      rewrite <- size_dom.
      assert (H : size ({[ j ]} ∪ dom m) <= 10).
      { etransitivity; [| exact S]. apply subseteq_size. unfold ids_of. cbn. set_solver. }
      rewrite size_union, size_singleton in H by set_solver. lia.
  - rewrite call_dom. etransitivity; [| exact S]. apply Nat.eq_le_incl. f_equal.
    unfold ids_of. cbn. set_solver.
Qed.

(** X5. Starting from an empty ledger, as long as phrases are asked for at
    most ten different ids, whatever the draws and however often an id is
    asked again, no two ids hold the same phrase; the ledger holds exactly
    the ids asked for, each with a phrase of the pool. *)
Theorem distinct_while_pool_lasts (calls : list (string * nat)) :
  size (ids_of calls) <= 10 ->
  distinct_phrases (run_calls calls ∅) /\
  dom (run_calls calls ∅) = ids_of calls /\
  in_pool (run_calls calls ∅).
Proof.
  intros S.
  assert (P : in_pool ∅) by (intros i p H; rewrite lookup_empty in H; discriminate).
  split; [| split].
  - apply run_calls_room; [exact P | |].
    + intros i j p _ H. rewrite lookup_empty in H. discriminate.
    + rewrite dom_empty_L, (left_id_L ∅ (∪)). exact S.
  - rewrite run_calls_dom, dom_empty_L. set_solver.
  - apply run_calls_in_pool, P.
Qed.

Lemma repeated_image {A B} `{EqDecision B} (f : A -> B) (l : list A) :
  NoDup l -> ~ NoDup (f <$> l) ->
  exists x y, x ∈ l /\ y ∈ l /\ x <> y /\ f x = f y.
Proof.
  induction l as [| a l IH]; intros N H; [destruct H; constructor |].
  apply NoDup_cons in N as [Na N].
  destruct (decide (f a ∈ f <$> l)) as [I | I].
  - apply list_elem_of_fmap in I as (y & E & Hy).
    exists a, y. repeat split; [left | right; exact Hy | congruence | exact E].
  - destruct IH as (x & y & Hx & Hy & Nxy & E); [exact N | |].
    + intros C. apply H. cbn. apply NoDup_cons. auto.
    + exists x, y. repeat split; [right; exact Hx | right; exact Hy | exact Nxy | exact E].
Qed.

(** X6. The pool has ten phrases: once phrases have been asked for more
    than ten different ids, two ids hold the same phrase. *)
Theorem pool_exhausted_repeats (calls : list (string * nat)) :
  10 < size (ids_of calls) ->
  exists i j p, i <> j /\ run_calls calls ∅ !! i = Some p /\ run_calls calls ∅ !! j = Some p.
Proof.
  intros S. set (m := run_calls calls ∅).
  assert (P : in_pool m).
  { apply run_calls_in_pool. intros i p H. rewrite lookup_empty in H. discriminate. }
  assert (Sm : 10 < size m).
  { rewrite <- size_dom. unfold m. rewrite run_calls_dom, dom_empty_L, (left_id_L ∅ (∪)). exact S. }
  assert (N : ~ NoDup (used m)).
  { intros N.
    assert (H : used m ⊆+ getInteractionPhrases).
    { apply NoDup_submseteq; [exact N |]. intros p Hp.
      apply used_spec in Hp as [i Hi]. exact (P i p Hi). }
    apply submseteq_length in H. unfold used in H.
    rewrite length_fmap, length_map_to_list, pool_length in H. lia. }
  apply repeated_image in N as ([i p] & [j q] & Hx & Hy & Nxy & E);
    [| apply NoDup_map_to_list].
  cbn in E. subst q. apply elem_of_map_to_list in Hx, Hy.
  exists i, j, p. split; [congruence | auto].
Qed.

Lemma distinct_while_pool_lasts_witness :
  distinct_phrases
    (run_calls [("star", 7); ("flower", 3); ("star", 1); ("moon", 12)] ∅).
Proof.
  apply (distinct_while_pool_lasts [("star", 7); ("flower", 3); ("star", 1); ("moon", 12)]).
  vm_compute. lia.
Defined.

Lemma pool_exhausted_repeats_witness :
  exists i j p, i <> j /\
    run_calls (map (fun i => (i, 0)) ["a"; "b"; "c"; "d"; "e"; "f"; "g"; "h"; "i"; "j"; "k"]) ∅
      !! i = Some p /\
    run_calls (map (fun i => (i, 0)) ["a"; "b"; "c"; "d"; "e"; "f"; "g"; "h"; "i"; "j"; "k"]) ∅
      !! j = Some p.
Proof.
  apply (pool_exhausted_repeats
           (map (fun i => (i, 0)) ["a"; "b"; "c"; "d"; "e"; "f"; "g"; "h"; "i"; "j"; "k"])).
  vm_compute. lia.
Defined.

End PhraseMore.

(** ** The finale timeline over many frames *)

Module TimelineMore.
Import JS Timeline TimelineFacts.

(** A tick changes neither the start, nor the delays, nor the number of
    paragraphs. *)
Lemma update_frame t tl :
  start (_updateFinalTimeline t tl) = start tl /\
  baseDelay (_updateFinalTimeline t tl) = baseDelay tl /\
  stepDelay (_updateFinalTimeline t tl) = stepDelay tl /\
  length (nodes (_updateFinalTimeline t tl)) = length (nodes tl).
Proof.
  destruct (tick_cases t tl) as [-> | (_ & _ & ->)]; cbn; rewrite ?length_insert; auto.
Qed.

Lemma due_update t tl i : due (_updateFinalTimeline t tl) i = due tl i.
Proof.
  destruct (update_frame t tl) as (_ & B & S & _). unfold due. rewrite B, S. reflexivity.
Qed.

Lemma late_run ts tl :
  (revealed tl <= length (nodes tl))%nat ->
  (forall t i, In t ts -> (i < length (nodes tl))%nat ->
               (due tl i <=? t - start tl)%float = true) ->
  revealed (run ts tl) = Nat.min (length (nodes tl)) (revealed tl + length ts) /\
  length (nodes (run ts tl)) = length (nodes tl).
Proof.
  revert tl. induction ts as [| t ts IH]; intros tl B H.
  - cbn. split; [lia | reflexivity].
  - cbn [run fold_left length]. fold (run ts (_updateFinalTimeline t tl)).
    destruct (update_frame t tl) as (Es & _ & _ & El).
    assert (R : revealed (_updateFinalTimeline t tl) =
                Nat.min (length (nodes tl)) (S (revealed tl))).
    { unfold _updateFinalTimeline.
      destruct (Nat.leb_spec (length (nodes tl)) (revealed tl)) as [L | L]; [lia |].
      rewrite (H t (revealed tl)) by (auto using in_eq). cbn. lia. }
    destruct (IH (_updateFinalTimeline t tl)) as [IH1 IH2].
    + rewrite El, R. lia.
    + intros t' i Ht Hi. rewrite due_update, Es. rewrite El in Hi.
      apply H; [right; exact Ht | exact Hi].
    + rewrite IH1, IH2, El, R. split; [lia | reflexivity].
Qed.

(** Once every paragraph is revealed, ticks change nothing. *)
Lemma run_done ts tl : (length (nodes tl) <= revealed tl)%nat -> run ts tl = tl.
Proof.
  intros H. induction ts as [| t ts IH]; [reflexivity |].
  change (run (t :: ts) tl) with (run ts (_updateFinalTimeline t tl)).
  assert (E : _updateFinalTimeline t tl = tl).
  { unfold _updateFinalTimeline. rewrite (proj2 (Nat.leb_le _ _) H). reflexivity. }
  rewrite E. exact IH.
Qed.

(** X7. A finale that falls behind catches up one paragraph per frame: when
    every paragraph is already due at each of the given ticks, the number
    revealed after them is the number of ticks, capped at the number of
    paragraphs; from then on all paragraphs are visible and further ticks
    change nothing. *)
Theorem late_ticks_catch_up (reduced : bool) (n : nat) (now : float) (ts : list float) :
  let tl := _startFinalTimeline reduced n now in
  (forall t i, In t ts -> (i < n)%nat -> (due tl i <=? t - now)%float = true) ->
  revealed (run ts tl) = Nat.min n (length ts) /\
  ((n <= length ts)%nat -> nodes (run ts tl) = replicate n true) /\
  (forall more, (n <= length ts)%nat -> run more (run ts tl) = run ts tl).
Proof.
  intros tl H.
  assert (RL : revealed (run ts tl) = Nat.min n (length ts) /\
               length (nodes (run ts tl)) = n).
  { destruct (late_run ts tl) as [R L].
    - cbn. lia.
    - intros t i Ht Hi. cbn [tl _startFinalTimeline nodes start] in *.
      rewrite length_replicate in Hi. apply H; assumption.
    - rewrite R, L. cbn [tl _startFinalTimeline nodes revealed].
      rewrite length_replicate. auto. }
  destruct RL as [R L]. split; [exact R |]. split.
  - intros Hn.
    assert (P : prefix_visible (run ts tl)) by apply run_prefix_visible, start_prefix_visible.
    destruct P as [_ P]. apply list_eq. intros i.
    destruct (decide (i < n)%nat) as [Hi | Hi].
    + rewrite P by (rewrite L; exact Hi). rewrite R, bool_decide_eq_true_2 by lia.
      symmetry. apply lookup_replicate_2, Hi.
    + rewrite !lookup_ge_None_2; [reflexivity | rewrite length_replicate; lia | rewrite L; lia].
  - intros more Hn. apply run_done. rewrite L, R. lia.
Qed.

Lemma early_run i ts tl :
  (revealed tl <= i)%nat ->
  (forall t, In t ts -> (due tl i <=? t - start tl)%float = false) ->
  (revealed (run ts tl) <= i)%nat.
Proof.
  revert tl. induction ts as [| t ts IH]; intros tl B H; [exact B |].
  cbn [run fold_left]. fold (run ts (_updateFinalTimeline t tl)).
  destruct (update_frame t tl) as (Es & _ & _ & _).
  apply IH.
  - destruct (tick_cases t tl) as [-> | (_ & D & ->)]; [exact B |]. cbn [revealed].
    destruct (decide (revealed tl = i)) as [E | E]; [| lia].
    rewrite E, (H t) in D by apply in_eq. discriminate.
  - intros t' Ht. rewrite due_update, Es. apply H. right. exact Ht.
Qed.

(** X8. No paragraph appears before its time: as long as no tick comes at or
    after the due time of paragraph [i], that paragraph stays hidden, and
    at most the [i] paragraphs before it have been revealed. *)
Theorem nothing_shown_before_due
  (reduced : bool) (n : nat) (now : float) (ts : list float) (i : nat) :
  let tl := _startFinalTimeline reduced n now in
  (i < n)%nat ->
  (forall t, In t ts -> (due tl i <=? t - now)%float = false) ->
  nodes (run ts tl) !! i = Some false /\ (revealed (run ts tl) <= i)%nat.
Proof.
  intros tl Hi H.
  assert (R : (revealed (run ts tl) <= i)%nat).
  { apply early_run; [cbn; lia | exact H]. }
  split; [| exact R].
  assert (P : prefix_visible (run ts tl)) by apply run_prefix_visible, start_prefix_visible.
  destruct P as [_ P].
  assert (L : length (nodes (run ts tl)) = n).
  { clear. assert (G : forall tl0, length (nodes (run ts tl0)) = length (nodes tl0)).
    { induction ts as [| t ts IH]; intros tl0; [reflexivity |].
      cbn [run fold_left]. fold (run ts (_updateFinalTimeline t tl0)).
      rewrite IH. apply update_frame. }
    rewrite G. cbn. apply length_replicate. }
  rewrite P by (rewrite L; exact Hi). rewrite bool_decide_eq_false_2 by lia. reflexivity.
Qed.

Lemma late_ticks_catch_up_witness :
  nodes (run [20000; 20016; 20033; 20050; 20066; 20083]%float
             (_startFinalTimeline false 6 0)) = replicate 6 true.
Proof.
  apply (late_ticks_catch_up false 6 0 [20000; 20016; 20033; 20050; 20066; 20083]%float).
  - intros t i Ht Hi.
    assert (Hi' : In i (seq 0 6)) by (apply in_seq; lia).
    cbn in Ht, Hi'.
    repeat (destruct Ht as [<- | Ht]); try contradiction;
      repeat (destruct Hi' as [<- | Hi']); try contradiction; vm_compute; reflexivity.
  - cbn. lia.
Defined.

Lemma nothing_shown_before_due_witness :
  nodes (run [16; 33; 2999]%float (_startFinalTimeline false 6 0)) !! 1%nat = Some false.
Proof.
  apply (nothing_shown_before_due false 6 0 [16; 33; 2999]%float 1); [lia |].
  intros t Ht. cbn in Ht.
  repeat (destruct Ht as [<- | Ht]); try contradiction; vm_compute; reflexivity.
Defined.

End TimelineMore.

(** ** The utility clamp01 *)

Module NumberMore.
Import JS FloatFacts.
Local Open Scope float_scope.

Lemma ltb_leb a b : (a <? b) = true -> (a <=? b) = true.
Proof.
  rewrite ltb_spec, leb_spec. unfold SFltb, SFleb.
  destruct (SFcompare (Prim2SF a) (Prim2SF b)) as [[]|]; simpl; intros H;
    try reflexivity; discriminate.
Qed.

Lemma is_zero_shape x : is_zero x = true -> exists s, Prim2SF x = S754_zero s.
Proof.
  unfold is_zero. rewrite FloatAxioms.eqb_spec. change (Prim2SF zero) with (S754_zero false).
  destruct (Prim2SF x) as [s|s| |s m e]; simpl; try destruct s; intros H;
    try discriminate; eauto.
Qed.

(** Below [1], [clamp01] returns its argument, which is then at least [0],
    or it returns [0]. *)
Lemma clamp01_below_one q :
  (q <? 1) = true -> (clamp01 q = q /\ (0 <=? q) = true) \/ clamp01 q = 0.
Proof.
  intros H. unfold clamp01.
  assert (Math_min 1 q = q) as ->.
  { unfold Math_min. rewrite (ltb_not_nan_l _ _ H), (ltb_asym _ _ H), H. reflexivity. }
  unfold Math_max. rewrite (ltb_not_nan_l _ _ H). change (is_nan 0) with false. cbn [orb].
  destruct (0 <? q) eqn:P; [left; split; [reflexivity | apply ltb_leb, P] |].
  destruct (q <? 0); [right; reflexivity |].
  destruct (is_zero q) eqn:Z; cbn [andb]; [| right; reflexivity].
  destruct (negb (get_sign q)); [left | right; reflexivity].
  split; [reflexivity |].
  apply is_zero_shape in Z as [s Z]. rewrite leb_spec, Z. destruct s; reflexivity.
Qed.

Lemma not_nan_cases x : is_nan x = false -> (1 <=? x) = true \/ (x <? 1) = true.
Proof.
  intros N. destruct (1 <=? x) eqn:E; [left; reflexivity | right].
  apply not_leb_cases in E as [E | [E | E]]; [discriminate | congruence | exact E].
Qed.

Lemma nan_is x : is_nan x = true -> x = nan.
Proof.
  rewrite is_nan_spec. destruct (Prim2SF x) eqn:S; try discriminate.
  intros _. apply float_of_shape_nan, S.
Qed.

(** The three outcomes of [clamp01] on a number. *)
Lemma clamp01_cases x :
  is_nan x = false ->
  clamp01 x = 1 \/ clamp01 x = 0 \/
  (clamp01 x = x /\ (0 <=? x) = true /\ (x <? 1) = true).
Proof.
  intros N. destruct (not_nan_cases x N) as [H | H].
  - left. apply clamp01_ge_one, H.
  - destruct (clamp01_below_one x H) as [[C P] | C]; auto.
Qed.

Lemma finite_compare_eq s1 m1 e1 s2 m2 e2 :
  SFcompare (S754_finite s1 m1 e1) (S754_finite s2 m2 e2) = Some Eq ->
  S754_finite s1 m1 e1 = S754_finite s2 m2 e2.
Proof.
  simpl. destruct s1, s2; try discriminate.
  - destruct (e1 ?= e2)%Z eqn:E; try discriminate.
    apply Z.compare_eq in E. subst e2.
    intros H. injection H as H. apply CompOpp_iff in H. simpl in H.
    apply Pos.compare_eq in H. subst m2. reflexivity.
  - destruct (e1 ?= e2)%Z eqn:E; try discriminate.
    apply Z.compare_eq in E. subst e2.
    intros H. injection H as H. apply Pos.compare_eq in H. subst m2. reflexivity.
Qed.

Lemma leb_one_cases x : (x <=? 1) = true -> (x <? 1) = true \/ x = 1.
Proof.
  rewrite leb_spec, ltb_spec. unfold SFleb, SFltb.
  destruct (SFcompare (Prim2SF x) (Prim2SF 1)) as [[]|] eqn:C; try discriminate; auto.
  intros _. right. apply Prim2SF_inj.
  change (Prim2SF 1) with (S754_finite false 4503599627370496 (-52)) in *.
  destruct (Prim2SF x) as [s|s| |s m e]; try (destruct s; discriminate); try discriminate.
  apply finite_compare_eq, C.
Qed.

(** X9. [clamp01] projects onto the interval from 0 to 1: a number that is not
    [NaN] is sent into the interval, a number above 0 and at most 1 is
    returned unchanged, everything at or below 0 (also [-0] and
    [-Infinity]) gives 0, everything from 1 on gives 1, clamping twice is
    clamping once, and [NaN] passes through as [NaN]. *)
Theorem clamp01_range (x : float) :
  (is_nan x = true -> clamp01 x = nan) /\
  (is_nan x = false -> (0 <=? clamp01 x) = true /\ (clamp01 x <=? 1) = true) /\
  ((0 <? x) = true -> (x <=? 1) = true -> clamp01 x = x) /\
  ((x <=? 0) = true -> clamp01 x = 0) /\
  ((1 <=? x) = true -> clamp01 x = 1) /\
  clamp01 (clamp01 x) = clamp01 x.
Proof.
  split; [| split; [| split; [| split; [| split]]]].
  - intros N. apply nan_is in N. subst x. reflexivity.
  - intros N. destruct (clamp01_cases x N) as [-> | [-> | (-> & P & L)]];
      [split; reflexivity | split; reflexivity |].
    split; [exact P | apply ltb_leb, L].
  - intros P L. apply leb_one_cases in L as [L | ->]; [| reflexivity].
    destruct (clamp01_below_one x L) as [[C _] | C]; [exact C |].
    unfold clamp01 in C.
    assert (Math_min 1 x = x) as E.
    { unfold Math_min. rewrite (ltb_not_nan_l _ _ L), (ltb_asym _ _ L), L. reflexivity. }
    rewrite E in C. unfold Math_max in C.
    rewrite (ltb_not_nan_l _ _ L), P in C. cbn in C. rewrite C in P. discriminate.
  - intros L. apply clamp01_nonpos. rewrite leb_spec in L.
    change (Prim2SF 0) with (S754_zero false) in L.
    destruct (Prim2SF x) as [s|s| |s m e]; simpl in *; try destruct s; try exact I;
      discriminate.
  - apply clamp01_ge_one.
  - destruct (is_nan x) eqn:N.
    + apply nan_is in N. subst x. reflexivity.
    + destruct (clamp01_cases x N) as [-> | [-> | (E & _)]]; [reflexivity | reflexivity |].
      rewrite !E. reflexivity.
Qed.

Lemma clamp01_range_witness :
  clamp01 0.35 = 0.35 /\ clamp01 (-3) = 0 /\ clamp01 7 = 1 /\ clamp01 nan = nan.
Proof.
  destruct (clamp01_range 0.35) as (_ & _ & A & _).
  destruct (clamp01_range (-3)) as (_ & _ & _ & B & _).
  destruct (clamp01_range 7) as (_ & _ & _ & _ & C & _).
  destruct (clamp01_range nan) as (D & _).
  split; [apply A; reflexivity |]. split; [apply B; reflexivity |].
  split; [apply C; reflexivity | apply D; reflexivity].
Defined.

End NumberMore.

(** ** Progress: unlocking, saving and reloading *)

Module AppMore.
Import JS App PhraseFacts StorageFacts.

Lemma add_spec x y s : y ∈ add x s <-> y = x \/ y ∈ s.
Proof.
  unfold add. destruct (bool_decide_reflect (x ∈ s)) as [H | H].
  - split; [auto | intros [-> | ?]; assumption].
  - rewrite elem_of_app, list_elem_of_singleton. tauto.
Qed.

Lemma add_NoDup x s : NoDup s -> NoDup (add x s).
Proof.
  intros N. unfold add. destruct (bool_decide_reflect (x ∈ s)) as [H | H]; [exact N |].
  apply NoDup_app. split; [exact N |]. split; [| apply NoDup_singleton].
  intros y Hy Hx. apply list_elem_of_singleton in Hx. subst y. exact (H Hy).
Qed.

(** A phrase that is set stays through the calls of [assignAll]. *)
Lemma assignAll_keeps draw k ids m i p :
  m !! i = Some p -> truthy_str p = true -> assignAll draw k ids m !! i = Some p.
Proof.
  revert k m. induction ids as [| j ids IH]; intros k m H T; [exact H |].
  cbn [assignAll]. apply IH; [apply call_keeps |]; assumption.
Qed.

Lemma call_sets j draw m :
  exists p, snd (Phrases._getOrAssignPhrase j draw m) !! j = Some p /\ truthy_str p = true.
Proof.
  destruct (getOrAssign_cases j draw m) as [(q & Hq & T & ->) | [_ ->]]; cbn [snd].
  - eauto.
  - exists (Phrases.chosen draw m). split; [apply lookup_insert_eq | apply chosen_truthy].
Qed.

(** After [assignAll] every id of the list holds a non-empty phrase. *)
Lemma assignAll_sets draw k ids m i :
  i ∈ ids -> exists p, assignAll draw k ids m !! i = Some p /\ truthy_str p = true.
Proof.
  revert k m. induction ids as [| j ids IH]; intros k m H; [inversion H |].
  cbn [assignAll]. apply elem_of_cons in H as [-> | H]; [| apply IH, H].
  destruct (call_sets j (draw k) m) as (p & Hp & T).
  exists p. split; [apply assignAll_keeps; assumption | exact T].
Qed.

Lemma memories_NoDup : NoDup (fst <$> getMemories).
Proof. apply (bool_decide_unpack (NoDup (fst <$> getMemories))). vm_compute. exact I. Qed.

Lemma initObjects_ids hasEl :
  id <$> _initObjects hasEl = fst <$> filter (fun m => hasEl (fst m) = true) getMemories.
Proof.
  unfold _initObjects. rewrite <- list_fmap_compose. apply list_fmap_ext. intros _ [] _. reflexivity.
Qed.

Lemma initObjects_NoDup hasEl : NoDup (id <$> _initObjects hasEl).
Proof.
  rewrite initObjects_ids.
  apply (sublist_NoDup _ (fst <$> getMemories)); [apply memories_NoDup | apply fmap_sublist, sublist_filter].
  
Qed.

Section Consistency.
Variable JSON_parse : string -> option Storage.jsval.
Variable String_of : Storage.jsval -> option string.
Variable JSON_stringify : Saved -> string.

Lemma addAll_NoDup vs s : NoDup s -> NoDup (fst (addAll String_of vs s)).
Proof.
  revert s. induction vs as [| v vs IH]; intros s N; cbn [addAll]; [exact N |].
  destruct (String_of v); [apply IH, add_NoDup, N | exact N].
Qed.

Lemma restore_consistent draw a :
  NoDup (discovered (state a)) -> NoDup (id <$> objects a) ->
  snd (_restore JSON_parse String_of draw a) = Audio.Returned ->
  consistent (fst (_restore JSON_parse String_of draw a)).
Proof.
  intros Nd No. unfold _restore.
  destruct (Storage.load JSON_parse storageKey (localStorage a)) as [saved ls1].
  destruct (Audio.setMasterVolume _ _) as [audio2 []]; cbn [fst snd]; [| discriminate].
  destruct (stringAll String_of _) as [order1 |]; cbn [fst snd]; [| discriminate].
  pose proof (addAll_NoDup (Storage.discoveredIds saved) (discovered (state a)) Nd) as Na.
  destruct (addAll String_of _ _) as [d []]; cbn [fst snd] in *; [| discriminate].
  intros _. unfold consistent. cbn [state discovered objects assignedPhrases].
  split; [exact Na |]. split; [| split].
  - rewrite <- list_fmap_compose. exact No.
  - intros o Ho. apply list_elem_of_fmap in Ho as (o0 & -> & _). cbn [isDiscovered id setDiscovered].
    rewrite bool_decide_eq_true. reflexivity.
  - intros i Hi. apply assignAll_sets, Hi.
Qed.

Lemma insert_ids {i : nat} {o o' : InteractiveObject} {l : list InteractiveObject} :
  l !! i = Some o -> id o' = id o -> id <$> <[i := o']> l = id <$> l.
Proof.
  intros H E. rewrite list_fmap_insert, E. apply list_insert_id.
  rewrite list_lookup_fmap, H. reflexivity.
Qed.

Lemma tap_consistent i now a : consistent a -> consistent (_handleInteract i now a).
Proof.
  intros C. unfold _handleInteract.
  destruct (objects a !! i) as [obj |] eqn:Ho; [| exact C].
  destruct (scene (state a)); try exact C.
  destruct (isComplete (state a)); [exact C |].
  destruct (diaryOpen a || MiniGames.isOpen (miniGames a)); [exact C |].
  destruct (negb (completeHidden a)); [exact C |].
  assert (K : forall a', state a' = state a -> assignedPhrases a' = assignedPhrases a ->
                         objects a' = <[i := playInteractAnim now obj]> (objects a) ->
                         consistent a').
  { intros a' Es Ep Eo. destruct C as (Nd & No & Fl & Ph).
    unfold consistent. rewrite Es, Ep, Eo.
    split; [exact Nd |]. split; [| split; [| exact Ph]].
    - rewrite (insert_ids Ho) by reflexivity. exact No.
    - intros o Hin. apply list_elem_of_lookup in Hin as [j Hj].
      destruct (decide (i = j)) as [<- | N].
      + rewrite list_lookup_insert_eq in Hj by (eapply lookup_lt_Some, Ho).
        injection Hj as <-. cbn. apply (Fl obj). apply list_elem_of_lookup. eauto.
      + rewrite list_lookup_insert_ne in Hj by exact N.
        apply Fl. apply list_elem_of_lookup. eauto. }
  destruct (negb (isDiscovered obj)).
  - destruct (MiniGames.open _ _ _) as [w p]. apply K; reflexivity.
  - apply K; reflexivity.
Qed.

Lemma settled_consistent i ok draw now a :
  consistent a -> consistent (afterMiniGame JSON_stringify i ok draw now a).
Proof.
  intros C. unfold afterMiniGame.
  destruct (objects a !! i) as [obj |] eqn:Ho; [| exact C].
  destruct ok; cbn [negb]; [| exact C].
  destruct (Phrases._getOrAssignPhrase (id obj) draw (assignedPhrases a)) as [phrase phrases1] eqn:G.
  destruct C as (Nd & No & Fl & Ph).
  unfold consistent. cbn [state discovered objects assignedPhrases].
  assert (Gs : phrases1 = snd (Phrases._getOrAssignPhrase (id obj) draw (assignedPhrases a)))
    by (rewrite G; reflexivity).
  split; [apply add_NoDup, Nd |]. split; [| split].
  - rewrite (insert_ids Ho) by reflexivity. exact No.
  - intros o Hin. rewrite add_spec. apply list_elem_of_lookup in Hin as [j Hj].
    destruct (decide (i = j)) as [<- | N].
    + rewrite list_lookup_insert_eq in Hj by (eapply lookup_lt_Some, Ho).
      injection Hj as <-. cbn. split; auto.
    + rewrite list_lookup_insert_ne in Hj by exact N.
      assert (Hin : o ∈ objects a) by (apply list_elem_of_lookup; eauto).
      rewrite (Fl o Hin). split; [auto |]. intros [E | H]; [| exact H].
      exfalso. apply N.
      apply (NoDup_lookup (id <$> objects a) i j (id obj)); [exact No | |].
      * rewrite list_lookup_fmap, Ho. reflexivity.
      * rewrite list_lookup_fmap, Hj. cbn. rewrite E. reflexivity.
  - intros k Hk. apply add_spec in Hk as [-> | Hk].
    + rewrite Gs. apply call_sets.
    + destruct (Ph k Hk) as (p & Hp & T). exists p. split; [| exact T].
      rewrite Gs. apply call_keeps; assumption.
Qed.

Lemma run_consistent es a : consistent a -> consistent (run JSON_stringify es a).
Proof.
  revert a. induction es as [| e es IH]; intros a C; [exact C |].
  apply IH. destruct e; [apply tap_consistent | apply settled_consistent]; exact C.
Qed.

Lemma step_grows e a i :
  i ∈ discovered (state a) -> i ∈ discovered (state (step JSON_stringify e a)).
Proof.
  intros H. destruct e as [j now | j ok draw now]; cbn [step].
  - unfold _handleInteract. destruct (objects a !! j) as [obj |]; [| exact H].
    destruct (scene (state a)); try exact H.
    destruct (isComplete (state a)); [exact H |].
    destruct (diaryOpen a || MiniGames.isOpen (miniGames a)); [exact H |].
    destruct (negb (completeHidden a)); [exact H |].
    destruct (negb (isDiscovered obj)); [| exact H].
    destruct (MiniGames.open _ _ _). exact H.
  - unfold afterMiniGame. destruct (objects a !! j) as [obj |]; [| exact H].
    destruct ok; cbn [negb]; [| exact H].
    destruct (Phrases._getOrAssignPhrase _ _ _). cbn. apply add_spec. auto.
Qed.

Lemma step_keeps_phrase e a i p :
  assignedPhrases a !! i = Some p -> truthy_str p = true ->
  assignedPhrases (step JSON_stringify e a) !! i = Some p.
Proof.
  intros H T. destruct e as [j now | j ok draw now]; cbn [step].
  - unfold _handleInteract. destruct (objects a !! j) as [obj |]; [| exact H].
    destruct (scene (state a)); try exact H.
    destruct (isComplete (state a)); [exact H |].
    destruct (diaryOpen a || MiniGames.isOpen (miniGames a)); [exact H |].
    destruct (negb (completeHidden a)); [exact H |].
    destruct (negb (isDiscovered obj)); [| exact H].
    destruct (MiniGames.open _ _ _). exact H.
  - unfold afterMiniGame. destruct (objects a !! j) as [obj |]; [| exact H].
    destruct ok; cbn [negb]; [| exact H].
    pose proof (call_keeps i p (id obj) draw (assignedPhrases a) H T) as K.
    destruct (Phrases._getOrAssignPhrase _ _ _). exact K.
Qed.

Lemma run_grows es a i :
  i ∈ discovered (state a) -> i ∈ discovered (state (run JSON_stringify es a)).
Proof.
  revert a. induction es as [| e es IH]; intros a H; [exact H |]. apply IH, step_grows, H.
Qed.

Lemma run_keeps_phrase es a i p :
  assignedPhrases a !! i = Some p -> truthy_str p = true ->
  assignedPhrases (run JSON_stringify es a) !! i = Some p.
Proof.
  revert a. induction es as [| e es IH]; intros a H T; [exact H |].
  apply IH; [apply step_keeps_phrase |]; assumption.
Qed.

(** X10. Whatever the storage holds at startup, provided [String()]
    converts the saved ids and unlock order (as it does all strings,
    numbers, booleans and [null]), the constructor completes, and whatever
    taps and mini-game results follow, the progress hangs together: no id
    is discovered twice, an object carries the discovered flag exactly
    when its id is in the discovered set, every discovered id holds a
    non-empty phrase, and an id discovered at startup stays discovered and
    keeps its phrase. *)
Theorem progress_stays_consistent
  (page : Page) (draw : nat -> nat) (ls : gmap string string) (es : list event) :
  Forall (fun v => is_Some (String_of v))
    (Storage.unlockedOrder (fst (Storage.load JSON_parse storageKey ls)) ++
     Storage.discoveredIds (fst (Storage.load JSON_parse storageKey ls))) ->
  exists a0, constructor JSON_parse String_of page draw ls = Some a0 /\
    consistent a0 /\
    consistent (run JSON_stringify es a0) /\
    (forall i, i ∈ discovered (state a0) ->
       i ∈ discovered (state (run JSON_stringify es a0)) /\
       assignedPhrases (run JSON_stringify es a0) !! i = assignedPhrases a0 !! i).
Proof.
  intros F.
  pose proof (AppFacts.restore_fresh_returns JSON_parse String_of page draw ls F) as R.
  destruct (AppFacts.constructor_returns JSON_parse String_of page draw ls R)
    as (a0 & E & _ & _ & Ed & _ & Eo & Ep).
  exists a0. split; [exact E |].
  assert (C : consistent a0).
  { pose proof (restore_consistent draw (fresh page ls)) as C.
    unfold consistent in *. rewrite Ed, Eo, Ep. apply C; [constructor | | exact R].
    cbn. apply initObjects_NoDup. }
  split; [exact C |]. split; [apply run_consistent, C |].
  intros i Hi. split; [apply run_grows, Hi |].
  destruct C as (_ & _ & _ & Ph). destruct (Ph i Hi) as (p & Hp & T).
  rewrite Hp. apply run_keeps_phrase; assumption.
Qed.

(** X11. When the mini-game of an object is won, the object and its id are
    marked discovered, the id is in the unlock order (once, if the order
    had no repetition), the id holds a non-empty phrase, that phrase is the
    message shown for 2800 ms and is listed in the diary, and what is
    written to the storage is the serialisation of the progress now in
    memory; when the mini-game is lost or dismissed nothing changes. *)
Theorem unlock_is_recorded
  (a : App) (i : nat) (obj : InteractiveObject) (draw : nat) (now : float) :
  objects a !! i = Some obj ->
  let a' := afterMiniGame JSON_stringify i true draw now a in
  discovered (state a') = add (id obj) (discovered (state a)) /\
  (isDiscovered <$> objects a' !! i) = Some true /\
  id obj ∈ unlockedOrder a' /\
  (NoDup (unlockedOrder a) -> NoDup (unlockedOrder a')) /\
  (exists p, assignedPhrases a' !! id obj = Some p /\ truthy_str p = true /\
             messages a' = show p 2800 now /\ p ∈ _updateDiaryUi a') /\
  localStorage a' = <[storageKey := JSON_stringify (snapshot a')]> (localStorage a) /\
  afterMiniGame JSON_stringify i false draw now a = a.
Proof.
  intros Ho a'. unfold a', afterMiniGame. rewrite Ho. cbn [negb].
  destruct (call_sets (id obj) draw (assignedPhrases a)) as (p & Hp & T).
  assert (F : fst (Phrases._getOrAssignPhrase (id obj) draw (assignedPhrases a)) = p).
  { destruct (getOrAssign_cases (id obj) draw (assignedPhrases a))
      as [(q & Hq & _ & E) | [_ E]]; rewrite E in Hp |- *; cbn [fst snd] in *.
    - congruence.
    - rewrite lookup_insert_eq in Hp. congruence. }
  destruct (Phrases._getOrAssignPhrase (id obj) draw (assignedPhrases a)) as [phrase phrases1].
  cbn [fst snd] in Hp, F. subst phrase.
  cbn [state discovered objects unlockedOrder assignedPhrases messages localStorage].
  assert (Ho' : id obj ∈ (if bool_decide (id obj ∈ unlockedOrder a) then unlockedOrder a
                          else unlockedOrder a ++ [id obj])).
  { destruct (bool_decide_reflect (id obj ∈ unlockedOrder a)) as [H | H]; [exact H |].
    apply elem_of_app. right. apply list_elem_of_singleton. reflexivity. }
  split; [reflexivity |]. split.
  { rewrite list_lookup_insert_eq by (eapply lookup_lt_Some, Ho). reflexivity. }
  split; [exact Ho' |]. split.
  { intros N. destruct (bool_decide_reflect (id obj ∈ unlockedOrder a)) as [H | H]; [exact N |].
    apply NoDup_app. split; [exact N |]. split; [| apply NoDup_singleton].
    intros y Hy Hx. apply list_elem_of_singleton in Hx. subst y. exact (H Hy). }
  split.
  { exists p. split; [exact Hp |]. split; [exact T |]. split; [reflexivity |].
    unfold _updateDiaryUi. cbn [unlockedOrder assignedPhrases].
    apply list_elem_of_omap. exists (id obj). split; [exact Ho' |]. rewrite Hp, T. reflexivity. }
  split; reflexivity.
Qed.

End Consistency.

(** A start over a save with two ids, one of them written as a number,
    followed by a tap on the flower and its mini-game won. *)
Lemma progress_stays_consistent_witness :
  let saved :=
    Storage.JObj [ ("discoveredIds", Storage.JArr [Storage.JStr "star"; Storage.JNum 7]);
                   ("unlockedOrder", Storage.JArr [Storage.JStr "star"]) ] in
  let ls : gmap string string :=
    {[ Storage.resetOnceKey storageKey := "1"; storageKey := "saved" ]} in
  exists a0,
    constructor (fun _ => Some saved) str fullPage (fun k => k) ls = Some a0 /\
    consistent (run (fun _ => "saved") [Tap 0 1000; Settled 0 true 3 2000] a0).
Proof.
  intros saved ls.
  destruct (progress_stays_consistent (fun _ => Some saved) str
              (fun _ => "saved") fullPage (fun k => k) ls [Tap 0 1000; Settled 0 true 3 2000])
    as (a0 & E & _ & C & _).
  - vm_compute. repeat econstructor.
  - exists a0. split; [exact E | exact C].
Defined.

Lemma unlock_is_recorded_witness :
  discovered (state (afterMiniGame (fun _ => "saved") 0 true 7 9000 starFound))
    = ["star"; "flower"].
Proof.
  apply (unlock_is_recorded (fun _ => "saved") starFound 0
           {| id := "flower"; idleSeed := 0.7; isDiscovered := false;
              _clickAnim := (false, 0%float) |} 7 9000 eq_refl).
Defined.








Section Reload.
Variable JSON_parse : string -> option Storage.jsval.
Variable String_of : Storage.jsval -> option string.
Variable JSON_stringify : Saved -> string.



End Reload.


End AppMore.

(** ** AudioManager: levels, unlocking and crossfades *)

Module AudioMore.
Import JS Audio FloatFacts AudioFacts.
Local Open Scope float_scope.

Lemma in01_clamp x : is_nan (clamp01 x) = false -> in01 (clamp01 x) = true.
Proof.
  intros N. destruct (is_nan x) eqn:Nx.
  - apply NumberMore.nan_is in Nx. subst x. discriminate N.
  - unfold in01.
    destruct (NumberMore.clamp01_cases x Nx) as [-> | [-> | (-> & P & L)]];
      [reflexivity | reflexivity |].
    rewrite P, (NumberMore.ltb_leb _ _ L). reflexivity.
Qed.

Lemma set_volume_ok v e e' : set_volume v e = Some e' -> volume e' = v /\ is_nan v = false.
Proof.
  unfold set_volume. destruct (is_nan v); [discriminate |]. intros [= <-]. auto.
Qed.

Lemma upd_levels which tNow am : levels_ok am -> levels_ok (fst (upd which tNow am)).
Proof.
  intros (A & F & V). unfold upd.
  destruct (negb (active (_fades which am))); [repeat split; assumption |].
  set (b := lerp _ _ _).
  destruct (set_volume _ _) as [e |] eqn:S.
  - apply set_volume_ok in S as [Ev N]. apply in01_clamp in N. rewrite <- Ev in N.
    destruct (1 <=? _); [destruct (to _ <=? _) |];
      destruct which; cbn; repeat split; assumption.
  - destruct which; cbn; repeat split; assumption.
Qed.

Lemma update_levels tNow am : levels_ok am -> levels_ok (fst (update tNow am)).
Proof.
  intros H. unfold update.
  destruct (negb (enabled am)); [exact H |]. destruct (muted am); [exact H |].
  pose proof (upd_levels Ambient tNow am H) as H1.
  destruct (upd Ambient tNow am) as [am1 []]; cbn [fst] in *; [| exact H1].
  apply upd_levels, H1.
Qed.

Lemma set_fadeRaf_levels r am : levels_ok am -> levels_ok (set_fadeRaf r am).
Proof. intros H. exact H. Qed.

Lemma set_el_levels which e am :
  volume e = volume (el which am) -> levels_ok am -> levels_ok (set_el which e am).
Proof.
  intros E (A & F & V). unfold levels_ok.
  destruct which; cbn in *; repeat split; try assumption; rewrite E; assumption.
Qed.

Lemma startFade_levels which a b d now am : levels_ok am -> levels_ok (_startFade which a b d now am).
Proof. intros H. exact H. Qed.

Lemma run_op_levels o am : levels_ok am -> levels_ok (run_op o am).
Proof.
  intros H. destruct o; cbn [run_op].
  - destruct H as (A & F & V). destruct m; cbn; repeat split; assumption.
  - destruct H as (A & F & V). unfold setMasterVolume. cbn [enabled muted ambient final].
    assert (V' : is_nan (clamp01 v) = true \/ in01 (clamp01 v) = true).
    { destruct (is_nan (clamp01 v)) eqn:N; [left; reflexivity | right; apply in01_clamp, N]. }
    destruct (negb (enabled am)); [repeat split; assumption |].
    destruct (muted am); [repeat split; assumption |].
    destruct (set_volume _ (ambient am)) as [ea |] eqn:Sa; [| repeat split; assumption].
    apply set_volume_ok in Sa as [Ea Na]. apply in01_clamp in Na. rewrite <- Ea in Na.
    cbn [set_el final].
    destruct (set_volume _ (final am)) as [ef |] eqn:Sf; cbn; [| repeat split; assumption].
    apply set_volume_ok in Sf as [Ef Nf]. apply in01_clamp in Nf. rewrite <- Ef in Nf.
    repeat split; assumption.
  - apply update_levels, H.
  - unfold _fadeTick.
    pose proof (update_levels tNow (set_fadeRaf false am) H) as H1.
    destruct (update tNow (set_fadeRaf false am)) as [am1 []]; cbn [fst] in *; [| exact H1].
    destruct (_ || _); exact H1.
  - unfold ensurePlayback.
    destruct (negb (enabled am)); [exact H |]. destruct (muted am); [exact H |].
    destruct (masterVolume am <=? 0.0001); [exact H |].
    destruct (_ && paused (ambient am)); destruct (_ && paused (final _));
      repeat (apply set_el_levels; [reflexivity |]); exact H.
  - unfold unlock_call. destruct (enabled am); [exact H |].
    destruct (muted (set_enabled true am)); [exact H |].
    apply set_el_levels; [destruct which; reflexivity | exact H].
  - unfold unlock_resume. destruct allowed; exact H.
  - unfold switch_call. destruct (_ || _); [exact H |].
    destruct (paused _); [| exact H].
    apply set_el_levels; [reflexivity | exact H].
  - exact H.
  - apply set_el_levels; [reflexivity | exact H].
  - apply set_el_levels; [reflexivity | exact H].
Qed.

(** X13. The controller never gives an element a volume outside the range
    from 0 to 1: after any sequence of its operations (mute, master volume,
    updates, fade ticks, playback checks, unlocks, crossfades, the host
    pausing or resuming an element) both element volumes are in the range,
    and the master volume is in the range or [NaN]. *)
Theorem volume_always_in_range (ambientPaused finalPaused : bool) (os : list op) :
  let am := run_ops os (constructor ambientPaused finalPaused) in
  in01 (volume (ambient am)) = true /\ in01 (volume (final am)) = true /\
  (is_nan (masterVolume am) = true \/ in01 (masterVolume am) = true).
Proof.
  assert (G : forall s, levels_ok s -> levels_ok (run_ops os s)).
  { induction os as [| o os IH]; intros s H; [exact H |]. apply IH, run_op_levels, H. }
  apply G. repeat split. right. reflexivity.
Qed.

(** ** Mute and unmute *)


Lemma update_hushed bA bF tNow s : hushed bA bF s -> hushed bA bF (fst (update tNow s)).
Proof.
  intros (M & Aa & Af & Va & Vf & Ba & Bf).
  pose proof (update_flags tNow s) as (_ & F2 & _).
  destruct (update_idle Ambient tNow s Aa) as (Hfa & Hba & Hea).
  destruct (update_idle Final tNow s Af) as (Hff & Hbf & Hef).
  cbn [_fades _base el] in *.
  unfold hushed. rewrite F2, Hfa, Hff, Hba, Hbf, Hea, Hef. repeat split; assumption.
Qed.

Lemma set_el_hushed bA bF which e s :
  volume e = volume (el which s) -> hushed bA bF s -> hushed bA bF (set_el which e s).
Proof.
  intros E (M & Aa & Af & Va & Vf & Ba & Bf). unfold hushed.
  destruct which; cbn in *; repeat split; try assumption; rewrite E; assumption.
Qed.

Lemma quiet_hushed bA bF o s : quiet o -> hushed bA bF s -> hushed bA bF (run_op o s).
Proof.
  intros Q H. destruct o; try destruct Q; cbn [run_op].
  - apply update_hushed, H.
  - unfold _fadeTick.
    assert (H0 : hushed bA bF (set_fadeRaf false s)) by exact H.
    pose proof (update_hushed bA bF tNow _ H0) as H1.
    destruct (update tNow (set_fadeRaf false s)) as [s1 []]; cbn [fst] in *; [| exact H1].
    destruct (_ || _); exact H1.
  - unfold ensurePlayback.
    destruct (negb (enabled s)); [exact H |]. destruct (muted s); [exact H |].
    destruct (masterVolume s <=? 0.0001); [exact H |].
    destruct (_ && paused (ambient s)); destruct (_ && paused (final _));
      repeat (apply set_el_hushed; [reflexivity |]); exact H.
  - apply set_el_hushed; [reflexivity | exact H].
  - apply set_el_hushed; [reflexivity | exact H].
Qed.

Lemma run_quiet_hushed bA bF os s :
  Forall quiet os -> hushed bA bF s -> hushed bA bF (run_ops os s).
Proof.
  intros F. revert s. induction F as [| o os Q F IH]; intros s H; [exact H |].
  apply IH, quiet_hushed; assumption.
Qed.

(** What [setMasterVolume] writes when it goes through. *)
Lemma setMasterVolume_returned v s :
  enabled s = true -> muted s = false -> snd (setMasterVolume v s) = Returned ->
  volume (ambient (fst (setMasterVolume v s))) = clamp01 (_base_ambient s * clamp01 v) /\
  volume (final (fst (setMasterVolume v s))) = clamp01 (_base_final s * clamp01 v).
Proof.
  destruct s as [ea ef en mu mv ba bf ta tf fa ff raf]. cbn [enabled muted].
  intros -> ->. unfold setMasterVolume, set_volume.
  cbn [enabled muted negb ambient final _base_ambient _base_final].
  destruct (is_nan (clamp01 (ba * clamp01 v))); [intros R; discriminate R |].
  cbn [set_el final _base_final].
  destruct (is_nan (clamp01 (bf * clamp01 v))); [intros R; discriminate R |].
  intros _. split; reflexivity.
Qed.

(** X14. Unmuting does not bring the level back: after [setMuted(true)] and
    [setMuted(false)] both element volumes are 0 and stay 0 through any
    updates, fade ticks, playback checks and resumed playback, while the
    base levels are kept; a later [setMasterVolume(v)] that goes through
    sets the volumes from the kept base levels. *)
Theorem unmute_does_not_restore_level (am : AudioManager) (os : list op) (v : float) :
  Forall quiet os ->
  let s := run_ops os (setMuted false (setMuted true am)) in
  muted s = false /\
  volume (ambient s) = 0 /\ volume (final s) = 0 /\
  _base_ambient s = _base_ambient am /\ _base_final s = _base_final am /\
  (enabled am = true -> snd (setMasterVolume v s) = Returned ->
   volume (ambient (fst (setMasterVolume v s))) = clamp01 (_base_ambient am * clamp01 v) /\
   volume (final (fst (setMasterVolume v s))) = clamp01 (_base_final am * clamp01 v)).
Proof.
  intros F s.
  assert (H : hushed (_base_ambient am) (_base_final am) s).
  { apply run_quiet_hushed; [exact F |]. repeat split. }
  destruct H as (M & _ & _ & Va & Vf & Ba & Bf).
  repeat (split; [assumption |]).
  intros E.
  assert (Es : enabled s = true).
  { clear -E F. unfold s. clear s.
    assert (G : forall s0, enabled s0 = true -> enabled (run_ops os s0) = true).
    { induction F as [| o os Q F IH]; intros s0 H0; [exact H0 |]. apply IH.
      destruct o; try destruct Q; cbn [run_op].
      - rewrite (proj1 (update_flags _ _)). exact H0.
      - unfold _fadeTick.
        pose proof (update_flags tNow (set_fadeRaf false s0)) as (F1 & _).
        destruct (update tNow (set_fadeRaf false s0)) as [s1 []]; cbn [fst] in *;
          [destruct (_ || _) |]; cbn [enabled set_fadeRaf]; rewrite F1; exact H0.
      - pose proof (ensurePlayback_frame Ambient allowA allowF s0) as (_ & _ & F1 & _).
        rewrite F1. exact H0.
      - destruct which; exact H0.
      - destruct which; exact H0. }
    apply G. exact E. }
  intros R. rewrite <- Ba, <- Bf. apply setMasterVolume_returned; assumption.
Qed.

Lemma unmute_does_not_restore_level_witness :
  let am := {| ambient := {| volume := 0.14; paused := false |};
               final := {| volume := 0; paused := true |};
               enabled := true; muted := false; masterVolume := 1;
               _base_ambient := 0.14; _base_final := 0;
               _targetAmbient := 0.14; _targetFinal := 0.18;
               _fades_ambient := idleFade; _fades_final := idleFade;
               _fadeRaf := false |} in
  let s := run_ops [OPlay Ambient true; OUpdate 5000; OEnsurePlayback true true; OFadeTick 5016]
             (setMuted false (setMuted true am)) in
  volume (ambient s) = 0 /\ paused (ambient s) = false /\ _base_ambient s = 0.14.
Proof.
  intros am s.
  destruct (unmute_does_not_restore_level am
              [OPlay Ambient true; OUpdate 5000; OEnsurePlayback true true; OFadeTick 5016] 1)
    as (_ & Va & _ & Ba & _).
  - repeat constructor.
  - split; [exact Va |]. split; [reflexivity | exact Ba].
Defined.

(** ** Unlocking *)

Lemma set_enabled_id am : set_enabled (enabled am) am = am.
Proof. destruct am; reflexivity. Qed.

Lemma set_el_id which am : set_el which (el which am) am = am.
Proof. destruct am, which; reflexivity. Qed.

Lemma play_rejected e : play false e = e.
Proof. destruct e; reflexivity. Qed.

(** X15. Unlocking without playback.  On a controller that is not enabled:
    while muted, [unlockAndStart...] enables it, starts nothing and answers
    [undefined], and after unmuting every further unlock call answers
    [true] and changes nothing; while not muted, an unlock whose [play()] is
    rejected answers [false] and leaves the controller exactly as it was. *)
Theorem unlock_without_playback
  (which which' : channel) (d d' : float) (allowed allowed' : bool) (now now' : float)
  (am : AudioManager) :
  enabled am = false ->
  (muted am = true ->
   unlockAndStart which d allowed now am = (set_enabled true am, Undefined) /\
   unlockAndStart which' d' allowed' now' (setMuted false (set_enabled true am))
     = (setMuted false (set_enabled true am), Yes)) /\
  (muted am = false ->
   unlockAndStart which d false now am = (am, No)).
Proof.
  intros E. split; intros M.
  - unfold unlockAndStart, unlock_call. rewrite E. cbn [muted set_enabled]. rewrite M.
    split; reflexivity.
  - unfold unlockAndStart, unlock_call. rewrite E. cbn [muted set_enabled]. rewrite M.
    unfold unlock_resume. rewrite play_rejected. f_equal.
    destruct am, which; cbn in *; subst; reflexivity.
Qed.

Lemma unlock_without_playback_witness :
  unlockAndStart Ambient 2000 false 1000 (constructor true true)
  = (constructor true true, No).
Proof.
  apply (unlock_without_playback Ambient Ambient 2000 2000 false false 1000 1000
           (constructor true true) eq_refl).
  reflexivity.
Defined.

(** X16. A successful unlock of a controller that is neither enabled nor
    muted answers [true], leaves the element playing and a fade from 0 to
    the target of the channel in flight; once an [update()] finds its
    progress at 1, the base level is exactly the target, the element volume
    is the target scaled by the master volume and the fade is over. *)
Theorem unlock_fades_in
  (which : channel) (d st : float) (am : AudioManager) (ks : list tick) (tNow : float) :
  enabled am = false -> muted am = false ->
  _target which am <> neg_zero ->
  let r := unlockAndStart which d true st am in
  snd r = Yes /\
  enabled (fst r) = true /\
  paused (el which (fst r)) = false /\
  _fades which (fst r) = started 0 (_target which am) d st /\
  ((1 <=? (tNow - st) / d) = true ->
   snd (update tNow (run_ticks ks (fst r))) = Returned ->
   let s := fst (update tNow (run_ticks ks (fst r))) in
   _base which s = _target which am /\
   active (_fades which s) = false /\
   volume (el which s) = clamp01 (_target which am * masterVolume am)).
Proof.
  intros E M T r.
  set (am0 := set_el which (play true (el which (set_enabled true am))) (set_enabled true am)).
  assert (Er : r = (_startFade which 0 (_target which am) d st am0, Yes)).
  { unfold r, unlockAndStart, unlock_call. rewrite E. cbn [muted set_enabled]. rewrite M.
    unfold unlock_resume. f_equal. destruct which; reflexivity. }
  rewrite Er. cbn [fst snd].
  split; [reflexivity |]. split; [destruct which; reflexivity |].
  split; [destruct which; reflexivity |]. split; [destruct which; reflexivity |].
  intros P R. cbv zeta.
  assert (E0 : enabled am0 = true) by (destruct which; reflexivity).
  assert (M0 : muted am0 = false) by (destruct which; exact M).
  assert (V0 : masterVolume am0 = masterVolume am) by (destruct which; reflexivity).
  destruct (fade_completes which 0 (_target which am) d st am0 ks tNow E0 M0 P R)
    as (Hb & Hf & Hv).
  rewrite (lerp_from_silence _ T) in Hb, Hv.
  rewrite Hb, Hf, Hv, V0. repeat split.
Qed.

Lemma unlock_fades_in_witness :
  volume (el Ambient
            (fst (update 3000
                    (run_ticks [TUpdate 1016; TUpdate 2000]
                       (fst (unlockAndStart Ambient 2000 true 1000 (constructor true true)))))))
  = clamp01 (_target Ambient (constructor true true) * masterVolume (constructor true true)).
Proof.
  destruct (unlock_fades_in Ambient 2000 1000 (constructor true true)
              [TUpdate 1016; TUpdate 2000] 3000 eq_refl eq_refl)
    as (_ & _ & _ & _ & H).
  - discriminate.
  - destruct H as (_ & _ & Hv); [vm_compute; reflexivity | vm_compute; reflexivity |].
    exact Hv.
Defined.

(** ** Crossfades *)

(** Zero times anything is below every audible level. *)
Lemma zero_mul_small mv : (0.0005 <? 0 * mv) = false.
Proof.
  rewrite ltb_spec, mul_spec. change (Prim2SF 0) with (S754_zero false).
  destruct (Prim2SF mv) as [s|s| |s m e]; reflexivity.
Qed.

Lemma upd_done which tNow am :
  active (_fades which am) = true ->
  snd (upd which tNow am) = Returned ->
  (1 <=? clamp01 ((tNow - start (_fades which am)) / dur (_fades which am))) = true ->
  (to (_fades which am) <=? 0.0001) = true ->
  paused (el which (fst (upd which tNow am))) = true.
Proof.
  intros A R P T. revert R. unfold upd. rewrite A. cbn [negb].
  destruct (set_volume _ _); [| intros R; discriminate R].
  rewrite P, T. intros _. destruct which; reflexivity.
Qed.

(** An [update] that ends a fade to silence leaves the element paused. *)
Lemma update_done which tNow am :
  enabled am = true -> muted am = false ->
  active (_fades which am) = true ->
  _fades which (fst (update tNow am)) = deactivate (_fades which am) ->
  (to (_fades which am) <=? 0.0001) = true ->
  paused (el which (fst (update tNow am))) = true.
Proof.
  intros E M A D T. revert D. unfold update. rewrite E, M. cbn [negb].
  assert (Nd : forall f, active f = true -> f <> deactivate f).
  { intros f Hf C. rewrite C in Hf. discriminate Hf. }
  destruct which.
  - pose proof (upd_active Ambient tNow am A) as (_ & Ht & Hr). cbv zeta in *.
    pose proof (upd_done Ambient tNow am A) as Hd.
    destruct (upd Ambient tNow am) as [am1 []] eqn:U; cbn [fst snd] in *.
    + rewrite upd_other_fade, upd_other_el by discriminate.
      destruct (Hr eq_refl) as (Hf & _). intros D. apply Hd; [reflexivity | | exact T].
      destruct (1 <=? _); [reflexivity |]. rewrite Hf in D. destruct (Nd _ A D).
    + intros D. rewrite (Ht eq_refl) in D. destruct (Nd _ A D).
  - pose proof (upd_other_fade Ambient Final tNow am) as Hf.
    destruct (upd Ambient tNow am) as [am1 []] eqn:U; cbn [fst snd] in *.
    + specialize (Hf ltac:(discriminate)).
      assert (A1 : active (_fades Final am1) = true) by (rewrite Hf; exact A).
      pose proof (upd_active Final tNow am1 A1) as (_ & Ht & Hr). cbv zeta in *.
      pose proof (upd_done Final tNow am1 A1) as Hd.
      rewrite Hf in *.
      destruct (snd (upd Final tNow am1)) eqn:S.
      * destruct (Hr eq_refl) as (Hf' & _). intros D. apply Hd; [reflexivity | | exact T].
        destruct (1 <=? _); [reflexivity |]. rewrite Hf' in D. destruct (Nd _ A D).
      * intros D. rewrite (Ht eq_refl) in D. destruct (Nd _ A D).
    + intros D. rewrite Hf in D by discriminate. destruct (Nd _ A D).
Qed.

(** [ensurePlayback()] leaves a channel alone that rests at level 0. *)
Lemma ensurePlayback_silent which allowA allowF s :
  _base which s = 0 -> active (_fades which s) = false ->
  el which (ensurePlayback allowA allowF s) = el which s.
Proof.
  intros B A. unfold ensurePlayback.
  destruct (negb (enabled s)); [reflexivity |]. destruct (muted s); [reflexivity |].
  destruct (masterVolume s <=? 0.0001); [reflexivity |].
  destruct which; cbn [_base _fades el] in *; rewrite B, A, zero_mul_small; cbn [orb andb].
  - destruct (_ && paused (final s)); reflexivity.
  - destruct (_ && paused (ambient s)); reflexivity.
Qed.

Section FadeOut.
Variables (which : channel) (a d st : float).
Hypothesis a_finite : is_finite a = true.

Lemma fading_out_tick k s :
  fading_out which a d st s -> fading_out which a d st (run_tick k s).
Proof.
  intros (E & M & H). destruct k as [tNow | allowA allowF]; cbn [run_tick].
  - pose proof (update_flags tNow s) as (F1 & F2 & F3).
    unfold fading_out. rewrite F1, F2, F3. repeat split; try assumption.
    destruct H as [H | (H & Hb & Hv & Hp)].
    + assert (A : active (_fades which s) = true) by (rewrite H; reflexivity).
      pose proof (update_done which tNow s E M A) as Hd.
      destruct (update_cases which tNow s E M A) as [[Hf _] | (Hb & Hf & Hv & _)];
        cbv zeta in *; rewrite H in *; [left; exact Hf |].
      cbn [started from to start dur] in *.
      destruct (1 <=? clamp01 ((tNow - st) / d)) eqn:C; [| left; exact Hf].
      right. split; [exact Hf |].
      rewrite (clamp01_reaches_one _ C), easeInOut_one, (lerp_to_silence _ a_finite) in Hb, Hv.
      repeat split; [exact Hb | exact Hv |]. apply Hd; [exact Hf | reflexivity].
    + assert (A : active (_fades which s) = false) by (rewrite H; reflexivity).
      destruct (update_idle which tNow s A) as (Hf & Hb' & He).
      right. rewrite Hf, Hb', He. auto.
  - pose proof (ensurePlayback_frame which allowA allowF s) as (Hf & Hb & F1 & F2 & F3 & Hv).
    unfold fading_out. rewrite Hf, Hb, F1, F2, F3, Hv. repeat split; try assumption.
    destruct H as [H | (H & Hb' & Hv' & Hp)]; [left; exact H |].
    right. repeat split; try assumption.
    rewrite ensurePlayback_silent; [exact Hp | exact Hb' |]. rewrite H. reflexivity.
Qed.

Lemma fading_out_ticks ks s :
  fading_out which a d st s -> fading_out which a d st (run_ticks ks s).
Proof.
  revert s. induction ks as [| k ks IH]; intros s H; [exact H |].
  apply IH, fading_out_tick, H.
Qed.

(** Once the progress has reached 1, a normally returning [update] finds
    or leaves the channel silent and paused. *)
Lemma fade_out_completes s tNow :
  fading_out which a d st s ->
  (1 <=? (tNow - st) / d) = true ->
  snd (update tNow s) = Returned ->
  _fades which (fst (update tNow s)) = deactivate (started a 0 d st) /\
  _base which (fst (update tNow s)) = 0 /\
  volume (el which (fst (update tNow s))) = clamp01 (0 * masterVolume s) /\
  paused (el which (fst (update tNow s))) = true.
Proof.
  intros H P R.
  pose proof (fading_out_tick (TUpdate tNow) s H) as (_ & _ & H').
  cbn [run_tick] in H'.
  pose proof (update_flags tNow s) as (_ & _ & F3). rewrite F3 in H'.
  destruct H' as [H' | H']; [| exact H'].
  exfalso. destruct H as (E & M & [H | (H & _)]).
  - assert (A : active (_fades which s) = true) by (rewrite H; reflexivity).
    destruct (update_returned which tNow s E M A R) as (_ & Hf & _).
    rewrite H in Hf. cbn [started from to start dur] in Hf.
    rewrite (clamp01_ge_one _ P) in Hf. rewrite Hf in H'. discriminate H'.
  - assert (A : active (_fades which s) = false) by (rewrite H; reflexivity).
    destruct (update_idle which tNow s A) as (Hf & _). rewrite Hf, H in H'. discriminate H'.
Qed.

End FadeOut.

(** X17. A crossfade ([switchToFinal()], [switchToAmbient()]) on an enabled,
    unmuted controller whose incoming element may play: once an [update()]
    finds both fades at progress 1, the outgoing channel rests at base
    level 0, silent, paused and inactive, whatever updates and playback
    checks came before, and the incoming channel rests at
    [lerp(base, target, 1)], scaled by the master volume on its element. *)
Theorem crossfade_ends_silent
  (outgoing incoming : channel) (d now1 now2 : float) (am : AudioManager)
  (ks : list tick) (tNow : float) :
  outgoing <> incoming ->
  enabled am = true -> muted am = false ->
  is_finite (_getBase outgoing am) = true ->
  (1 <=? (tNow - now1) / d) = true ->
  (1 <=? (tNow - now2) / d) = true ->
  let s0 := switchTo outgoing incoming d true now1 now2 am in
  snd (update tNow (run_ticks ks s0)) = Returned ->
  let s := fst (update tNow (run_ticks ks s0)) in
  let rest := lerp (_getBase incoming am) (_target incoming am) 1 in
  _base outgoing s = 0 /\
  volume (el outgoing s) = clamp01 (0 * masterVolume am) /\
  paused (el outgoing s) = true /\
  active (_fades outgoing s) = false /\
  _base incoming s = rest /\
  volume (el incoming s) = clamp01 (rest * masterVolume am) /\
  active (_fades incoming s) = false.
Proof.
  intros N E M Fin P1 P2 s0 R s rest.
  set (am1 := if paused (el incoming am)
              then set_el incoming (play true (el incoming am)) am else am).
  assert (E1 : enabled am1 = true)
    by (unfold am1; destruct (paused _); [destruct incoming |]; exact E).
  assert (M1 : muted am1 = false)
    by (unfold am1; destruct (paused _); [destruct incoming |]; exact M).
  assert (V1 : masterVolume am1 = masterVolume am)
    by (unfold am1; destruct (paused _); [destruct incoming |]; reflexivity).
  assert (Go : _getBase outgoing am1 = _getBase outgoing am).
  { unfold am1. destruct (paused _); [| reflexivity].
    unfold _getBase. destruct outgoing, incoming; congruence || reflexivity. }
  assert (Gi : _getBase incoming am1 = _getBase incoming am).
  { unfold am1. destruct (paused _); [| reflexivity].
    unfold _getBase. destruct incoming; reflexivity. }
  assert (Ti : _target incoming am1 = _target incoming am)
    by (unfold am1; destruct (paused _); [destruct incoming |]; reflexivity).
  assert (S0 : s0 = crossfade outgoing incoming d now1 now2 am1).
  { unfold s0, switchTo, switch_call. rewrite E, M. cbn [negb orb]. unfold am1.
    destruct (paused (el incoming am)); reflexivity. }
  set (am2 := _startFade outgoing (_getBase outgoing am1) 0 d now1 am1).
  assert (S0' : s0 = _startFade incoming (_getBase incoming am) (_target incoming am) d now2 am2).
  { rewrite S0. unfold crossfade. fold am2. f_equal.
    - rewrite <- Gi. unfold am2, _getBase. destruct incoming; reflexivity.
    - rewrite <- Ti. unfold am2. destruct incoming; reflexivity. }
  assert (E2 : enabled am2 = true) by exact E1.
  assert (M2 : muted am2 = false) by exact M1.
  assert (V2 : masterVolume am2 = masterVolume am) by exact V1.
  (* the incoming channel *)
  pose proof (fade_completes incoming (_getBase incoming am) (_target incoming am) d now2
                am2 ks tNow E2 M2 P2) as Hi.
  cbv zeta in Hi. rewrite <- S0' in Hi. destruct (Hi R) as (Hib & Hif & Hiv).
  (* the outgoing channel *)
  assert (F0 : fading_out outgoing (_getBase outgoing am) d now1 s0).
  { unfold fading_out. rewrite S0'. cbn [enabled muted _startFade set_fadeRaf set_fade].
    repeat split; [exact E2 | exact M2 |]. left.
    unfold am2. rewrite Go. destruct outgoing, incoming; congruence || reflexivity. }
  pose proof (run_ticks_inv incoming _ _ d now2 (masterVolume am2) ks
                _ (startFade_inv incoming (_getBase incoming am) (_target incoming am) d now2
                     am2 E2 M2)) as (_ & _ & Vs & _).
  rewrite <- S0' in Vs.
  destruct (fade_out_completes outgoing (_getBase outgoing am) d now1 Fin
              (run_ticks ks s0) tNow (fading_out_ticks _ _ _ _ Fin ks s0 F0) P1 R)
    as (Hof & Hob & Hov & Hop).
  fold s in Hib, Hif, Hiv, Hof, Hob, Hov, Hop.
  rewrite Vs, V2 in Hov. rewrite V2 in Hiv.
  rewrite Hob, Hov, Hop, Hof, Hib, Hiv, Hif. repeat split.
Qed.

Lemma crossfade_ends_silent_witness :
  let am := {| ambient := {| volume := 0.14; paused := false |};
               final := {| volume := 0; paused := true |};
               enabled := true; muted := false; masterVolume := 1;
               _base_ambient := 0.14; _base_final := 0;
               _targetAmbient := 0.14; _targetFinal := 0.18;
               _fades_ambient := idleFade; _fades_final := idleFade;
               _fadeRaf := false |} in
  paused (el Ambient
            (fst (update 4000
                    (run_ticks [TUpdate 2000; TEnsurePlayback true true]
                       (switchTo Ambient Final 2600 true 1000 1000 am))))) = true.
Proof.
  intros am.
  apply (crossfade_ends_silent Ambient Final 2600 1000 1000 am
           [TUpdate 2000; TEnsurePlayback true true] 4000).
  - discriminate.
  - reflexivity.
  - reflexivity.
  - vm_compute. reflexivity.
  - vm_compute. reflexivity.
  - vm_compute. reflexivity.
  - vm_compute. reflexivity.
Defined.

End AudioMore.

(** ** DiarySystem: the index and the page *)

Module DiaryFacts.
Import JS Diary.

Lemma view_cases d :
  index_ok d ->
  (_phrases d = [] /\ view d = emptyView) \/
  (exists i p, _phrases d !! i = Some p /\ _index d = Z.of_nat i /\
               view d = viewAt (_phrases d) (Z.of_nat i) /\ text (view d) = p).
Proof.
  intros [H0 H]. unfold view.
  destruct (_phrases d) as [| q ps] eqn:E; [left; auto |].
  right. destruct H as [H | [H _]]; [| discriminate].
  cbn [length] in *. rewrite (proj2 (Z.leb_gt _ _)) by lia.
  assert (L : (Z.to_nat (_index d) < length (q :: ps))%nat) by (cbn [length]; lia).
  destruct (lookup_lt_is_Some_2 _ _ L) as [p Hp].
  exists (Z.to_nat (_index d)), p. rewrite Z2Nat.id by lia.
  split; [exact Hp |]. split; [reflexivity |]. split; [reflexivity |].
  cbn [viewAt text]. rewrite (proj2 (Z.ltb_ge _ _)) by lia. rewrite Hp. reflexivity.
Qed.

Lemma render_ok d :
  index_ok d -> index_ok (_render d) /\ page_ok (_render d) /\ 
  (swapOut d = false -> in_sync (_render d)).
Proof.
  intros I. split; [exact I |]. split.
  - intros v Hv. cbn [_render page _phrases] in *. injection Hv as <-.
    destruct (view_cases d I) as [[E V] | (i & p & Hp & _ & V & T)]; [left; auto |].
    right. exists i, p. auto.
  - intros S _. split; [exact S |]. right. reflexivity.
Qed.

Lemma good_init : good init.
Proof.
  repeat split; try (cbn; lia); try discriminate.
  - right. auto.
  - left. reflexivity.
Qed.

Lemma good_render d :
  index_ok d -> (swapOut d = true -> _swaps d <> []) -> good (_render d).
Proof.
  intros I W. destruct (render_ok d I) as (I' & P & S).
  split; [exact I' |]. split; [exact P |]. split; [| exact W].
  intros N. cbn [_render _swaps] in N.
  destruct (swapOut d) eqn:E; [destruct (W eq_refl N) |]. apply S; [reflexivity | exact N].
Qed.

Lemma good_swap now d :
  index_ok d -> page_ok d -> good (_swapToCurrent now d).
Proof.
  intros I P. split; [exact I |]. split; [exact P |]. split.
  - intros N. cbn [_swapToCurrent _swaps] in N. destruct (_swaps d); discriminate N.
  - intros _. cbn [_swapToCurrent _swaps]. destruct (_swaps d); discriminate.
Qed.

(** A page rendered from the present phrases stays one when only the
    index moves. *)
Lemma page_ok_index d i :
  page_ok d ->
  page_ok {| _phrases := _phrases d; _index := i; _open := _open d;
             page := page d; swapOut := swapOut d; _swaps := _swaps d |}.
Proof. intros P. exact P. Qed.

Lemma good_handle e d : good d -> good (handle e d).
Proof.
  intros (I & P & S & W). destruct e as [ps | | | now | now | j now]; cbn [handle].
  - apply good_render; [| exact W].
    destruct I as [I0 I1]. unfold index_ok. cbn [_index _phrases].
    destruct (Z.leb_spec (Z.of_nat (length ps)) (_index d)) as [L | L].
    + split; [lia |]. destruct ps as [| q ps]; [right; auto | left; cbn [length]; lia].
    + split; [exact I0 | left; exact L].
  - apply good_render; [exact I | exact W].
  - split; [exact I |]. split; [exact P |]. split; [exact S | exact W].
  - unfold prev. destruct (Z.leb_spec (Z.of_nat (length (_phrases d))) 0) as [L | L];
      [exact (conj I (conj P (conj S W))) |].
    apply good_swap; [| exact P].
    destruct I as [I0 I1]. unfold index_ok. cbn [_index _phrases]. split; [lia |].
    left. lia.
  - unfold next. destruct (Z.leb_spec (Z.of_nat (length (_phrases d))) 0) as [L | L];
      [exact (conj I (conj P (conj S W))) |].
    apply good_swap; [| exact P].
    destruct I as [I0 I1]. unfold index_ok. cbn [_index _phrases]. split; [lia |].
    left. lia.
  - unfold step. destruct (_swaps d !! j) as [start |]; [| exact (conj I (conj P (conj S W)))].
    destruct (260 <=? now - start)%float; [| exact (conj I (conj P (conj S W)))].
    apply good_render; [exact I |]. cbn [swapOut]. discriminate.
Qed.

Lemma good_run es d : good d -> good (run es d).
Proof.
  revert d. induction es as [| e es IH]; intros d G; [exact G |].
  apply IH, good_handle, G.
Qed.

(** X18. The diary never points outside its phrases: after any sequence of
    [setPhrases], [open], [close], [prev], [next] and swap callbacks the
    index is 0 when there are no phrases and an index of the list
    otherwise, so that [_render()] writes an existing phrase; and the text
    on the page is the placeholder or one of the present phrases. *)
Theorem diary_page_exists (es : list event) :
  let d := run es init in
  (0 <= _index d)%Z /\
  (_phrases d <> [] -> (_index d < Z.of_nat (length (_phrases d)))%Z) /\
  (_phrases d = [] -> _index d = 0%Z) /\
  (exists p, text (view d) = p /\
     (_phrases d = [] \/ _phrases d !! Z.to_nat (_index d) = Some p)) /\
  (forall v, page d = Some v ->
     (_phrases d = [] /\ v = emptyView) \/ text v ∈ _phrases d).
Proof.
  intros d. destruct (good_run es init good_init) as (I & P & _). fold d in I, P.
  pose proof I as [I0 I1].
  split; [exact I0 |]. split; [| split; [| split]].
  - intros N. destruct I1 as [H | [H _]]; [exact H | contradiction].
  - intros E. destruct I1 as [H | [_ H]]; [| exact H]. rewrite E in H. cbn in H. lia.
  - exists (text (view d)). split; [reflexivity |].
    destruct (view_cases d I) as [[E _] | (i & p & Hp & Hi & _ & T)]; [left; exact E |].
    right. rewrite Hi, Nat2Z.id, T. exact Hp.
  - intros v Hv. destruct (P v Hv) as [H | (i & p & Hp & _ & T)]; [left; exact H |].
    right. rewrite T. apply list_elem_of_lookup. eauto.
Qed.

(** X19. Once the swap animations are over the diary shows the current
    page: with no swap in flight the text is not faded out and what is on
    the page is what [_render()] writes for the present index (or nothing
    was rendered yet); and the callback of the last swap in flight, run
    260 ms or more after its start, renders the present page. *)
Theorem diary_page_in_sync (es : list event) :
  let d := run es init in
  (_swaps d = [] -> swapOut d = false /\ (page d = None \/ page d = Some (view d))) /\
  (forall start now,
     _swaps d = [start] -> (260 <=? now - start)%float = true ->
     _swaps (step 0 now d) = [] /\ swapOut (step 0 now d) = false /\
     page (step 0 now d) = Some (view d) /\
     _index (step 0 now d) = _index d /\ _phrases (step 0 now d) = _phrases d).
Proof.
  intros d. destruct (good_run es init good_init) as (_ & _ & S & _). fold d in S.
  split; [exact S |].
  intros start now E T. unfold step. rewrite E. cbn [lookup list_lookup]. rewrite T.
  cbn. repeat split.
Qed.

Lemma diary_page_in_sync_witness :
  let d := run [SetPhrases ["uno"; "dos"]; Open; Next 1000] init in
  page (step 0 1300 d) = Some (view d).
Proof.
  intros d.
  destruct (diary_page_in_sync [SetPhrases ["uno"; "dos"]; Open; Next 1000]) as [_ H].
  destruct (H 1000%float 1300%float) as (_ & _ & Hp & _); [reflexivity | reflexivity |].
  exact Hp.
Defined.

End DiaryFacts.

(** ** CatchMiniGame *)

Module CatchFacts.
Import JS CatchMiniGame.

Lemma counted_mount g : _target g = 3 -> counted ∅ (mount g).
Proof.
  intros T. repeat split; try assumption.
  intros i Hi. cbn [mount _butterflies]. rewrite lookup_replicate_2 by exact Hi.
  rewrite bool_decide_eq_true_2 by set_solver. reflexivity.
Qed.

Lemma counted_onCatch hits i g :
  counted hits g ->
  counted (if bool_decide (i < 5) then {[ i ]} ∪ hits else hits) (fst (onCatch i g)) /\
  snd (onCatch i g) = bool_decide (i < 5 /\ i ∉ hits) && (3 <=? S (size hits)).
Proof.
  intros (M & T & L & A & C). unfold onCatch. rewrite M. cbn [negb].
  destruct (bool_decide_reflect (i < 5)) as [Hi | Hi].
  - rewrite (A i Hi).
    destruct (bool_decide_reflect (i ∉ hits)) as [Hn | Hn]; cbn [fst snd].
    + rewrite bool_decide_eq_true_2 by auto. cbn [andb]. rewrite T, C. split; [| reflexivity].
      repeat split; cbn [_mounted _target _butterflies _caught]; try assumption.
      * rewrite length_insert. exact L.
      * intros j Hj. destruct (decide (i = j)) as [<- | N].
        -- rewrite list_lookup_insert_eq by lia.
           rewrite bool_decide_eq_false_2 by set_solver. reflexivity.
        -- rewrite list_lookup_insert_ne by exact N. rewrite (A j Hj).
           f_equal. apply bool_decide_ext. set_solver.
      * rewrite size_union, size_singleton by set_solver. reflexivity.
    + rewrite bool_decide_eq_false_2 by tauto. cbn [andb]. split; [| reflexivity].
      assert (Hin : i ∈ hits) by (destruct (decide (i ∈ hits)); [assumption | contradiction]).
      assert (E : {[ i ]} ∪ hits = hits) by set_solver.
      rewrite E. repeat split; assumption.
  - rewrite bool_decide_eq_false_2 by tauto. cbn [andb].
    rewrite (lookup_ge_None_2 (_butterflies g) i) by lia. cbn [fst snd].
    split; [| reflexivity]. repeat split; assumption.
Qed.

Lemma catch_run_snoc taps i g :
  run (taps ++ [i]) g =
  (fst (onCatch i (fst (run taps g))), snd (run taps g) ++ [snd (onCatch i (fst (run taps g)))]).
Proof. unfold run. rewrite fold_left_app. reflexivity. Qed.

Lemma hit_snoc taps i :
  hit (taps ++ [i]) = (if bool_decide (i < 5) then {[ i ]} ∪ hit taps else hit taps).
Proof.
  unfold hit. rewrite filter_app, list_to_set_app_L. cbn [filter list_filter].
  destruct (decide (i < 5)) as [H | H].
  - rewrite bool_decide_eq_true_2 by exact H. cbn. set_solver.
  - rewrite bool_decide_eq_false_2 by exact H. cbn. set_solver.
Qed.

Lemma counted_run taps g :
  _target g = 3 ->
  counted (hit taps) (fst (run taps (mount g))) /\
  (existsb (fun b => b) (snd (run taps (mount g))) = true <-> 3 <= size (hit taps)).
Proof.
  intros T. induction taps as [| i taps [IH1 IH2]] using rev_ind.
  - split; [apply counted_mount, T |]. cbn. rewrite size_empty. split; [discriminate | lia].
  - rewrite catch_run_snoc, hit_snoc. cbn [fst snd].
    destruct (counted_onCatch (hit taps) i _ IH1) as [C S].
    split; [exact C |].
    rewrite existsb_app, orb_true_iff, IH2, S. cbn [existsb]. rewrite orb_false_r.
    rewrite andb_true_iff, bool_decide_eq_true, Nat.leb_le.
    destruct (bool_decide_reflect (i < 5)) as [Hi | Hi].
    + destruct (decide (i ∈ hit taps)) as [Hin | Hin].
      * assert (E : {[ i ]} ∪ hit taps = hit taps) by set_solver. rewrite E. tauto.
      * rewrite size_union, size_singleton by set_solver. split; [lia |].
        intros H. destruct (decide (3 <= size (hit taps))); [left; assumption | right].
        split; [auto | lia].
    + tauto.
Qed.

(** X20. The catch game counts butterflies, not events: after any sequence
    of runs of the listeners, [_caught] is the number of different
    butterflies hit, a butterfly is alive exactly when it was not hit, and
    [onComplete] was called at some point exactly when at least three
    different butterflies were hit; after [unmount()] no tap calls it. *)
Theorem three_butterflies (g : CatchMiniGame) (taps : list nat) :
  _target g = 3 ->
  let r := run taps (mount g) in
  _caught (fst r) = size (hit taps) /\
  (forall i, i < 5 -> _butterflies (fst r) !! i = Some (bool_decide (i ∉ hit taps))) /\
  (existsb (fun b => b) (snd r) = true <-> 3 <= size (hit taps)) /\
  (forall i, snd (onCatch i (unmount (fst r))) = false).
Proof.
  intros T r. destruct (counted_run taps g T) as [(_ & _ & _ & A & C) S]. fold r in A, C, S.
  split; [exact C |]. split; [exact A |]. split; [exact S |].
  intros i. reflexivity.
Qed.

Lemma three_butterflies_witness :
  let r := run [0; 0; 0; 3; 3; 7; 1; 1] (mount init) in
  _caught (fst r) = 3 /\ snd r = [false; false; false; false; false; false; true; false].
Proof.
  intros r. split; [| reflexivity].
  destruct (three_butterflies init [0; 0; 0; 3; 3; 7; 1; 1] eq_refl) as [C _].
  fold r in C. rewrite C. vm_compute. reflexivity.
Defined.

End CatchFacts.

(** ** HoldMiniGame *)

Module HoldFacts.
Import JS HoldMiniGame FloatFacts.
Local Open Scope float_scope.

(** The clamped progress has reached 1 exactly when the progress has. *)
Lemma clamp01_full x : (1 <=? clamp01 x) = (1 <=? x).
Proof.
  destruct (1 <=? x) eqn:E.
  - rewrite (clamp01_ge_one _ E). reflexivity.
  - destruct (1 <=? clamp01 x) eqn:C; [| reflexivity].
    pose proof (clamp01_reaches_one _ C) as C1.
    apply not_leb_cases in E as [E | [E | E]].
    + discriminate E.
    + apply NumberMore.nan_is in E. subst x. discriminate C.
    + destruct (NumberMore.clamp01_below_one x E) as [[Cx _] | Cx].
      * rewrite Cx in C1. subst x. discriminate E.
      * rewrite Cx in C1. discriminate C1.
Qed.

Lemma hold_run_snoc es e g : run (es ++ [e]) g = handle e (run es g).
Proof. unfold run. rewrite fold_left_app. reflexivity. Qed.

(** Pointer events change nothing but [_holding] and [_holdStart]: a held
    press dates from the last [down]. *)
Lemma run_pointer es g :
  _mounted (run es g) = _mounted g /\ _orb (run es g) = _orb g /\
  _requiredMs (run es g) = _requiredMs g /\ shown (run es g) = shown g /\
  match held_since es with
  | Some now => _holding (run es g) = true /\ _holdStart (run es g) = now
  | None => es <> [] -> _holding (run es g) = false
  end.
Proof.
  induction es as [| e es IH] using rev_ind.
  - cbn. repeat split. intros []. reflexivity.
  - rewrite hold_run_snoc. unfold held_since. rewrite last_snoc.
    destruct IH as (M & O & R & S & _).
    destruct e as [now |]; cbn [handle down up _mounted _orb _requiredMs shown _holding _holdStart];
      repeat split; assumption.
Qed.

(** X21. The hold game counts from the last press: after any sequence of
    presses and releases on a mounted game, [update(t)] calls [onComplete]
    exactly when the orb is still held and [(t - since) / _requiredMs] has
    reached 1, [since] being the time of the press that is held; otherwise
    it shows the clamped progress, 0 when nothing is held; an unmounted
    game never completes. *)
Theorem hold_counts_from_last_press (g : HoldMiniGame) (es : list pointer) (t : float) :
  let h := run es (mount g) in
  match held_since es with
  | Some since =>
    snd (update t h) = (1 <=? (t - since) / _requiredMs g) /\
    (snd (update t h) = false ->
     shown (fst (update t h)) = clamp01 ((t - since) / _requiredMs g))
  | None => snd (update t h) = false /\ shown (fst (update t h)) = 0
  end /\
  (forall t', snd (update t' (unmount h)) = false).
Proof.
  intros h. destruct (run_pointer es (mount g)) as (M & O & R & _ & H). fold h in M, O, R, H.
  cbn [mount _mounted _orb _requiredMs] in M, O, R.
  split.
  - unfold update. rewrite M, O, R. cbn [negb orb].
    destruct (held_since es) as [since |] eqn:E.
    + destruct H as [Hh Hs]. rewrite Hh, Hs. cbn [andb]. rewrite clamp01_full.
      destruct (1 <=? (t - since) / _requiredMs g); cbn [fst snd]; split; try reflexivity.
      discriminate.
    + assert (Hh : _holding h = false).
      { destruct es as [| e es']; [reflexivity | apply H; discriminate]. }
      rewrite Hh. cbn [andb fst snd]. split; reflexivity.
  - intros t'. reflexivity.
Qed.

Lemma hold_counts_from_last_press_witness :
  snd (update 5000 (run [Down 1000; Up; Down 3500] (mount init))) = false /\
  snd (update 5600 (run [Down 1000; Up; Down 3500] (mount init))) = true.
Proof.
  destruct (hold_counts_from_last_press init [Down 1000; Up; Down 3500] 5000) as [[A _] _].
  destruct (hold_counts_from_last_press init [Down 1000; Up; Down 3500] 5600) as [[B _] _].
  split; [rewrite A | rewrite B]; vm_compute; reflexivity.
Defined.

End HoldFacts.

(** ** SequenceMiniGame *)

Module SequenceFacts.
Import JS SequenceMiniGame.
Local Open Scope float_scope.

(** The three outcomes of a press. *)
Lemma onPress_cases idx tNow g :
  onPress idx tNow g = (g, None) \/
  (_order g !! _progress g = Some idx /\
   snd (onPress idx tNow g) = Some (length (_order g) <=? S (_progress g))%nat /\
   _progress (fst (onPress idx tNow g)) = S (_progress g) /\
   _order (fst (onPress idx tNow g)) = _order g) \/
  (_order g !! _progress g <> Some idx /\
   snd (onPress idx tNow g) = Some false /\
   _progress (fst (onPress idx tNow g)) = 0%nat /\
   _order (fst (onPress idx tNow g)) = _order g).
Proof.
  unfold onPress.
  destruct (negb (_mounted g)); [left; reflexivity |].
  destruct (_showing g); [left; reflexivity |].
  destruct (tNow <? _readyAt g); [left; reflexivity |].
  destruct (tNow - _lastPressAt g <? 240); [left; reflexivity |].
  destruct (bool_decide_reflect (_order g !! _progress g = Some idx)) as [H | H];
    right; [left | right]; cbn; auto.
Qed.

Lemma frame_keeps t g :
  _order (update t g) = _order g /\ _progress (update t g) = _progress g.
Proof.
  unfold update.
  destruct (negb (_mounted g)); [auto |]. destruct (negb (_showing g)); [auto |].
  destruct (t <? _phaseStart g); [auto |].
  destruct (_ <? of_nat _); cbn; auto.
Qed.

Lemma matched_handle order e s : matched order s -> matched order (handle e s).
Proof.
  intros (O & P & D). destruct s as [g log]. cbn [fst snd] in *.
  destruct e as [idx tNow | t]; cbn [handle fst snd].
  - destruct (onPress_cases idx tNow g) as [E | [(H & S & Pr & Or) | (H & S & Pr & Or)]].
    + rewrite E. exact (conj O (conj P D)).
    + destruct (onPress idx tNow g) as [g' o]. cbn [fst snd] in *. subst o.
      rewrite O in *.
      assert (T : take (S (_progress g)) order = take (_progress g) order ++ [idx])
        by (apply take_S_r, H).
      assert (Sx : take (S (_progress g)) order `suffix_of` (log ++ [(idx, (length order <=? S (_progress g))%nat)]).*1).
      { rewrite T, fmap_app. cbn. apply suffix_app, P. }
      split; [cbn [fst]; exact Or |]. cbn [fst snd]. rewrite Pr. split; [exact Sx |].
      intros k i Hk. apply lookup_app_Some in Hk as [Hk | [Hl Hk]].
      * destruct (D k i Hk) as [N Sk]. split; [exact N |].
        rewrite fmap_app, take_app_le; [exact Sk |].
        rewrite length_fmap. apply lookup_lt_Some in Hk. lia.
      * destruct (k - length log)%nat eqn:Ek; [| destruct n; discriminate Hk].
        cbn in Hk. injection Hk as -> Hd. apply Nat.leb_le in Hd.
        assert (Hp : (_progress g < length order)%nat) by (eapply lookup_lt_Some, H).
        split; [intros ->; cbn in Hp; lia |].
        rewrite take_ge in Sx by lia.
        rewrite take_ge; [exact Sx |]. rewrite length_fmap, length_app. cbn. lia.
    + destruct (onPress idx tNow g) as [g' o]. cbn [fst snd] in *. subst o.
      split; [cbn [fst]; congruence |]. cbn [fst snd]. rewrite Pr. split; [apply suffix_nil |].
      intros k i Hk. apply lookup_app_Some in Hk as [Hk | [Hl Hk]].
      * destruct (D k i Hk) as [N Sk]. split; [exact N |].
        rewrite fmap_app, take_app_le; [exact Sk |].
        rewrite length_fmap. apply lookup_lt_Some in Hk. lia.
      * destruct (k - length log)%nat eqn:Ek; [| destruct n; discriminate Hk].
        discriminate Hk.
  - destruct (frame_keeps t g) as [Or Pr]. unfold matched. cbn [fst snd].
    rewrite Or, Pr. exact (conj O (conj P D)).
Qed.

Lemma matched_fold order es s :
  matched order s -> matched order (fold_left (fun s e => handle e s) es s).
Proof.
  revert s. induction es as [| e es IH]; intros s H; [exact H |].
  apply IH, matched_handle, H.
Qed.

(** X22. The sequence game completes only on its pattern: in any run of
    presses and frames after [mount], an accepted press calls [onComplete]
    only if the accepted presses up to it end with the whole pattern, in
    order. *)
Theorem completes_only_on_pattern
  (indices : list nat) (now : float) (g : SequenceMiniGame) (es : list event)
  (k idx : nat) :
  let r := run es (mount indices now g) in
  snd r !! k = Some (idx, true) ->
  indices `suffix_of` take (S k) (snd r).*1 /\
  indices <> [] /\ last indices = Some idx.
Proof.
  intros r Hk.
  assert (M : matched indices r).
  { apply matched_fold. split; [reflexivity |]. split; [apply suffix_nil |].
    intros ? ? H0. discriminate H0. }
  destruct M as (_ & _ & D). destruct (D k idx Hk) as [N Sf].
  split; [exact Sf |]. split; [exact N |].
  assert (L : last (take (S k) (snd r).*1) = Some idx).
  { assert (E : take (S k) (snd r).*1 = take k (snd r).*1 ++ [idx]).
    { apply take_S_r. rewrite list_lookup_fmap, Hk. reflexivity. }
    rewrite E. apply last_snoc. }
  destruct Sf as [pre E]. rewrite E in L.
  destruct indices as [| i0 rest] using rev_ind; [contradiction |].
  rewrite app_assoc, last_snoc in L. rewrite last_snoc. exact L.
Qed.

Lemma pattern_run pre rest ts g log :
  _mounted g = true -> _showing g = false ->
  _order g = pre ++ rest -> _progress g = length pre ->
  length ts = length rest ->
  Forall (fun t => (t <? _readyAt g) = false) ts ->
  spaced (_lastPressAt g) ts ->
  let r := fold_left (fun s e => handle e s) (presses rest ts) (g, log) in
  snd r = log ++ imap (fun k idx => (idx, (length (_order g) <=? S (length pre + k))%nat)) rest /\
  _progress (fst r) = length (_order g) /\ _order (fst r) = _order g /\
  _mounted (fst r) = true.
Proof.
  revert pre ts g log. induction rest as [| idx rest IH]; intros pre ts g log M Sh O P L R Sp.
  - destruct ts; [| discriminate L]. cbn. rewrite app_nil_r in *. rewrite O, P. auto.
  - destruct ts as [| t ts]; [discriminate L |].
    cbn [presses fold_left handle fst snd].
    apply Forall_cons in R as [Rt R]. destruct Sp as [St Sp].
    assert (H : _order g !! _progress g = Some idx).
    { rewrite O, P. rewrite lookup_app_r by lia. rewrite Nat.sub_diag. reflexivity. }
    set (g' := {| _mounted := _mounted g; _order := _order g; _progress := S (_progress g);
                  _showing := _showing g; _phaseStart := _phaseStart g;
                  _readyAt := _readyAt g;
                  _flashUntil := <[idx := t + 260]> (_flashUntil g);
                  _lastPressAt := t; hint := hint g |}).
    assert (E : onPress idx t g = (g', Some (length (_order g) <=? S (_progress g))%nat)).
    { unfold onPress, g'. rewrite M, Sh, Rt, St. cbn [negb].
      rewrite bool_decide_eq_true_2 by exact H. reflexivity. }
    rewrite E.
    specialize (IH (pre ++ [idx]) ts g'
                  (log ++ [(idx, (length (_order g) <=? S (_progress g))%nat)])).
    cbn [g' _mounted _showing _order _progress _readyAt _lastPressAt] in IH.
    destruct IH as (I1 & I2 & I3 & I4); try assumption.
    + rewrite O, <- app_assoc. reflexivity.
    + rewrite P, length_app. cbn. lia.
    + cbn in L. lia.
    + cbv zeta. rewrite I1, I2, I3, I4. split; [| auto].
      rewrite <- app_assoc. f_equal. cbn [app imap]. rewrite P, Nat.add_0_r. f_equal.
      apply imap_ext. intros k x _. cbn. rewrite length_app. cbn.
      replace (length pre + 1 + k)%nat with (length pre + S k)%nat by lia. reflexivity.
Qed.

(** X23. Repeating the pattern completes the sequence game: once the show
    is over, with no progress made, the lights of the pattern pressed in
    order, none before [_readyAt] and each at least 240 ms after the press
    before, are all accepted, and [onComplete] is called at the last press
    and at no earlier one. *)
Theorem pattern_in_order_completes (g : SequenceMiniGame) (ts : list float) :
  _mounted g = true -> _showing g = false -> _progress g = 0%nat ->
  length ts = length (_order g) ->
  Forall (fun t => (t <? _readyAt g) = false) ts ->
  spaced (_lastPressAt g) ts ->
  let r := run (presses (_order g) ts) g in
  snd r = imap (fun k idx => (idx, (length (_order g) <=? S k)%nat)) (_order g) /\
  _progress (fst r) = length (_order g).
Proof.
  intros M Sh P L R Sp r.
  destruct (pattern_run [] (_order g) ts g [] M Sh eq_refl P L R Sp) as (H1 & H2 & _).
  fold (run (presses (_order g) ts) g) in H1, H2. fold r in H1, H2.
  split; [exact H1 | exact H2].
Qed.

Local Close Scope float_scope.

Lemma pattern_in_order_completes_witness :
  let g := update 9000 (mount [2; 0; 3] 1000 (init 0)) in
  snd (run (presses (_order g) [10500; 11000; 11400]%float) g)
  = [(2, false); (0, false); (3, true)].
Proof.
  intros g.
  apply (pattern_in_order_completes g [10500; 11000; 11400]%float).
  - reflexivity.
  - vm_compute. reflexivity.
  - reflexivity.
  - reflexivity.
  - repeat constructor.
  - vm_compute. repeat split; reflexivity.
Defined.

Lemma completes_only_on_pattern_witness :
  let r := run [Frame 9000; Press 2 10500; Press 2 11000; Press 2 11500; Press 0 12000;
                Press 3 12001; Press 3 12500]
             (mount [2; 0; 3] 1000 (init 0)) in
  [2; 0; 3] `suffix_of` take 5 (snd r).*1.
Proof.
  intros r.
  apply (completes_only_on_pattern [2; 0; 3] 1000 (init 0)
           [Frame 9000; Press 2 10500; Press 2 11000; Press 2 11500; Press 0 12000;
            Press 3 12001; Press 3 12500] 4 3).
  vm_compute. reflexivity.
Defined.

End SequenceFacts.

(** ** MessageSystem: the phases of a message *)

Module MessageFacts.
Import JS App Messages FloatFacts.
Local Open Scope float_scope.

Lemma wait_in t0 fs m :
  _phase m = FadeIn -> _t0 m = t0 -> before_full _durIn t0 fs -> frames fs m = m.
Proof.
  intros P T F. induction F as [| f fs Hf F IH]; [reflexivity |].
  cbn [frames fold_left]. fold (frames fs (fst (update (fst f) (snd f) m))).
  assert (E : fst (update (fst f) (snd f) m) = m).
  { unfold update. rewrite P, T, HoldFacts.clamp01_full, Hf. reflexivity. }
  rewrite E. exact IH.
Qed.

Lemma wait_hold t0 fs m :
  _phase m = Hold -> _t0 m = t0 -> before_held (_durHold m) t0 fs -> frames fs m = m.
Proof.
  intros P T F. induction F as [| f fs Hf F IH]; [reflexivity |].
  cbn [frames fold_left]. fold (frames fs (fst (update (fst f) (snd f) m))).
  assert (E : fst (update (fst f) (snd f) m) = m).
  { unfold update. rewrite P, T, Hf. reflexivity. }
  rewrite E. exact IH.
Qed.

Lemma wait_out t0 fs m :
  _phase m = FadeOut -> _t0 m = t0 -> before_full _durOut t0 fs -> frames fs m = m.
Proof.
  intros P T F. induction F as [| f fs Hf F IH]; [reflexivity |].
  cbn [frames fold_left]. fold (frames fs (fst (update (fst f) (snd f) m))).
  assert (E : fst (update (fst f) (snd f) m) = m).
  { unfold update. rewrite P, T, HoldFacts.clamp01_full, Hf. reflexivity. }
  rewrite E. exact IH.
Qed.

(** X24. The life of a message: after [show(text, holdMs)] the box stays in
    the fade-in through every update that comes before 520 ms have passed;
    the first update after that writes opacity 1 and offset 0 exactly and
    begins the hold; the hold lasts through every update before [holdMs]
    have passed since; the first update after that begins the fade-out;
    and the first update 900 ms or more into the fade-out writes opacity 0
    and offset 10 and leaves the box idle, where updates do nothing.  The
    text is never changed on the way. *)
Theorem message_life_cycle
  (text : string) (holdMs t0 : float) (fs1 fs2 fs3 : list (float * float))
  (a1 b1 a2 b2 a3 b3 : float) :
  before_full _durIn t0 fs1 -> (1 <=? (a1 - t0) / _durIn) = true ->
  before_held holdMs b1 fs2 -> (holdMs <=? a2 - b1) = true ->
  before_full _durOut b2 fs3 -> (1 <=? (a3 - b2) / _durOut) = true ->
  let r1 := update a1 b1 (frames fs1 (show text holdMs t0)) in
  let r2 := update a2 b2 (frames fs2 (fst r1)) in
  let r3 := update a3 b3 (frames fs3 (fst r2)) in
  r1 = ({| _phase := Hold; _t0 := b1; _durHold := holdMs; _current := text |}, Some (1, 0)) /\
  r2 = ({| _phase := FadeOut; _t0 := b2; _durHold := holdMs; _current := text |}, Some (1, 0)) /\
  r3 = ({| _phase := Idle; _t0 := b2; _durHold := holdMs; _current := text |}, Some (0, 10)) /\
  (forall now1 now2, update now1 now2 (fst r3) = (fst r3, None)).
Proof.
  intros F1 L1 F2 L2 F3 L3 r1 r2 r3.
  assert (E1 : r1 = ({| _phase := Hold; _t0 := b1; _durHold := holdMs; _current := text |},
                     Some (1, 0))).
  { unfold r1. rewrite (wait_in t0 fs1) by (reflexivity || exact F1).
    unfold update, show. cbn [_phase _t0].
    rewrite HoldFacts.clamp01_full, L1, (clamp01_ge_one _ L1). reflexivity. }
  assert (E2 : r2 = ({| _phase := FadeOut; _t0 := b2; _durHold := holdMs; _current := text |},
                     Some (1, 0))).
  { unfold r2. rewrite E1. cbn [fst].
    rewrite (wait_hold b1 fs2) by (reflexivity || exact F2).
    unfold update. cbn [_phase _t0 _durHold]. rewrite L2. reflexivity. }
  assert (E3 : r3 = ({| _phase := Idle; _t0 := b2; _durHold := holdMs; _current := text |},
                     Some (0, 10))).
  { unfold r3. rewrite E2. cbn [fst].
    rewrite (wait_out b2 fs3) by (reflexivity || exact F3).
    unfold update. cbn [_phase _t0]. rewrite HoldFacts.clamp01_full, L3. reflexivity. }
  split; [exact E1 |]. split; [exact E2 |]. split; [exact E3 |].
  intros now1 now2. rewrite E3. reflexivity.
Qed.

Lemma message_life_cycle_witness :
  fst (update 5000 5000
         (frames [(3900, 3900)]
            (fst (update 3800 3800
                    (frames [(1600, 1600); (2000, 2000)]
                       (fst (update 1520 1521
                               (frames [(1016, 1016); (1300, 1300)]
                                  (show "hola" 2200 1000)))))))))
  = {| _phase := Idle; _t0 := 3800; _durHold := 2200; _current := "hola" |}.
Proof.
  destruct (message_life_cycle "hola" 2200 1000
              [(1016, 1016); (1300, 1300)] [(1600, 1600); (2000, 2000)] [(3900, 3900)]
              1520 1521 3800 3800 5000 5000) as (_ & _ & E & _).
  - repeat constructor.
  - vm_compute. reflexivity.
  - repeat constructor.
  - vm_compute. reflexivity.
  - repeat constructor.
  - vm_compute. reflexivity.
  - rewrite E. reflexivity.
Defined.

End MessageFacts.

(** ** StorageManager.load: what it returns *)

Module StorageMore.
Import JS Storage FloatFacts.
Local Open Scope float_scope.

Lemma recordOf_sanitised parsed :
  (is_nan (volume (recordOf parsed)) = true \/ Audio.in01 (volume (recordOf parsed)) = true) /\
  ((exists fields, assignedPhrases (recordOf parsed) = JObj fields) \/
   (exists items, assignedPhrases (recordOf parsed) = JArr items)).
Proof.
  split.
  - unfold recordOf. cbn [volume].
    destruct (get parsed "volume") as [[] |]; try (right; reflexivity).
    destruct (is_nan (clamp01 x)) eqn:N; [left; reflexivity | right].
    apply AudioMore.in01_clamp, N.
  - unfold recordOf. cbn [assignedPhrases].
    destruct (truthy (Some parsed)); [| left; eauto].
    destruct (get parsed "assignedPhrases") as [[] |]; eauto.
Qed.

(** Anything but an object reads as the default record. *)
Lemma recordOf_not_object parsed :
  (forall fields, parsed <> JObj fields) -> recordOf parsed = defaultRecord.
Proof.
  intros N. destruct parsed as [| b | x | s | items | fields]; try reflexivity.
  - destruct b; reflexivity.
  - unfold recordOf. cbn. destruct (truthy_num x); reflexivity.
  - unfold recordOf. cbn. destruct (truthy_str s); reflexivity.
  - destruct (N fields eq_refl).
Qed.

Section LoadMore.
Variable JSON_parse : string -> option jsval.

(** X25. [load()] never fails and cleans what it reads: whatever the storage
    holds and however it parses, the record returned is the default record
    unless the stored text is non-empty and parses to an object, in which
    case it is read off that object; its volume is a number from 0 to 1
    (or [NaN], which no JSON text yields), and its [assignedPhrases] is an
    object or an array. *)
Theorem load_sanitises (storageKey : string) (ls : gmap string string) :
  let r := fst (load JSON_parse storageKey ls) in
  (r = defaultRecord \/
   exists raw fields,
     resetOnce storageKey ls !! storageKey = Some raw /\ raw <> EmptyString /\
     JSON_parse raw = Some (JObj fields) /\ r = recordOf (JObj fields)) /\
  (is_nan (volume r) = true \/ Audio.in01 (volume r) = true) /\
  ((exists fields, assignedPhrases r = JObj fields) \/
   (exists items, assignedPhrases r = JArr items)).
Proof.
  intros r.
  assert (D : (is_nan (volume defaultRecord) = true \/ Audio.in01 (volume defaultRecord) = true) /\
              ((exists fields, assignedPhrases defaultRecord = JObj fields) \/
               (exists items, assignedPhrases defaultRecord = JArr items))).
  { split; [right; reflexivity | left; eexists; reflexivity]. }
  unfold r, load.
  destruct (resetOnce storageKey ls !! storageKey) as [raw |] eqn:L; cbn [fst];
    [| split; [left; reflexivity | exact D]].
  destruct (truthy_str raw) eqn:T; cbn [negb fst]; [| split; [left; reflexivity | exact D]].
  destruct (JSON_parse raw) as [parsed |] eqn:P; cbn [fst];
    [| split; [left; reflexivity | exact D]].
  assert (S : forall p, (fst (match p with
                              | JNull => (defaultRecord, resetOnce storageKey ls)
                              | _ => (recordOf p, resetOnce storageKey ls)
                              end) = defaultRecord \/ exists fields, p = JObj fields /\
                         fst (match p with
                              | JNull => (defaultRecord, resetOnce storageKey ls)
                              | _ => (recordOf p, resetOnce storageKey ls)
                              end) = recordOf (JObj fields))).
  { intros p. destruct p as [| b | x | s | items | fields]; cbn [fst];
      try (left; apply recordOf_not_object; discriminate); [left; reflexivity |].
    right. eauto. }
  split.
  - destruct (S parsed) as [E | (fields & -> & E)]; [left; exact E |].
    right. exists raw, fields. split; [reflexivity |].
    split; [apply StorageFacts.truthy_str_spec, T |]. split; [exact P | exact E].
  - destruct parsed; cbn [fst]; try exact D;
      match goal with |- context [recordOf ?p] => exact (recordOf_sanitised p) end.
Qed.

End LoadMore.

End StorageMore.

(** ** A hold game in the manager *)

Module HoldSessionFacts.
Import JS HoldSession.
Local Open Scope float_scope.

Lemma run_pointers ps s :
  run (Pointer <$> ps) s =
  {| manager := manager s; game := HoldMiniGame.run ps (game s) |}.
Proof.
  revert s. induction ps as [| p ps IH]; intros s; [destruct s; reflexivity |].
  cbn [fmap list_fmap run fold_left handle].
  change (fold_left _ (list_fmap _ _ Pointer ps) ?x) with (run (Pointer <$> ps) x).
  rewrite IH. reflexivity.
Qed.

Lemma over_handle answers e s : over answers s -> over answers (handle e s).
Proof.
  intros (O & R & M & T). destruct e as [p | t | t]; cbn [handle].
  - repeat split; try assumption. cbn [game]. destruct p; exact M.
  - unfold update. rewrite O. repeat split; assumption.
  - assert (E : MiniGames.cancel t (manager s) = MiniGames.cancel t (manager s)) by reflexivity.
    assert (A : MiniGames._active (MiniGames.mgr (manager s)) = None).
    { unfold MiniGames.isOpen in O. destruct (MiniGames._active _); [discriminate | reflexivity]. }
    assert (C : over answers {| manager := MiniGames._finish false (manager s); game := game s |}).
    { unfold over, MiniGames._finish, MiniGames.close, MiniGames.isOpen. cbn [manager game].
      rewrite R, A. cbn. repeat split; assumption. }
    unfold MiniGames.cancel. destruct (_ && _).
    + unfold closed_by. rewrite O. cbn [andb]. repeat split; assumption.
    + unfold closed_by. rewrite O. cbn [andb]. exact C.
Qed.

Lemma over_run answers es s : over answers s -> over answers (run es s).
Proof.
  revert s. induction es as [| e es IH]; intros s H; [exact H |].
  apply IH, over_handle, H.
Qed.

(** X26. A hold game in the manager: after [open] and any presses and
    releases, a frame resolves the promise to [true] exactly when the orb is
    still held and [(t - since) / 2100] has reached 1; the manager is then
    closed and the game unmounted, and whatever frames, clicks and pointer
    events follow, the promise is not resolved again.  Otherwise the game
    stays open and mounted and the promise pending. *)
Theorem held_long_enough_wins
  (t0 : float) (ps : list HoldMiniGame.pointer) (t : float) (later : list event) :
  let s := update t (run (Pointer <$> ps) (start t0)) in
  let pending :=
    MiniGames.isOpen (manager s) = true /\
    HoldMiniGame._mounted (game s) = true /\
    MiniGames.resolutions 0%nat (MiniGames.trace (manager s)) = [] in
  match HoldMiniGame.held_since ps with
  | Some since =>
    if 1 <=? (t - since) / 2100
    then over [true] s /\ over [true] (run later s)
    else pending
  | None => pending
  end.
Proof.
  cbv zeta. rewrite run_pointers. cbn [manager game start].
  destruct (HoldFacts.run_pointer ps (HoldMiniGame.mount HoldMiniGame.init))
    as (M & O & R & _ & H).
  cbn [HoldMiniGame.mount HoldMiniGame.init HoldMiniGame._mounted HoldMiniGame._orb
       HoldMiniGame._requiredMs] in M, O, R.
  set (g := HoldMiniGame.run ps (HoldMiniGame.mount HoldMiniGame.init)) in *.
  set (w0 := fst (MiniGames.open 0%nat t0 MiniGames.init)).
  assert (Won : HoldMiniGame.update t g = (g, true) ->
                update t {| manager := w0; game := g |}
                = {| manager := MiniGames.onComplete 0%nat w0;
                     game := HoldMiniGame.unmount g |}).
  { intros U. unfold update. cbn [manager game]. rewrite U. reflexivity. }
  assert (Not : forall g', HoldMiniGame.update t g = (g', false) ->
                update t {| manager := w0; game := g |} = {| manager := w0; game := g' |}).
  { intros g' U. unfold update. cbn [manager game]. rewrite U. reflexivity. }
  assert (Ov : over [true] {| manager := MiniGames.onComplete 0%nat w0;
                              game := HoldMiniGame.unmount g |}).
  { unfold over. cbn. repeat split. }
  destruct (HoldMiniGame.held_since ps) as [since |].
  - destruct H as [Hh Hs].
    assert (U : HoldMiniGame.update t g =
                if 1 <=? (t - since) / 2100 then (g, true)
                else ({| HoldMiniGame._mounted := HoldMiniGame._mounted g;
                         HoldMiniGame._holding := HoldMiniGame._holding g;
                         HoldMiniGame._holdStart := HoldMiniGame._holdStart g;
                         HoldMiniGame._requiredMs := HoldMiniGame._requiredMs g;
                         HoldMiniGame._orb := HoldMiniGame._orb g;
                         HoldMiniGame.shown := clamp01 ((t - since) / 2100) |}, false)).
    { unfold HoldMiniGame.update. rewrite M, O, R, Hh, Hs. cbn [negb orb andb].
      rewrite HoldFacts.clamp01_full. destruct (1 <=? (t - since) / 2100); reflexivity. }
    destruct (1 <=? (t - since) / 2100).
    + rewrite (Won U). split; [exact Ov | apply over_run, Ov].
    + rewrite (Not _ U). cbn. repeat split; exact M.
  - assert (Hh : HoldMiniGame._holding g = false).
    { destruct ps as [| e ps']; [reflexivity | apply H; discriminate]. }
    assert (U : HoldMiniGame.update t g =
                ({| HoldMiniGame._mounted := HoldMiniGame._mounted g;
                    HoldMiniGame._holding := HoldMiniGame._holding g;
                    HoldMiniGame._holdStart := HoldMiniGame._holdStart g;
                    HoldMiniGame._requiredMs := HoldMiniGame._requiredMs g;
                    HoldMiniGame._orb := HoldMiniGame._orb g;
                    HoldMiniGame.shown := 0 |}, false)).
    { unfold HoldMiniGame.update. rewrite M, O, Hh. reflexivity. }
    rewrite (Not _ U). cbn. repeat split; exact M.
Qed.

Lemma held_long_enough_wins_witness :
  let s := update 4200
             (run (Pointer <$> [HoldMiniGame.Down 1000; HoldMiniGame.Up; HoldMiniGame.Down 2000])
                (start 500)) in
  over [true] (run [Frame 4216; Dismiss 5000; Pointer HoldMiniGame.Up] s).
Proof.
  intros s.
  pose proof (held_long_enough_wins 500
                [HoldMiniGame.Down 1000; HoldMiniGame.Up; HoldMiniGame.Down 2000] 4200
                [Frame 4216; Dismiss 5000; Pointer HoldMiniGame.Up]) as H.
  cbv zeta in H. cbn [HoldMiniGame.held_since last] in H.
  assert (L : (1 <=? (4200 - 2000) / 2100) = true) by (vm_compute; reflexivity).
  rewrite L in H. exact (proj2 H).
Defined.

End HoldSessionFacts.

(** ** The mute button *)

Module MuteFacts.
Import JS App Mute.
Local Open Scope float_scope.

Section ToggleFacts.
Variable JSON_stringify : Saved -> string.

Lemma toggle_on allowed0 now0 allowed now1 now2 a :
  audioUnlocked (state a) = true -> audioMuted (state a) = false ->
  let a1 := toggleMute JSON_stringify allowed0 now0 allowed now1 now2 a in
  audioMuted (state a1) = true /\ audioUnlocked (state a1) = true /\
  scene (state a1) = scene (state a) /\
  audio a1 = Audio.setMuted true (audio a).
Proof.
  destruct a as [st ? ? ? ? ? ? am ? ? ? ? ? ? ?]. destruct st as [tm di sc mu un].
  cbn [state audioUnlocked audioMuted]. intros -> ->. cbv zeta. unfold toggleMute.
  cbn. repeat split.
Qed.

Lemma toggle_off allowed0 now0 allowed now1 now2 a :
  audioUnlocked (state a) = true -> audioMuted (state a) = true ->
  Audio.enabled (audio a) = true ->
  let a1 := toggleMute JSON_stringify allowed0 now0 allowed now1 now2 a in
  audioMuted (state a1) = false /\ audioUnlocked (state a1) = true /\
  scene (state a1) = scene (state a) /\
  audio a1 =
    match scene (state a) with
    | Final => Audio.switchToFinal allowed now1 now2 (Audio.setMuted false (audio a))
    | _ => Audio.run_op (Audio.OPlay Audio.Ambient allowed) (Audio.setMuted false (audio a))
    end.
Proof.
  destruct a as [st ? ? ? ? ? ? am ? ? ? ? ? ? ?]. destruct st as [tm di sc mu un].
  destruct am as [ea ef en m mv ba bf ta tf fa ff raf].
  cbn [state audioUnlocked audioMuted audio Audio.enabled]. intros -> -> ->. cbv zeta.
  unfold toggleMute.
  cbn [state audioUnlocked audioMuted set_storage set_audio set_flags negb
       audio scene Audio.setMuted Audio.enabled].
  destruct sc; repeat split.
Qed.

Lemma toggle_twice_audio allowed0 now0 allowed0' now0' allowed now1 now2 allowed' now1' now2' a :
  audioUnlocked (state a) = true -> audioMuted (state a) = false ->
  Audio.enabled (audio a) = true ->
  let a2 := toggleMute JSON_stringify allowed0' now0' allowed' now1' now2'
              (toggleMute JSON_stringify allowed0 now0 allowed now1 now2 a) in
  audioMuted (state a2) = false /\ audioUnlocked (state a2) = true /\
  scene (state a2) = scene (state a) /\
  audio a2 =
    match scene (state a) with
    | Final => Audio.switchToFinal allowed' now1' now2'
                 (Audio.setMuted false (Audio.setMuted true (audio a)))
    | _ => Audio.run_op (Audio.OPlay Audio.Ambient allowed')
             (Audio.setMuted false (Audio.setMuted true (audio a)))
    end.
Proof.
  intros U M E.
  destruct (toggle_on allowed0 now0 allowed now1 now2 a U M) as (M1 & U1 & S1 & A1).
  assert (E1 : Audio.enabled (audio (toggleMute JSON_stringify allowed0 now0 allowed now1 now2 a))
               = true) by (rewrite A1; exact E).
  destruct (toggle_off allowed0' now0' allowed' now1' now2' _ U1 M1 E1) as (M2 & U2 & S2 & A2).
  cbv zeta. rewrite M2, U2, S2, A2, S1, A1. repeat split.
Qed.

(** X27. Muting and unmuting with the button outside the final scene leaves
    the music inaudible: with the sound unlocked and the controller
    enabled, after two runs of [toggleMute] the game is unmuted and the
    ambient element is resumed if the host allows it, yet its volume is 0
    and stays 0 through any updates, fade ticks and playback checks, with
    no fade in flight, while the base level is what it was. *)
Theorem unmute_in_world_stays_silent
  (a : App) (allowed0 allowed0' allowed allowed' : bool)
  (now0 now0' now1 now2 now1' now2' : float) (os : list Audio.op) :
  scene (state a) <> Final ->
  audioUnlocked (state a) = true -> audioMuted (state a) = false ->
  Audio.enabled (audio a) = true ->
  Forall Audio.quiet os ->
  let a2 := toggleMute JSON_stringify allowed0' now0' allowed' now1' now2'
              (toggleMute JSON_stringify allowed0 now0 allowed now1 now2 a) in
  let s := Audio.run_ops os (audio a2) in
  audioMuted (state a2) = false /\
  Audio.muted s = false /\
  Audio.volume (Audio.ambient s) = 0 /\
  Audio._base_ambient s = Audio._base_ambient (audio a) /\
  Audio.active (Audio._fades_ambient s) = false /\
  (allowed' = true -> Audio.paused (Audio.ambient (audio a2)) = false).
Proof.
  intros Sc U M E Q.
  destruct (toggle_twice_audio allowed0 now0 allowed0' now0' allowed now1 now2
              allowed' now1' now2' a U M E) as (Hm & _ & _ & Ha).
  cbv zeta in *. rewrite Ha.
  assert (Hw : match scene (state a) with
               | Final => Audio.switchToFinal allowed' now1' now2'
                            (Audio.setMuted false (Audio.setMuted true (audio a)))
               | _ => Audio.run_op (Audio.OPlay Audio.Ambient allowed')
                        (Audio.setMuted false (Audio.setMuted true (audio a)))
               end = Audio.run_op (Audio.OPlay Audio.Ambient allowed')
                       (Audio.setMuted false (Audio.setMuted true (audio a)))).
  { destruct (scene (state a)); [reflexivity | reflexivity | contradiction]. }
  rewrite Hw.
  assert (H : Audio.hushed (Audio._base_ambient (audio a)) (Audio._base_final (audio a))
                (Audio.run_ops (Audio.OPlay Audio.Ambient allowed' :: os)
                   (Audio.setMuted false (Audio.setMuted true (audio a))))).
  { apply AudioMore.run_quiet_hushed; [constructor; [exact I | exact Q] |]. repeat split. }
  destruct H as (Hmu & Ha1 & _ & Hv & _ & Hb & _).
  split; [exact Hm |]. split; [exact Hmu |]. split; [exact Hv |]. split; [exact Hb |].
  split; [exact Ha1 |].
  intros ->. reflexivity.
Qed.

End ToggleFacts.

Lemma unmute_in_world_stays_silent_witness :
  let a2 := toggleMute (fun _ => "saved") true 0 true 7000 7000
              (toggleMute (fun _ => "saved") true 0 true 6000 6000 starFound) in
  Audio.volume (Audio.ambient
                  (Audio.run_ops [Audio.OUpdate 7016; Audio.OEnsurePlayback true true]
                     (audio a2))) = 0.
Proof.
  intros a2.
  apply (unmute_in_world_stays_silent (fun _ => "saved") starFound true true true true
           0 0 6000 6000 7000 7000 [Audio.OUpdate 7016; Audio.OEnsurePlayback true true]).
  - discriminate.
  - reflexivity.
  - reflexivity.
  - reflexivity.
  - repeat constructor.
Defined.

End MuteFacts.
